(** * SugaR: UCI options and the tuning framework (src/ucioption.cpp)

    A shallow embedding of [ucioption.cpp]: the [UCI::Option] class with its
    validating assignment, the case-insensitive [OptionsMap] registry and its
    printer, the tuning framework's [Tune::next] / [make_option] /
    [init_option] / [read_option] / [on_tune], and [BoolConditions::set].

    Conventions.
    - [int] and [size_t] values are integers of [Z] and [N]; where the source
      converts between widths the conversion is written out.
    - [float] (the result of [std::stof]) is modelled by the set of values of
      IEEE-754 binary32, each finite value being the rational it denotes.
    - The C library is the one of GNU/Linux on x86-64: [char] is signed,
      [tolower] and [strtof] are those of glibc in the "C" locale.
    - [int] bounds and values are not cut to 32 bits: what is said of a
      difference of bounds is said of the mathematical difference, which is
      the one of the source as long as it is an [int].
    - A C++ exception leaving a function is a [Raised] completion; the state
      reached when it was thrown is kept beside it. *)

From Stdlib Require Import ZArith QArith Qabs List String Ascii Bool Lia.
From Stdlib Require Import Decimal DecimalString DecimalN DecimalZ DecimalPos.
From Stdlib Require Import Sorted Permutation.
Import ListNotations.

Local Open Scope string_scope.
Local Open Scope list_scope.
Local Open Scope Z_scope.

(* ===================================================================== *)
(** ** Single-precision numbers *)
(* ===================================================================== *)

(** The values of IEEE-754 binary32.  A finite value is kept as the exact
    rational it stands for, in lowest terms, so the order of floats is the
    order of [Q]; the two zeros are one value (no operation below tells them
    apart). *)
Module Float32.

Inductive t : Type :=
| NaN
| Inf (negative : bool)
| Fin (x : Q).

(** [floor (log2 (n / d))] for positive [n] and [d]. *)
Definition ilog2 (n d : Z) : Z :=
  let e0 := Z.log2 n - Z.log2 d in
  let above := if 0 <=? e0 then d * 2 ^ e0 <=? n else d <=? n * 2 ^ (- e0) in
  if above then e0 else e0 - 1.

(** [m * 2^u] as a rational in lowest terms. *)
Definition scale2 (m u : Z) : Q :=
  if 0 <=? u then inject_Z (m * 2 ^ u) else Qred (m # Z.to_pos (2 ^ (- u))).

(** Round the positive rational [n / d] to the binary32 grid: 24 significant
    bits, least exponent of a unit in the last place -149, ties to even.
    The result is the pair [(m, u)] standing for [m * 2^u]. *)
Definition round_pos (n d : Z) : Z * Z :=
  let e := ilog2 n d in
  let u := Z.max (e - 23) (-149) in
  let a := if u <? 0 then n * 2 ^ (- u) else n in
  let b := if u <? 0 then d else d * 2 ^ u in
  let q := a / b in
  let r := a mod b in
  let m := if 2 * r <? b then q
           else if b <? 2 * r then q + 1
           else if Z.even q then q else q + 1 in
  (m, u).

(** Is [m * 2^u] beyond the largest finite binary32, i.e. at least 2^128? *)
Definition overflows (mu : Z * Z) : bool :=
  let (m, u) := mu in 2 ^ 128 <=? m * 2 ^ Z.max u 0.

(** Nearest binary32 of the rational [x], overflow going to infinity.
    [x] is first put in lowest terms. *)
Definition round (x : Q) : t :=
  let n := Qnum (Qred x) in
  let d := Z.pos (Qden (Qred x)) in
  if n =? 0 then Fin 0
  else
    let mu := round_pos (Z.abs n) d in
    if overflows mu then Inf (n <? 0)
    else Fin (scale2 (Z.sgn n * fst mu) (snd mu)).

(** The conversion [int -> float] of the usual arithmetic conversions. *)
Definition of_int (z : Z) : t := round (inject_Z z).

(** [a < b] on floats: false as soon as one side is a NaN. *)
Definition ltb (a b : t) : bool :=
  match a, b with
  | NaN, _ | _, NaN => false
  | Inf true, Inf true => false
  | Inf true, _ => true
  | _, Inf true => false
  | Inf false, _ => false
  | _, Inf false => true
  | Fin x, Fin y => negb (Qle_bool y x)
  end.

(** [a > b]. *)
Definition gtb (a b : t) : bool := ltb b a.

(** The conversion [float -> int]: truncation toward zero.  It is undefined
    (here [None]) for a NaN, an infinity, or a value whose integer part is
    not an [int]. *)
Definition to_int (a : t) : option Z :=
  match a with
  | Fin x =>
      let z := Z.quot (Qnum x) (Z.pos (Qden x)) in
      if (- 2 ^ 31 <=? z) && (z <? 2 ^ 31) then Some z else None
  | _ => None
  end.

(** An [int] that the conversion to [float] leaves as it is. *)
Definition exact (z : Z) : Prop := of_int z = Fin (inject_Z z).

End Float32.

(* ===================================================================== *)
(** ** [std::stof] and [std::to_string] *)
(* ===================================================================== *)

(** The exceptions [std::stof] throws. *)
Inductive exn : Type :=
| invalid_argument   (* no conversion could be performed *)
| out_of_range.      (* strtof reported ERANGE *)

Inductive stof_result : Type :=
| Parsed (f : Float32.t)
| Fails (e : exn).

(** [std::stof(v)] is [strtof] on [v] (the end pointer is not inspected, so
    text after the number is allowed), throwing [invalid_argument] when
    nothing was converted and [out_of_range] on ERANGE.  The grammar is the
    one of C's [strtof] in the "C" locale: blanks, a sign, then a decimal or
    hexadecimal floating constant, [inf]/[infinity] or [nan]/[nan(...)]. *)
Module Strtof.

Definition isspace (c : ascii) : bool :=
  let n := nat_of_ascii c in
  (n =? 32)%nat || ((9 <=? n)%nat && (n <=? 13)%nat).

Fixpoint skip_space (s : string) : string :=
  match s with
  | String c s' => if isspace c then skip_space s' else s
  | EmptyString => s
  end.

(** The C-locale [tolower] on one character of text. *)
Definition lower (c : ascii) : ascii :=
  let n := nat_of_ascii c in
  if (65 <=? n)%nat && (n <=? 90)%nat then ascii_of_nat (n + 32) else c.

(** [strip p s]: the rest of [s] after the prefix [p], letter case aside
    ([p] is given in lower case). *)
Fixpoint strip (p s : string) : option string :=
  match p, s with
  | EmptyString, _ => Some s
  | String a p', String c s' =>
      if Ascii.eqb a (lower c) then strip p' s' else None
  | String _ _, EmptyString => None
  end.

Definition digit_char (c : ascii) : option (uint -> uint) :=
  match c with
  | "0"%char => Some D0 | "1"%char => Some D1 | "2"%char => Some D2
  | "3"%char => Some D3 | "4"%char => Some D4 | "5"%char => Some D5
  | "6"%char => Some D6 | "7"%char => Some D7 | "8"%char => Some D8
  | "9"%char => Some D9 | _ => None
  end.

(** The longest run of decimal digits at the head of [s], and the rest. *)
Fixpoint scan_uint (s : string) : uint * string :=
  match s with
  | String c s' =>
      match digit_char c with
      | Some D => let (d, r) := scan_uint s' in (D d, r)
      | None => (Nil, s)
      end
  | EmptyString => (Nil, s)
  end.

Definition hex_digit (c : ascii) : option Z :=
  let n := Z.of_nat (nat_of_ascii (lower c)) in
  if (48 <=? n) && (n <=? 57) then Some (n - 48)
  else if (97 <=? n) && (n <=? 102) then Some (n - 87)
  else None.

(** The longest run of hexadecimal digits at the head of [s]: its value in
    base 16 continuing [acc], how many digits it has, and the rest. *)
Fixpoint scan_hex (s : string) (acc : Z) (len : Z) : Z * Z * string :=
  match s with
  | String c s' =>
      match hex_digit c with
      | Some h => scan_hex s' (16 * acc + h) (len + 1)
      | None => (acc, len, s)
      end
  | EmptyString => (acc, len, s)
  end.

(** An optional sign at the head of [s]: is it a minus, and the rest. *)
Definition sign (s : string) : bool * string :=
  match s with
  | String "-"%char t => (true, t)
  | String "+"%char t => (false, t)
  | _ => (false, s)
  end.

(** An exponent part: [mark], an optional sign and at least one digit.
    When it is not well formed nothing is consumed and the exponent is 0. *)
Definition scan_exponent (mark : ascii) (s : string) : Z :=
  match s with
  | String c s' =>
      if Ascii.eqb (lower c) mark then
        let (neg, s'') := sign s' in
        let (d, _) := scan_uint s'' in
        if neg then - Z.of_uint d else Z.of_uint d
      else 0
  | EmptyString => 0
  end.

(** A decimal floating constant at the head of [s]: digits with at most one
    radix point and at least one digit, then an optional exponent.  The
    value is returned as an exact rational. *)
Definition decimal (s : string) : option Q :=
  let (ip, r) := scan_uint s in
  let (fp, r') :=
    match r with
    | String "."%char t => scan_uint t
    | _ => (Nil, r)
    end in
  match ip, fp with
  | Nil, Nil => None
  | _, _ =>
      let k := Z.of_nat (nb_digits fp) in
      let m := Z.of_uint ip * 10 ^ k + Z.of_uint fp in
      let e := scan_exponent "e"%char r' - k in
      Some (if 0 <=? e then inject_Z (m * 10 ^ e)
            else m # Z.to_pos (10 ^ (- e)))
  end.

(** A hexadecimal floating constant after its [0x]: hexadecimal digits with
    at most one radix point and at least one digit, then an optional binary
    exponent. *)
Definition hexadecimal (s : string) : option Q :=
  let '(ip, il, r) := scan_hex s 0 0 in
  let '(m, fl, r') :=
    match r with
    | String "."%char t => scan_hex t ip 0
    | _ => (ip, 0, r)
    end in
  if il + fl =? 0 then None
  else
    let e := scan_exponent "p"%char r' - 4 * fl in
    Some (if 0 <=? e then inject_Z (m * 2 ^ e)
          else m # Z.to_pos (2 ^ (- e))).

(** The magnitude read after the sign: [None] when there is no number. *)
Definition magnitude (s : string) : option (Float32.t + Q) :=
  match strip "inf" s with
  | Some _ => Some (inl (Float32.Inf false))
  | None =>
      match strip "nan" s with
      | Some _ => Some (inl Float32.NaN)
      | None =>
          match strip "0x" s with
          | Some r =>
              match hexadecimal r with
              | Some x => Some (inr x)
              | None => Some (inr 0%Q)      (* only the "0" is read *)
              end
          | None => option_map inr (decimal s)
          end
      end
  end.

(** Does the positive rational [n / d] make [strtof] report an underflow?
    The C library ([round_and_return] of glibc) has the 24 leading bits of
    the number ([ret]), the bit after them ([half]) and whether any bit
    further down is set ([more]).  Below 2^-126 the leading bits are moved
    right by [shift] places, onto the grid of the subnormal numbers; such
    a result counts as tiny unless the shift is by one place and rounding
    the 24 bits carries into the least normal number.  ERANGE is reported
    for a tiny result that is not exact, by the bits moved out and the bits
    below the first rounding bit (that bit itself is not looked at again),
    and for every number below 2^-150. *)
Definition underflow_pos (n d : Z) : bool :=
  let e := Float32.ilog2 n d in
  if -126 <=? e then false
  else if e <? -150 then true
  else
    let a := n * 2 ^ (23 - e) in
    let ret := a / d in
    let r := a mod d in
    let half := d <=? 2 * r in
    let more := negb ((if half then 2 * r - d else 2 * r) =? 0) in
    let shift := -126 - e in
    let is_tiny :=
      negb ((shift =? 1) && half && (more || Z.odd ret)
            && (ret + 1 =? 2 ^ 24)) in
    let half' := Z.testbit ret (shift - 1) in
    let more' := more || negb (ret mod 2 ^ (shift - 1) =? 0) in
    is_tiny && (half' || more').

(** Is ERANGE reported for the underflow of [x], which rounds to the finite
    [f]?  Zero does not underflow. *)
Definition underflows (x : Q) (f : Float32.t) : bool :=
  match f with
  | Float32.Fin _ =>
      let n := Qnum (Qred x) in
      if n =? 0 then false
      else underflow_pos (Z.abs n) (Z.pos (Qden (Qred x)))
  | _ => false
  end.

Definition stof (v : string) : stof_result :=
  let s := skip_space v in
  let (neg, s') := sign s in
  match magnitude s' with
  | None => Fails invalid_argument
  | Some (inl (Float32.Inf _)) => Parsed (Float32.Inf neg)
  | Some (inl f) => Parsed f
  | Some (inr x) =>
      let x' := if neg then Qopp x else x in
      match Float32.round x' with
      | Float32.Fin y =>
          if underflows x' (Float32.Fin y) then Fails out_of_range
          else Parsed (Float32.Fin y)
      | _ => Fails out_of_range
      end
  end.

End Strtof.

Definition stof : string -> stof_result := Strtof.stof.

(** [os << n] for an [int] (or [size_t]) [n]: its decimal digits, with a
    minus sign when negative. *)
Definition show_int (n : Z) : string := NilZero.string_of_int (Z.to_int n).

(** [std::to_string(double(n))] for an integer [n]: the [%f] format, i.e.
    the digits of [n] and six zeros after the point.  Every [int] is a
    [double], so the conversion before it loses nothing. *)
Definition to_string (n : Z) : string := show_int n ++ ".000000".

(* ===================================================================== *)
(** ** Exceptions and state *)
(* ===================================================================== *)

(** What a value-returning call comes to: a value, an exception, or no
    defined behaviour at all (a failed [assert], an undefined conversion). *)
Inductive outcome (A : Type) : Type :=
| Value (a : A)
| Throws (e : exn)
| Undefined.
Arguments Value {A} a.
Arguments Throws {A} e.
Arguments Undefined {A}.

(** A run of code over a state [S]: it returns with a value and the new
    state, or an exception leaves it in some state, or it is undefined. *)
Inductive Result (S A : Type) : Type :=
| Ok (a : A) (s : S)
| Exn (e : exn) (s : S)
| Undef.
Arguments Ok {S A} a s.
Arguments Exn {S A} e s.
Arguments Undef {S A}.

Definition M (S A : Type) : Type := S -> Result S A.

Definition ret {S A} (a : A) : M S A := fun s => Ok a s.

Definition bind {S A B} (c : M S A) (k : A -> M S B) : M S B :=
  fun s =>
    match c s with
    | Ok a s' => k a s'
    | Exn e s' => Exn e s'
    | Undef => Undef
    end.

Definition get {S} : M S S := fun s => Ok s s.
Definition put {S} (s : S) : M S unit := fun _ => Ok tt s.
Definition modify {S} (f : S -> S) : M S unit := fun s => Ok tt (f s).

(** Run a value-returning call inside stateful code. *)
Definition lift {S A} (o : outcome A) : M S A :=
  fun s =>
    match o with
    | Value a => Ok a s
    | Throws e => Exn e s
    | Undefined => Undef
    end.

Declare Scope monad_scope.
Delimit Scope monad_scope with monad.
Notation "x <- c ;; k" := (bind c (fun x => k))
  (at level 61, c at next level, right associativity) : monad_scope.
Notation "c ;; k" := (bind c (fun _ => k))
  (at level 61, right associativity) : monad_scope.
Local Open Scope monad_scope.

(** [for (auto& x : l) body(x);] *)
Fixpoint for_each {S A} (l : list A) (body : A -> M S unit) : M S unit :=
  match l with
  | [] => ret tt
  | x :: l' => body x ;; for_each l' body
  end.

(* ===================================================================== *)
(** ** namespace UCI *)
(* ===================================================================== *)

Module UCI.

(** *** CaseInsensitiveLess *)

(** A [char] as the [int] it promotes to ([char] is signed here). *)
Definition char_to_int (c : ascii) : Z :=
  let n := Z.of_nat (nat_of_ascii c) in
  if n <? 128 then n else n - 256.

(** [tolower] in the "C" locale, called on a [char]: a capital letter
    gives its small letter.  The table of the C library goes from -128 to
    255: a negative [char] other than -1 (which is [EOF]) has the entry of
    the same byte read as [unsigned char]. *)
Definition tolower (c : Z) : Z :=
  if (65 <=? c) && (c <=? 90) then c + 32
  else if (-128 <=? c) && (c <? -1) then c + 256
  else c.

(** [std::lexicographical_compare] with the comparison [comp]. *)
Fixpoint lexicographical_compare {A} (comp : A -> A -> bool)
    (s1 s2 : list A) : bool :=
  match s1, s2 with
  | a :: s1', b :: s2' =>
      if comp a b then true
      else if comp b a then false
      else lexicographical_compare comp s1' s2'
  | [], _ :: _ => true
  | _, [] => false
  end.

(** [CaseInsensitiveLess::operator()]. *)
Definition CaseInsensitiveLess (s1 s2 : string) : bool :=
  lexicographical_compare
    (fun c1 c2 => tolower (char_to_int c1) <? tolower (char_to_int c2))
    (list_ascii_of_string s1) (list_ascii_of_string s2).

(** *** Option *)

(** The 'on change' actions of this file.  Each hands the option over to
    another part of the engine; [on_tune] is the tuning framework's. *)
Inductive OnChange : Type :=
| on_clear_hash | on_hash_size | on_large_pages | on_logger | on_threads
| on_tb_path | on_HashFile | SaveHashtoFile | LoadHashfromFile
| LoadEpdToHash | on_book_file | on_best_book_move | on_book_depth
| on_tune.

(** The [type] field.  It is a [std::string] that only the constructors
    write, each with one of five literals; [type_name] gives the text.
    [assert(!type.empty())] therefore holds of every option. *)
Inductive OptionType : Type := string_t | check | button | spin | combo.

Definition type_name (t : OptionType) : string :=
  match t with
  | string_t => "string"
  | check => "check"
  | button => "button"
  | spin => "spin"
  | combo => "combo"
  end.

Definition is_type (t u : OptionType) : bool :=
  String.eqb (type_name t) (type_name u).

(** [class Option].  [on_change] is a function pointer, [None] for null;
    [idx] is [None] until [operator<<] assigns it (no constructor
    initialises it). *)
Record Option : Type := mkOption {
  defaultValue : string;
  currentValue : string;
  type : OptionType;
  min : Z;
  max : Z;
  idx : option N;
  on_change : option OnChange
}.

Definition set_currentValue (o : Option) (v : string) : Option :=
  mkOption (defaultValue o) v (type o) (min o) (max o) (idx o) (on_change o).

Definition set_idx (o : Option) (i : N) : Option :=
  mkOption (defaultValue o) (currentValue o) (type o) (min o) (max o)
           (Some i) (on_change o).

(** [Option(const char* v, OnChange f)] *)
Definition Option_string (v : string) (f : option OnChange) : Option :=
  mkOption v v string_t 0 0 None f.

(** [Option(bool v, OnChange f)] *)
Definition Option_check (v : bool) (f : option OnChange) : Option :=
  let t := if v then "true" else "false" in
  mkOption t t check 0 0 None f.

(** [Option(OnChange f)]; with no argument it is the default constructor
    ([f] defaults to null in the class declaration). *)
Definition Option_button (f : option OnChange) : Option :=
  mkOption "" "" button 0 0 None f.

(** [Option(double v, int minv, int maxv, OnChange f)].  Every caller in
    this file passes an integer for [v] ([init] literals and the number of
    threads, [make_option] an [int]), and so does the model. *)
Definition Option_spin (v minv maxv : Z) (f : option OnChange) : Option :=
  mkOption (to_string v) (to_string v) spin minv maxv None f.

(** [Option(const char* v, const char* cur, OnChange f)] *)
Definition Option_combo (v cur : string) (f : option OnChange) : Option :=
  mkOption v cur combo 0 0 None f.

(** [Option::operator double()].  A [check] gives 1 or 0.  On another kind
    than check and spin the [assert] fails: the call has no defined result. *)
Definition to_double (o : Option) : outcome Float32.t :=
  if is_type (type o) check || is_type (type o) spin then
    if is_type (type o) spin then
      match stof (currentValue o) with
      | Parsed f => Value f
      | Fails e => Throws e
      end
    else Value (Float32.of_int (if String.eqb (currentValue o) "true" then 1 else 0))
  else Undefined.

(** [Option::operator std::string()], under its [assert]. *)
Definition to_std_string (o : Option) : outcome string :=
  if is_type (type o) string_t then Value (currentValue o) else Undefined.

(** [Option::operator==(const char* s)], under its [assert]. *)
Definition equals (o : Option) (s : string) : outcome bool :=
  if is_type (type o) combo then
    Value (negb (CaseInsensitiveLess (currentValue o) s)
           && negb (CaseInsensitiveLess s (currentValue o)))
  else Undefined.

(** What [operator=] did: the option afterwards, the calls of its
    [on_change] action (each with the option it was given), and whether
    the operator returned or an exception left it. *)
Inductive completion : Type := Normal | Raised (e : exn).

Record assignment : Type := mkAssignment {
  after : Option;
  fired : list (OnChange * Option);
  completed : completion
}.

(** [stof(v) < min || stof(v) > max], [min] and [max] converted to
    [float] for the comparison. *)
Definition out_of_bounds (o : Option) (v : string) : exn + bool :=
  match stof v with
  | Fails e => inl e
  | Parsed f =>
      if Float32.ltb f (Float32.of_int (min o)) then inr true
      else
        match stof v with
        | Fails e => inl e
        | Parsed g => inr (Float32.gtb g (Float32.of_int (max o)))
        end
  end.

(** The part of [operator=] after the validation. *)
Definition accept (o : Option) (v : string) : assignment :=
  let o' := if negb (is_type (type o) button) then set_currentValue o v else o in
  match on_change o' with
  | Some f => mkAssignment o' [(f, o')] Normal
  | None => mkAssignment o' [] Normal
  end.

(** [Option::operator=(const string& v)] *)
Definition assign (o : Option) (v : string) : assignment :=
  if negb (is_type (type o) button) && String.eqb v "" then
    mkAssignment o [] Normal
  else if is_type (type o) check
          && negb (String.eqb v "true") && negb (String.eqb v "false") then
    mkAssignment o [] Normal
  else if is_type (type o) spin then
    match out_of_bounds o v with
    | inl e => mkAssignment o [] (Raised e)
    | inr true => mkAssignment o [] Normal
    | inr false => accept o v
    end
  else accept o v.

(** *** OptionsMap *)

(** [std::map<std::string, Option, CaseInsensitiveLess>]: the entries in
    the order of the comparator, as the map's iterators visit them.  The
    address of an entry (a map never moves its nodes) is identified by the
    key stored in it. *)
Definition OptionsMap : Type := list (string * Option).

(** [om.find(name)]: the walk of [lower_bound], then the equivalence
    test. *)
Fixpoint find (om : OptionsMap) (name : string) : option (string * Option) :=
  match om with
  | [] => None
  | (k, o) :: om' =>
      if CaseInsensitiveLess k name then find om' name
      else if CaseInsensitiveLess name k then None
      else Some (k, o)
  end.

(** [om.count(name)] *)
Definition count (om : OptionsMap) (name : string) : nat :=
  match find om name with Some _ => 1%nat | None => 0%nat end.

(** The map after [om[name]] was evaluated: a default-constructed option
    is put under [name] when no equivalent key is there. *)
Fixpoint subscript (om : OptionsMap) (name : string) : OptionsMap :=
  match om with
  | [] => [(name, Option_button None)]
  | (k, o) :: om' =>
      if CaseInsensitiveLess k name then (k, o) :: subscript om' name
      else if CaseInsensitiveLess name k then (name, Option_button None) :: om
      else om
  end.

(** A write through the reference that [om[name]] returned: [f] is applied
    to the option of the entry whose key is equivalent to [name]. *)
Fixpoint update (om : OptionsMap) (name : string) (f : Option -> Option)
    : OptionsMap :=
  match om with
  | [] => []
  | (k, o) :: om' =>
      if CaseInsensitiveLess k name then (k, o) :: update om' name f
      else if CaseInsensitiveLess name k then om
      else (k, f o) :: om'
  end.

(** [om[name] << o], i.e. [Option::operator<<] on the entry of [name]:
    the entry becomes a copy of [o] and takes the next value of
    [insert_order], the function's static counter. *)
Definition insert (om : OptionsMap) (insert_order : N) (name : string)
    (o : Option) : OptionsMap * N :=
  (update (subscript om name) name (fun _ => set_idx o insert_order),
   (insert_order + 1)%N).

(** *** Printing the options *)

(** The text ["\n"]. *)
Definition newline : string := String (ascii_of_nat 10) EmptyString.

Definition write (text : string) : M string unit :=
  modify (fun os => os ++ text)%string.

(** The first entry, in the map's order, whose [idx] is [i]. *)
Definition with_idx (om : OptionsMap) (i : N) : option (string * Option) :=
  List.find (fun it => match idx (snd it) with
                       | Some j => N.eqb j i
                       | None => false
                       end) om.

(** Does the search for the index [i] come to an [idx] that was never
    assigned?  The entries are visited in the map's order up to the first
    whose [idx] is [i].  The option [operator[]] puts under a new name has
    such an [idx]: it has no determinate value, and comparing it is
    undefined. *)
Fixpoint reads_unassigned (om : OptionsMap) (i : N) : bool :=
  match om with
  | [] => false
  | it :: om' =>
      match idx (snd it) with
      | Some j => if N.eqb j i then false else reads_unassigned om' i
      | None => true
      end
  end.

(** The body of the loops: one option's line.  [int(stof(defaultValue))]
    is evaluated before the text of its statement is written. *)
Definition print_option (name : string) (o : Option) : M string unit :=
  write (newline ++ "option name " ++ name ++ " type " ++ type_name (type o));;
  (if is_type (type o) string_t || is_type (type o) check
      || is_type (type o) combo
   then write (" default " ++ defaultValue o)
   else ret tt);;
  (if is_type (type o) spin
   then
     d <- lift (match stof (defaultValue o) with
                | Parsed f =>
                    match Float32.to_int f with
                    | Some d => Value d
                    | None => Undefined
                    end
                | Fails e => Throws e
                end);;
     write (" default " ++ show_int d
            ++ " min " ++ show_int (min o)
            ++ " max " ++ show_int (max o))
   else ret tt).

(** [operator<<(std::ostream&, const OptionsMap&)]: for every [idx] below
    the size of the map, the line of the first entry that has it. *)
Definition print (om : OptionsMap) : M string unit :=
  for_each (map N.of_nat (seq 0 (List.length om)))
    (fun i =>
       if reads_unassigned om i then fun _ => Undef
       else
         match with_idx om i with
         | Some (name, o) => print_option name o
         | None => ret tt
         end).

(** A run of statements [o[name] << option;], one for each pair of [l],
    on the map and the counter of [s]. *)
Definition insert_all (l : list (string * Option)) (s : OptionsMap * N)
    : OptionsMap * N :=
  fold_left (fun s e => insert (fst s) (snd s) (fst e) (snd e)) l s.

(** *** init *)

(** [init(OptionsMap& o)], given [Is64Bit] and what
    [std::thread::hardware_concurrency()] returned. *)
Definition init (Is64Bit : bool) (hardware_concurrency : Z)
    (o : OptionsMap * N) : OptionsMap * N :=
  let MaxHashMB := if Is64Bit then 131072 else 2048 in
  let n := if hardware_concurrency =? 0 then 1 else hardware_concurrency in
  insert_all
    [ ("Debug Log File",   Option_string "" (Some on_logger));
      ("Contempt",         Option_spin 21 (-100) 100 None);
      ("Analysis_CT",      Option_combo "Both var Off var White var Black var Both" "Both" None);
      ("Threads",          Option_spin n 1 512 (Some on_threads));
      ("Hash",             Option_spin 16 1 MaxHashMB (Some on_hash_size));
      ("BookFile",         Option_string "Cerebellum_Light_Poly.bin" (Some on_book_file));
      ("BestBookMove",     Option_check true (Some on_best_book_move));
      ("BookDepth",        Option_spin 255 1 255 (Some on_book_depth));
      ("Clear Hash",       Option_button (Some on_clear_hash));
      ("Ponder",           Option_check false None);
      ("MultiPV",          Option_spin 1 1 500 None);
      ("Move Overhead",    Option_spin 30 0 5000 None);
      ("UCI_Chess960",     Option_check false None);
      ("NeverClearHash",   Option_check false None);
      ("HashFile",         Option_string "hash.hsh" (Some on_HashFile));
      ("SaveHashtoFile",   Option_button (Some SaveHashtoFile));
      ("LoadHashfromFile", Option_button (Some LoadHashfromFile));
      ("LoadEpdToHash",    Option_button (Some LoadEpdToHash));
      ("UCI_AnalyseMode",  Option_check false None);
      ("Large Pages",      Option_check true (Some on_large_pages));
      ("ICCF Analyzes",    Option_spin 0 0 8 None);
      ("NullMove",         Option_check true None);
      ("SyzygyPath",       Option_string "<empty>" (Some on_tb_path));
      ("SyzygyProbeDepth", Option_spin 1 1 100 None);
      ("SyzygyProbeLimit", Option_spin 7 0 7 None) ] o.

End UCI.

(* ===================================================================== *)
(** ** The tuning framework *)
(* ===================================================================== *)

Module Tune.

Import UCI.

(** Modelled from the spec: the paired "score" kind of the engine, two
    scalars (midgame and endgame); [mg_value], [eg_value] and [make_score]
    take a pair apart and build one.  The engine's own definitions are not
    in this file. *)
Record Score : Type := make_score { mg_value : Z; eg_value : Z }.

(** [SetRange]: called on a value it gives the pair (min, max). *)
Definition SetRange : Type := Z -> Z * Z.

(** [Tune::PostUpdate], a function without arguments; it is known here by
    a number only. *)
Definition PostUpdate : Type := nat.

(** The parameter an entry is bound to, by the type it was declared
    with: [Entry<int>], [Entry<Value>], [Entry<Score>] or
    [Entry<PostUpdate>]. *)
Inductive Bound : Type :=
| of_int (v : Z)
| of_Value (v : Z)
| of_Score (s : Score)
| of_PostUpdate (f : PostUpdate).

(** [Tune::Entry<T>]: [value] is a reference to the engine's parameter;
    the parameter is kept here. *)
Record Entry : Type := mkEntry {
  name : string;
  value : Bound;
  range : SetRange
}.

(** What the framework writes on [std::cout] and which calls it makes
    out of this file. *)
Inductive Event : Type :=
| Line (n : string) (v lo hi : Z) (step : Q) (rate : string)
    (* n,v,lo,hi,step,rate and std::endl; [step] is the [double] handed to
       the stream, which writes it with its six significant digits *)
| Notified (f : OnChange) (o : Option)
    (* an 'on change' action other than on_tune ran on [o] *)
| PostUpdated (f : PostUpdate)
    (* the function [f] ran *)
| Read (n : string).
    (* [read_option] of the entry named [n] began: a record kept for
       telling which entries were read again; it is no output *)

(** The globals of the file.  [LastOption] points into [Options]; the
    entry it points to is named by its stored key. *)
Record World : Type := mkWorld {
  Options : OptionsMap;
  insert_order : N;
  update_on_last : bool;
  LastOption : option string;
  TuneResults : string -> option Z;
  entries : list Entry;
  events : list Event
}.

(** The globals when the program starts: [read_results] fills nothing
    in, so [TuneResults] is empty. *)
Definition start (es : list Entry) : World :=
  mkWorld [] 0%N false None (fun _ => None) es [].

Definition set_Options (om : OptionsMap) (w : World) : World :=
  mkWorld om (insert_order w) (update_on_last w) (LastOption w)
          (TuneResults w) (entries w) (events w).

Definition set_insert_order (c : N) (w : World) : World :=
  mkWorld (Options w) c (update_on_last w) (LastOption w)
          (TuneResults w) (entries w) (events w).

Definition set_LastOption (p : option string) (w : World) : World :=
  mkWorld (Options w) (insert_order w) (update_on_last w) p
          (TuneResults w) (entries w) (events w).

Definition set_entries (es : list Entry) (w : World) : World :=
  mkWorld (Options w) (insert_order w) (update_on_last w) (LastOption w)
          (TuneResults w) es (events w).

Definition emit (e : Event) (w : World) : World :=
  mkWorld (Options w) (insert_order w) (update_on_last w) (LastOption w)
          (TuneResults w) (entries w) (events w ++ [e]).

(** The address [&Options[n]], once the entry is there. *)
Definition address (om : OptionsMap) (n : string) : option string :=
  option_map fst (find om n).

(** [make_option(n, v, r)].  The step written is the difference of the
    bounds, taken as a [double], over 20. *)
Definition make_option (n : string) (v : Z) (r : SetRange) : M World unit :=
  if fst (r v) =? snd (r v) then ret tt
  else
    w <- get;;
    let v := match TuneResults w n with Some x => x | None => v end in
    let (om, c) := insert (Options w) (insert_order w) n
                     (Option_spin v (fst (r v)) (snd (r v)) (Some on_tune)) in
    modify (set_Options om);;
    modify (set_insert_order c);;
    modify (set_LastOption (address om n));;
    modify (emit (Line n v (fst (r v)) (snd (r v))
                       (inject_Z (snd (r v) - fst (r v)) / 20) "0.0020")).

(** [Entry<T>::init_option()] *)
Definition init_option (e : Entry) : M World unit :=
  match value e with
  | of_int v => make_option (name e) v (range e)
  | of_Value v => make_option (name e) v (range e)
  | of_Score s =>
      make_option ("m" ++ name e) (mg_value s) (range e);;
      make_option ("e" ++ name e) (eg_value s) (range e)
  | of_PostUpdate _ => ret tt
  end.

(** [Options[n]] read as an [int]: [operator double], then the
    conversion to [int].  The entry is there when this is called, so
    [operator[]] adds nothing. *)
Definition option_as_int (n : string) : M World Z :=
  w <- get;;
  match find (Options w) n with
  | Some (_, o) =>
      x <- lift (to_double o);;
      lift (match Float32.to_int x with
            | Some z => Value z
            | None => Undefined
            end)
  | None => fun _ => Undef
  end.

(** [Entry<T>::read_option()]: the value the parameter has afterwards. *)
Definition read_option (e : Entry) : M World Bound :=
  modify (emit (Read (name e)));;
  match value e with
  | of_int v =>
      w <- get;;
      if (0 <? count (Options w) (name e))%nat
      then z <- option_as_int (name e);; ret (of_int z)
      else ret (of_int v)
  | of_Value v =>
      w <- get;;
      if (0 <? count (Options w) (name e))%nat
      then z <- option_as_int (name e);; ret (of_Value z)
      else ret (of_Value v)
  | of_Score s =>
      w <- get;;
      s1 <- (if (0 <? count (Options w) ("m" ++ name e))%nat
             then z <- option_as_int ("m" ++ name e);;
                  ret (make_score z (eg_value s))
             else ret s);;
      s2 <- (if (0 <? count (Options w) ("e" ++ name e))%nat
             then z <- option_as_int ("e" ++ name e);;
                  ret (make_score (mg_value s1) z)
             else ret s1);;
      ret (of_Score s2)
  | of_PostUpdate f =>
      modify (emit (PostUpdated f));;
      ret (of_PostUpdate f)
  end.

(** The entries with the parameter of the [i]-th one set to [b]. *)
Fixpoint store (es : list Entry) (i : nat) (b : Bound) : list Entry :=
  match es, i with
  | [], _ => []
  | e :: es', O => mkEntry (name e) b (range e) :: es'
  | e :: es', S i' => e :: store es' i' b
  end.

(** Modelled from the spec: [Tune::read_options()], which is declared
    with the class and not in this file, re-invokes [read_option()] on all
    live entries, in the order of the list. *)
Definition read_options : M World unit :=
  w <- get;;
  for_each (seq 0 (List.length (entries w)))
    (fun i =>
       w <- get;;
       match nth_error (entries w) i with
       | Some e =>
           b <- read_option e;;
           modify (fun w => set_entries (store (entries w) i b) w)
       | None => ret tt
       end).

(** [on_tune(o)], [o] being the entry of [Options] at the address [a]. *)
Definition on_tune (a : string) : M World unit :=
  w <- get;;
  if negb (update_on_last w)
     || match LastOption w with
        | Some p => String.eqb p a
        | None => false
        end
  then read_options
  else ret tt.

(** The 'on change' action [f] called on the option [o], the entry at the
    address [a].  Only [on_tune] is of this framework; the others leave
    it. *)
Definition call (f : OnChange) (a : string) (o : Option) : M World unit :=
  match f with
  | UCI.on_tune => on_tune a
  | _ => modify (emit (Notified f o))
  end.

(** [Options[n] = v], the way the engine sets an option it was told to:
    [operator[]], then [operator=] on the entry, its action included. *)
Definition set_option (n v : string) : M World unit :=
  w <- get;;
  let om := subscript (Options w) n in
  match find om n with
  | Some (k, o) =>
      let a := assign o v in
      modify (set_Options (update om n (fun _ => after a)));;
      for_each (fired a) (fun fo => call (fst fo) k (snd fo));;
      match completed a with
      | Normal => ret tt
      | Raised e => fun w => Exn e w
      end
  | None => fun _ => Undef
  end.

(** *** Tune::next *)

(** [s.find(c)]: the place of the first [c] in [s]; [None] stands for
    [npos]. *)
Fixpoint find_char (c : ascii) (s : string) : option nat :=
  match s with
  | EmptyString => None
  | String a s' =>
      if Ascii.eqb a c then Some O else option_map S (find_char c s')
  end.

(** The first [n] characters of [s], all of [s] when it has fewer. *)
Fixpoint take (n : nat) (s : string) : string :=
  match n, s with
  | S n', String a s' => String a (take n' s')
  | _, _ => EmptyString
  end.

(** [s.substr(0, n)], [n] being what [find] returned. *)
Definition substr (s : string) (n : option nat) : string :=
  match n with
  | Some k => take k s
  | None => s
  end.

(** [s.erase(0, n)]: [s] without its first [n] characters, empty when it
    has no more than [n]. *)
Fixpoint erase (n : nat) (s : string) : string :=
  match n, s with
  | S n', String _ s' => erase n' s'
  | _, _ => s
  end.

(** The characters an extraction into a string takes: those before the
    first blank, or all of them. *)
Fixpoint word (s : string) : string :=
  match s with
  | String a s' =>
      if Strtof.isspace a then EmptyString else String a (word s')
  | EmptyString => EmptyString
  end.

(** [(ws >> token, token)] for [std::stringstream ws(token)]: the blanks
    at the head are skipped and the characters up to the next blank are
    taken.  When there is nothing but blanks the extraction fails before it
    clears the string, and [token] stays as it was. *)
Definition extract (token : string) : string :=
  match Strtof.skip_space token with
  | EmptyString => token
  | String a s => word (String a s)
  end.

(** [std::count(s.begin(), s.end(), c)] *)
Fixpoint count_char (c : ascii) (s : string) : Z :=
  match s with
  | EmptyString => 0
  | String a s' => (if Ascii.eqb a c then 1 else 0) + count_char c s'
  end.

(** The [do ... while] loop of [next], [name] being the text gathered so
    far.  Nothing in the loop bounds it: [rounds] is the number of rounds
    looked at, and [None] tells that the loop was not left within them. *)
Fixpoint next_loop (rounds : nat) (name names : string) (pop : bool)
    : option (string * string) :=
  match rounds with
  | O => None
  | S rounds' =>
      let token := substr names (find_char "," names) in
      let names' :=
        if pop then erase (String.length token + 1) names else names in
      let name' := (name ++ extract token)%string in
      if count_char "(" name' - count_char ")" name' =? 0
      then Some (name', names')
      else next_loop rounds' name' names' pop
  end.

(** [Tune::next(names, pop)]: the name returned and [names] afterwards. *)
Definition next (rounds : nat) (names : string) (pop : bool)
    : option (string * string) :=
  next_loop rounds "" names pop.

End Tune.

(* ===================================================================== *)
(** ** BoolConditions *)
(* ===================================================================== *)

Section Conditions.

(** The engine's pseudo-random generator: its state and [rand64()], which
    gives a 64-bit number and moves the state on.  Neither is defined in
    this file. *)
Variable PRNG : Type.
Variable rand64 : PRNG -> Z * PRNG.

(** [rng.rand<unsigned>()], i.e. [unsigned(rand64())]. *)
Definition rand_unsigned (g : PRNG) : Z * PRNG :=
  let (x, g') := rand64 g in (x mod 2 ^ 32, g').

(** The object [Conditions], the two statics of [set()] and the flags
    written on the output, one a line.  [rng] is seeded with the time at
    the first call, so it starts in a state nothing is known about. *)
Record BoolConditions : Type := mkBoolConditions {
  binary : list bool;
  values : list Z;
  variance : Z;
  threshold : Z;
  rng : PRNG;
  startup : bool;
  printed : list bool
}.

(** [l] with [l[i] = b] done. *)
Fixpoint set_nth {A} (l : list A) (i : nat) (b : A) : list A :=
  match l, i with
  | [], _ => []
  | _ :: l', O => b :: l'
  | a :: l', S i' => a :: set_nth l' i' b
  end.

Definition set_binary (i : nat) (b : bool) (c : BoolConditions) : BoolConditions :=
  mkBoolConditions (set_nth (binary c) i b) (values c) (variance c) (threshold c)
            (rng c) (startup c) (printed c).

Definition set_rng (g : PRNG) (c : BoolConditions) : BoolConditions :=
  mkBoolConditions (binary c) (values c) (variance c) (threshold c)
            g (startup c) (printed c).

Definition set_startup (b : bool) (c : BoolConditions) : BoolConditions :=
  mkBoolConditions (binary c) (values c) (variance c) (threshold c)
            (rng c) b (printed c).

Definition print_flag (b : bool) (c : BoolConditions) : BoolConditions :=
  mkBoolConditions (binary c) (values c) (variance c) (threshold c)
            (rng c) (startup c) (printed c ++ [b]).

(** The conversion [int(x)] of an [unsigned] [x]. *)
Definition int_of_unsigned (x : Z) : Z :=
  if x <? 2 ^ 31 then x else x - 2 ^ 32.

(** [values[i] + int(rng.rand<unsigned>() % variance) > threshold].
    [variance] is converted to [unsigned] for the remainder; a remainder
    by zero, an element that is not there and an overflow of the sum are
    undefined. *)
Definition draw (i : nat) : M BoolConditions bool :=
  c <- get;;
  match nth_error (values c) i with
  | None => fun _ => Undef
  | Some x =>
      let (r, g) := rand_unsigned (rng c) in
      modify (set_rng g);;
      let m := variance c mod 2 ^ 32 in
      if m =? 0 then fun _ => Undef
      else
        let y := x + int_of_unsigned (r mod m) in
        if (- 2 ^ 31 <=? y) && (y <? 2 ^ 31)
        then ret (threshold c <? y)
        else fun _ => Undef
  end.

(** [BoolConditions::set()] *)
Definition set : M BoolConditions unit :=
  c <- get;;
  for_each (seq 0 (List.length (binary c)))
    (fun i =>
       c <- get;;
       b <- (if negb (startup c) then draw i else ret false);;
       modify (set_binary i b));;
  modify (set_startup false);;
  c <- get;;
  for_each (seq 0 (List.length (binary c)))
    (fun i =>
       c <- get;;
       match nth_error (binary c) i with
       | Some b => modify (print_flag b)
       | None => fun _ => Undef
       end).

End Conditions.

Arguments mkBoolConditions {PRNG}.
Arguments binary {PRNG}.
Arguments values {PRNG}.
Arguments variance {PRNG}.
Arguments threshold {PRNG}.
Arguments rng {PRNG}.
Arguments startup {PRNG}.
Arguments printed {PRNG}.
Arguments rand_unsigned {PRNG}.
Arguments set_binary {PRNG}.
Arguments set_rng {PRNG}.
Arguments set_startup {PRNG}.
Arguments print_flag {PRNG}.
Arguments draw {PRNG}.
Arguments set {PRNG}.

(* ===================================================================== *)
(** ** Vocabulary of the statements *)
(* ===================================================================== *)

Import UCI.

(** Two keys the comparator of the map cannot tell apart. *)
Definition same_key (a b : string) : bool :=
  negb (CaseInsensitiveLess a b) && negb (CaseInsensitiveLess b a).

(** What the comparator sees of a name: its characters through [tolower]. *)
Definition folded (s : string) : list Z :=
  map (fun c => tolower (char_to_int c)) (list_ascii_of_string s).

(** A capital letter of ASCII, and the small letter that goes with it. *)
Definition capital (c : ascii) : Prop := (65 <= nat_of_ascii c <= 90)%nat.
Definition small_of (c : ascii) : ascii := ascii_of_nat (nat_of_ascii c + 32).

(** Two characters that are the same letter, in the same or the other
    case, and two names that differ at most in the case of letters. *)
Definition same_letter (a b : ascii) : Prop :=
  a = b \/ (capital a /\ b = small_of a) \/ (capital b /\ a = small_of b).

Inductive differ_in_case_only : string -> string -> Prop :=
| dico_nil : differ_in_case_only "" ""
| dico_cons a b s t :
    same_letter a b -> differ_in_case_only s t ->
    differ_in_case_only (String a s) (String b t).

(** The float [f] lies between the integers [lo] and [hi], ends included. *)
Definition within (f : Float32.t) (lo hi : Z) : Prop :=
  match f with
  | Float32.Fin x => (inject_Z lo <= x)%Q /\ (x <= inject_Z hi)%Q
  | _ => False
  end.

(** The text [v] parses, but to a float that compares below [min] or above
    [max] once these are converted to [float]. *)
Definition parses_outside (o : Option) (v : string) : Prop :=
  exists f, stof v = Parsed f
            /\ (Float32.ltb f (Float32.of_int (min o)) = true
                \/ Float32.gtb f (Float32.of_int (max o)) = true).

(** The inputs an assignment is said to reject: empty text for a kind other
    than button, text other than "true" and "false" for a check, and for a
    spin text that does not parse as a number or parses outside the
    bounds. *)
Definition invalid_input (o : Option) (v : string) : Prop :=
  (type o <> button /\ v = "")
  \/ (type o = check /\ v <> "true" /\ v <> "false")
  \/ (type o = spin /\ v <> "" /\ exists e, stof v = Fails e)
  \/ (type o = spin /\ v <> "" /\ parses_outside o v).


(** The values of an [int]. *)
Definition is_int (z : Z) : Prop := - 2 ^ 31 <= z < 2 ^ 31.

(** The entries stand in the order of the comparator, as in a map. *)
Definition sorted (om : OptionsMap) : Prop :=
  StronglySorted (fun a b => CaseInsensitiveLess (fst a) (fst b) = true) om.

(** No two names of the list are the same key. *)
Fixpoint distinct_keys (names : list string) : Prop :=
  match names with
  | [] => True
  | n :: names' =>
      Forall (fun m => same_key n m = false) names' /\ distinct_keys names'
  end.

(** The options of [l] with the indices [from], [from + 1], ... in this
    order. *)
Fixpoint numbered (l : list (string * Option)) (from : N)
    : list (string * Option) :=
  match l with
  | [] => []
  | (n, o) :: l' => (n, set_idx o from) :: numbered l' (from + 1)%N
  end.

(** The lines of the entries of [l], one after the other. *)
Definition print_each (l : list (string * Option)) : M string unit :=
  for_each l (fun e => print_option (fst e) (snd e)).

(** The value [make_option] goes on with: the recorded result for the
    name when there is one, else the value it was given. *)
Definition overridden (w : Tune.World) (n : string) (v : Z) : Z :=
  match Tune.TuneResults w n with Some x => x | None => v end.

(** The option [make_option] builds for the name [n], the value [v] and the
    range [r]. *)
Definition tuned (w : Tune.World) (n : string) (v : Z) (r : Tune.SetRange)
    : Option :=
  Option_spin (overridden w n v)
              (fst (r (overridden w n v))) (snd (r (overridden w n v)))
              (Some on_tune).

(** Is the range of [v] degenerate? *)
Definition degenerate (r : Tune.SetRange) (v : Z) : bool :=
  fst (r v) =? snd (r v).

(** The entry a half of a score leaves in the registry: none when its range
    is degenerate, else the option built for it, with the index [c]. *)
Definition half_entry (w : Tune.World) (n : string) (v : Z)
    (r : Tune.SetRange) (c : N) : option (string * Option) :=
  if degenerate r v then None else Some (n, set_idx (tuned w n v r) c).





(** A text that does not go on with a decimal digit. *)
Definition stuck (r : string) : Prop :=
  match r with
  | String c _ => Strtof.digit_char c = None
  | EmptyString => True
  end.

(** The names of the entries whose [read_option] is on record. *)
Fixpoint reads (es : list Tune.Event) : list string :=
  match es with
  | [] => []
  | Tune.Read n :: es' => n :: reads es'
  | _ :: es' => reads es'
  end.








(* ===================================================================== *)
(** ** Concrete inputs *)
(* ===================================================================== *)

(** The option [Threads] of a machine with four threads, three spin options
    and a check in an order that is not the alphabetic one, and the usual
    range of a tuned value: from 0 to twice the value. *)
Definition Threads : Option := Option_spin 4 1 512 (Some on_threads).

Definition Mode : Option :=
  Option_combo "Both var Off var White var Black var Both" "Both" None.

Definition three_options : list (string * Option) :=
  [ ("Threads", Threads);
    ("Hash", Option_spin 16 1 131072 (Some on_hash_size));
    ("Ponder", Option_check false None) ].

Definition twice (v : Z) : Z * Z := if 0 <? v then (0, 2 * v) else (2 * v, 0).

Definition Foo (mg eg : Z) (r : Tune.SetRange) : Tune.Entry :=
  Tune.mkEntry "Foo" (Tune.of_Score (Tune.make_score mg eg)) r.

(** Two tuned parameters [A] and [B], their options made in this order, and
    the flag [update_on_last] set. *)
Definition A_option : Option := set_idx (Option_spin 5 0 10 (Some on_tune)) 0.
Definition B_option : Option := set_idx (Option_spin 7 0 14 (Some on_tune)) 1.

Definition batch_world : Tune.World :=
  Tune.mkWorld [("A", A_option); ("B", B_option)] 2 true (Some "B")
    (fun _ => None)
    [Tune.mkEntry "A" (Tune.of_int 5) twice; Tune.mkEntry "B" (Tune.of_int 7) twice]
    [].

(** A generator to run [set()] with: a linear congruential one. *)
Definition lcg (g : Z) : Z * Z :=
  let g' := (6364136223846793005 * g + 1442695040888963407) mod 2 ^ 64 in
  (g', g').

Definition three_flags : BoolConditions Z :=
  mkBoolConditions [true; true; false] [465; 600; 500] 1 500 2024 true [].

(* ===================================================================== *)
(** ** Vocabulary of the further properties *)
(* ===================================================================== *)

(** What [operator=] leaves when it takes the text [v]: [currentValue] is
    [v], and the action, if there is one, was called once on the option
    as it is then. *)
Definition taken (o : Option) (v : string) : assignment :=
  mkAssignment (set_currentValue o v)
    (match on_change o with
     | Some g => [(g, set_currentValue o v)]
     | None => []
     end) Normal.

(** The option last inserted under a key of [n] by the insertions of [l],
    the counter starting at [from]; [held] when there was none. *)
Fixpoint last_inserted (l : list (string * Option)) (n : string) (from : N)
    (held : option Option) : option Option :=
  match l with
  | [] => held
  | (m, o) :: l' =>
      last_inserted l' n (from + 1)%N
        (if same_key m n then Some (set_idx o from) else held)
  end.

(** The value a half of a score has once its option was made and read
    again: its own when the range is degenerate and no option was made,
    else the value the option was made with. *)
Definition half_value (w : Tune.World) (n : string) (v : Z)
    (r : Tune.SetRange) : Z :=
  if degenerate r v then v else overridden w n v.




(** How many more ['('] than [')'] a text has: the loop of [next] goes on
    while this is not 0. *)
Definition balance (s : string) : Z :=
  Tune.count_char "(" s - Tune.count_char ")" s.

(** The text before the first comma of [names]; all of [names] when it
    has no comma. *)
Definition first_field (names : string) : string :=
  Tune.substr names (Tune.find_char "," names).

(** Every character of [s] passes the test [p]. *)
Fixpoint every (p : ascii -> bool) (s : string) : bool :=
  match s with
  | EmptyString => true
  | String a s' => p a && every p s'
  end.

(** Texts of blanks; characters that are neither blanks nor commas; and
    plain names, which are not empty and hold no blank, comma or
    parenthesis. *)
Definition blank (s : string) : Prop := every Strtof.isspace s = true.

Definition solid_char (c : ascii) : bool :=
  negb (Strtof.isspace c) && negb (Ascii.eqb c ",").

Definition plain_char (c : ascii) : bool :=
  solid_char c && negb (Ascii.eqb c "(") && negb (Ascii.eqb c ")").

Definition plain_name (s : string) : Prop :=
  s <> "" /\ every plain_char s = true.

(** The names of [l] as a list is written in a program: one after the
    other, with a comma and a blank between two. *)
Fixpoint joined (l : list string) : string :=
  match l with
  | [] => ""
  | n :: l' =>
      match l' with
      | [] => n
      | _ :: _ => n ++ ", " ++ joined l'
      end
  end.

(** [k] calls [next(names)] in a row, every one looking at [rounds] rounds
    of its loop at most: the names returned, and what is left of [names]. *)
Fixpoint pop_all (rounds k : nat) (names : string)
    : option (list string * string) :=
  match k with
  | O => Some ([], names)
  | S k' =>
      match Tune.next rounds names true with
      | Some (n, rest) =>
          match pop_all rounds k' rest with
          | Some (ns, rest') => Some (n :: ns, rest')
          | None => None
          end
      | None => None
      end
  end.

(** The texts of [l] one after the other, with nothing between them. *)
Fixpoint glued (l : list string) : string :=
  match l with
  | [] => ""
  | n :: l' => n ++ glued l'
  end.

(** A text that does not go on a decimal number: it is empty, or it
    begins with a character that is no digit, no point, no exponent mark and
    no [x]. *)
Definition trailing_char (c : ascii) : bool :=
  match Strtof.digit_char c with
  | Some _ => false
  | None =>
      negb (Ascii.eqb c ".") && negb (Ascii.eqb (Strtof.lower c) "e")
      && negb (Ascii.eqb "x" (Strtof.lower c))
  end.

Definition trailing (r : string) : Prop :=
  match r with
  | EmptyString => True
  | String c _ => trailing_char c = true
  end.

(** Every option of the registry has an index, below the counter [c], and
    no two options have the same. *)
Definition indexed_below (om : OptionsMap) (c : N) : Prop :=
  Forall (fun e => exists i, idx (snd e) = Some i /\ (i < c)%N) om
  /\ NoDup (map (fun e => idx (snd e)) om).

(** The option after the texts of [vs] were assigned to it one after the
    other, each assignment taken or not. *)
Definition assigned (o : Option) (vs : list string) : Option :=
  fold_left (fun o v => after (assign o v)) vs o.

(** Two options that agree on all the printer looks at - everything but
    [currentValue] and the action - and two entries of a registry with the
    same key and such options. *)
Definition same_listing (o o' : Option) : Prop :=
  defaultValue o = defaultValue o' /\ type o = type o'
  /\ min o = min o' /\ max o = max o' /\ idx o = idx o'.

Definition same_line (e e' : string * Option) : Prop :=
  fst e = fst e' /\ same_listing (snd e) (snd e').

(* ===================================================================== *)
(** ** Assignment: [Option::operator=] *)
(* ===================================================================== *)

Lemma eqb_empty (v : string) : String.eqb v "" = false <-> v <> "".
Proof. apply String.eqb_neq. Qed.

(** [operator=] on a spin option and a text that is not empty comes down
    to the test of the bounds. *)
Lemma assign_spin (o : Option) (v : string) :
  type o = spin -> v <> "" ->
  assign o v = match out_of_bounds o v with
               | inl e => mkAssignment o [] (Raised e)
               | inr true => mkAssignment o [] Normal
               | inr false => accept o v
               end.
Proof.
  intros Ht Hv. unfold assign. rewrite Ht. cbn.
  apply eqb_empty in Hv. rewrite Hv. reflexivity.
Qed.

Lemma out_of_bounds_parsed (o : Option) (v : string) (f : Float32.t) :
  stof v = Parsed f ->
  out_of_bounds o v
  = inr (Float32.ltb f (Float32.of_int (min o))
         || Float32.gtb f (Float32.of_int (max o))).
Proof.
  intros H. unfold out_of_bounds. rewrite H.
  destruct (Float32.ltb f (Float32.of_int (min o))); reflexivity.
Qed.

Lemma out_of_bounds_fails (o : Option) (v : string) (e : exn) :
  stof v = Fails e -> out_of_bounds o v = inl e.
Proof. intros H. unfold out_of_bounds. rewrite H. reflexivity. Qed.

(** What an accepted assignment leaves. *)
Lemma accept_spec (o : Option) (v : string) :
  accept o v
  = let o' := if is_type (type o) button then o else set_currentValue o v in
    mkAssignment o'
      (match on_change o with Some f => [(f, o')] | None => [] end) Normal.
Proof.
  unfold accept. destruct o as [d c t mn mx i [f|]]; destruct t; reflexivity.
Qed.

(** C10. [operator=] writes no field but [currentValue], whatever the option
    and the text, accepted or not; on a button it writes none at all; and the
    new [currentValue] is the old one or the text assigned. *)
Theorem assign_frame (o : Option) (v : string) :
  type (after (assign o v)) = type o
  /\ defaultValue (after (assign o v)) = defaultValue o
  /\ min (after (assign o v)) = min o
  /\ max (after (assign o v)) = max o
  /\ idx (after (assign o v)) = idx o
  /\ on_change (after (assign o v)) = on_change o
  /\ (currentValue (after (assign o v)) = currentValue o
      \/ currentValue (after (assign o v)) = v)
  /\ (type o = button -> after (assign o v) = o).
Proof.
  assert (A : after (accept o v) = o
              \/ (type o <> button /\ after (accept o v) = set_currentValue o v)).
  { rewrite accept_spec. destruct o as [d c t mn mx i f].
    destruct t; cbn; auto; right; split; auto; discriminate. }
  assert (B : after (assign o v) = o
              \/ (type o <> button /\ after (assign o v) = set_currentValue o v)).
  { unfold assign.
    repeat match goal with
           | |- context [if ?b then _ else _] => destruct b
           | |- context [match ?x with inl _ => _ | inr _ => _ end] => destruct x
           end; cbn [after]; auto. }
  destruct B as [B | [Hb B]]; rewrite B.
  - repeat split; auto.
  - destruct o; cbn in *. repeat split; auto. intros E. contradiction.
Qed.

(** *** Reading back the text of an integer *)

Lemma scan_uint_digits (d : uint) (r : string) :
  stuck r -> Strtof.scan_uint (NilEmpty.string_of_uint d ++ r) = (d, r).
Proof.
  intros Hr. induction d; cbn; try (rewrite IHd; reflexivity).
  destruct r as [|c r]; [reflexivity|]. cbn in Hr. cbn. rewrite Hr. reflexivity.
Qed.

Lemma round_Qeq (x y : Q) : (x == y)%Q -> Float32.round x = Float32.round y.
Proof.
  intros H. unfold Float32.round. rewrite (Qred_complete _ _ H). reflexivity.
Qed.

Lemma Qred_inject_Z (z : Z) : Qred (inject_Z z) = inject_Z z.
Proof.
  unfold Qred, inject_Z.
  pose proof (Z.ggcd_gcd z 1) as G.
  pose proof (Z.ggcd_correct_divisors z 1) as D.
  destruct (Z.ggcd z 1) as [g [aa bb]]. cbn in G, D.
  rewrite Z.gcd_1_r in G. subst g. destruct D as [D1 D2]. cbn [snd].
  assert (E1 : aa = z) by lia. assert (E2 : bb = 1) by lia.
  clear D1 D2. subst aa bb. reflexivity.
Qed.

(** A number that is an integer does not underflow. *)
Lemma integer_no_underflow (x : Q) (z : Z) (f : Float32.t) :
  (x == inject_Z z)%Q -> Strtof.underflows x f = false.
Proof.
  intros H. unfold Strtof.underflows. destruct f as [| |y]; try reflexivity.
  rewrite (Qred_complete _ _ H), Qred_inject_Z. cbn [inject_Z Qnum Qden].
  destruct (Z.eqb_spec z 0) as [E | E]; [reflexivity |].
  assert (Le : -126 <= Float32.ilog2 (Z.abs z) 1).
  { unfold Float32.ilog2. change (Z.log2 1) with 0. rewrite Z.sub_0_r.
    pose proof (Z.log2_nonneg (Z.abs z)) as L.
    match goal with
    | |- _ <= (if ?b then _ else _) => destruct b; lia
    end. }
  apply Z.leb_le in Le. unfold Strtof.underflow_pos. cbv zeta.
  rewrite Le. reflexivity.
Qed.

Lemma magnitude_digits (d : uint) (r : string) :
  d <> Nil -> r = "" \/ r = ".000000" ->
  exists q, Strtof.magnitude (NilEmpty.string_of_uint d ++ r) = Some (inr q)
            /\ (q == inject_Z (Z.of_uint d))%Q.
Proof.
  intros Hd Hr.
  assert (Hs : stuck r) by (destruct Hr; subst; cbn; auto).
  assert (Hdec : exists q,
             Strtof.decimal (NilEmpty.string_of_uint d ++ r) = Some q
             /\ (q == inject_Z (Z.of_uint d))%Q).
  { unfold Strtof.decimal. rewrite scan_uint_digits by assumption.
    destruct Hr; subst r.
    - destruct d; try congruence; cbn -[Z.of_uint Z.pow Z.mul inject_Z];
        eexists; (split; [reflexivity|]);
        rewrite Z.add_0_r, Z.pow_0_r, !Z.mul_1_r; reflexivity.
    - destruct d; try congruence; cbn -[Z.of_uint Z.pow Z.mul inject_Z];
        eexists; (split; [reflexivity|]);
        unfold Qeq; cbn -[Z.of_uint];
        replace (Z.of_uint (D0 (D0 (D0 (D0 (D0 zero)))))) with 0 by reflexivity;
        lia. }
  destruct Hdec as [q [Hq Hv]]. exists q. split; auto.
  unfold Strtof.magnitude. rewrite Hq.
  destruct d; try congruence; cbn; try reflexivity.
  destruct d; destruct Hr; subst r; reflexivity.
Qed.

Lemma stof_unsigned (d : uint) (r : string) :
  d <> Nil -> r = "" \/ r = ".000000" ->
  Float32.exact (Z.of_uint d) ->
  stof (NilEmpty.string_of_uint d ++ r)
  = Parsed (Float32.Fin (inject_Z (Z.of_uint d))).
Proof.
  intros Hd Hr Hx.
  destruct (magnitude_digits d r Hd Hr) as [q [Hm Hq]].
  unfold stof, Strtof.stof.
  replace (Strtof.skip_space (NilEmpty.string_of_uint d ++ r))
    with (NilEmpty.string_of_uint d ++ r)%string
    by (destruct d; try congruence; reflexivity).
  replace (Strtof.sign (NilEmpty.string_of_uint d ++ r))
    with (false, (NilEmpty.string_of_uint d ++ r)%string)
    by (destruct d; try congruence; reflexivity).
  rewrite Hm, (round_Qeq _ _ Hq).
  fold (Float32.of_int (Z.of_uint d)). rewrite Hx.
  rewrite (integer_no_underflow q (Z.of_uint d) _ Hq). reflexivity.
Qed.

Lemma stof_negative (d : uint) (r : string) :
  d <> Nil -> r = "" \/ r = ".000000" ->
  Float32.exact (- Z.of_uint d) ->
  stof (String "-" (NilEmpty.string_of_uint d ++ r))
  = Parsed (Float32.Fin (inject_Z (- Z.of_uint d))).
Proof.
  intros Hd Hr Hx.
  destruct (magnitude_digits d r Hd Hr) as [q [Hm Hq]].
  unfold stof, Strtof.stof.
  change (Strtof.skip_space (String "-" (NilEmpty.string_of_uint d ++ r)))
    with (String "-" (NilEmpty.string_of_uint d ++ r)).
  change (Strtof.sign (String "-" (NilEmpty.string_of_uint d ++ r)))
    with (true, (NilEmpty.string_of_uint d ++ r)%string).
  cbv iota. rewrite Hm.
  assert (Hq' : (- q == inject_Z (- Z.of_uint d))%Q).
  { rewrite Hq. unfold Qeq; cbn; lia. }
  rewrite (round_Qeq _ _ Hq').
  fold (Float32.of_int (- Z.of_uint d)). rewrite Hx.
  rewrite (integer_no_underflow (- q) (- Z.of_uint d) _ Hq'). reflexivity.
Qed.

Lemma string_of_uint_nonnil (d : uint) :
  d <> Nil -> NilZero.string_of_uint d = NilEmpty.string_of_uint d.
Proof. destruct d; intros H; congruence || reflexivity. Qed.

Lemma of_uint_to_uint (p : positive) : Z.of_uint (Pos.to_uint p) = Z.pos p.
Proof. unfold Z.of_uint. rewrite Unsigned.of_to. reflexivity. Qed.

(** [stof] reads the text [os << z] writes, and the text of
    [to_string(double(z))], back to [z] when [z] is a float. *)
Lemma stof_int_text (z : Z) (r : string) :
  r = "" \/ r = ".000000" -> Float32.exact z ->
  stof (show_int z ++ r) = Parsed (Float32.Fin (inject_Z z)).
Proof.
  intros Hr Hx. unfold show_int.
  destruct z as [|p|p]; cbn [Z.to_int NilZero.string_of_int].
  - apply (stof_unsigned (D0 Nil) r); auto. discriminate.
  - rewrite string_of_uint_nonnil by apply Unsigned.to_uint_nonnil.
    rewrite <- (of_uint_to_uint p) in Hx |- *.
    apply stof_unsigned; auto. apply Unsigned.to_uint_nonnil.
  - rewrite string_of_uint_nonnil by apply Unsigned.to_uint_nonnil.
    cbn [String.append].
    change (Z.neg p) with (- Z.pos p) in Hx |- *.
    rewrite <- (of_uint_to_uint p) in Hx |- *.
    apply stof_negative; auto. apply Unsigned.to_uint_nonnil.
Qed.

Lemma append_empty (s : string) : (s ++ "")%string = s.
Proof. induction s; cbn; congruence. Qed.

Lemma stof_show_int (z : Z) :
  Float32.exact z -> stof (show_int z) = Parsed (Float32.Fin (inject_Z z)).
Proof.
  intros H. rewrite <- (append_empty (show_int z)). apply stof_int_text; auto.
Qed.

Lemma stof_to_string (z : Z) :
  Float32.exact z -> stof (to_string z) = Parsed (Float32.Fin (inject_Z z)).
Proof. intros H. apply stof_int_text; auto. Qed.

Lemma show_int_not_empty (z : Z) : show_int z <> "".
Proof.
  unfold show_int. destruct z as [|p|p]; cbn; try discriminate.
  rewrite string_of_uint_nonnil by apply Unsigned.to_uint_nonnil.
  pose proof (Unsigned.to_uint_nonnil p).
  destruct (Pos.to_uint p); try congruence; discriminate.
Qed.

(** *** Integers that are floats *)

Lemma Qred_scaled (z k : Z) : 0 < k -> Qred (z * k # Z.to_pos k) = inject_Z z.
Proof.
  intros Hk. rewrite <- Qred_inject_Z. apply Qred_complete.
  unfold Qeq, inject_Z. cbn. rewrite Z2Pos.id by assumption. lia.
Qed.

(** An integer of fewer than 25 bits needs no rounding: it is moved up to
    24 bits. *)
Lemma round_pos_small (a : Z) :
  0 < a < 2 ^ 24 ->
  exists k, 0 <= k <= 23 /\ Float32.round_pos a 1 = (a * 2 ^ k, - k).
Proof.
  intros Ha. unfold Float32.round_pos, Float32.ilog2.
  change (Z.log2 1) with 0. rewrite Z.sub_0_r.
  pose proof (Z.log2_nonneg a) as L0.
  pose proof (Z.log2_spec a (proj1 Ha)) as [L1 L2].
  assert (L3 : Z.log2 a < 24) by (apply Z.log2_lt_pow2; lia).
  destruct (Z.leb_spec 0 (Z.log2 a)); [| lia].
  rewrite Z.mul_1_l.
  destruct (Z.leb_spec (2 ^ Z.log2 a) a); [| lia].
  rewrite Z.max_l by lia.
  exists (23 - Z.log2 a). split; [lia |].
  destruct (Z.ltb_spec (Z.log2 a - 23) 0).
  - rewrite Z.div_1_r, Z.mod_1_r. cbn [Z.mul Z.ltb Z.compare].
    replace (- (Z.log2 a - 23)) with (23 - Z.log2 a) by lia.
    f_equal. lia.
  - assert (E : Z.log2 a = 23) by lia. rewrite E. cbn -[Z.div Z.modulo Z.mul].
    rewrite Z.div_1_r, Z.mod_1_r. cbn. f_equal. lia.
Qed.

(** Every integer from -2^24 to 2^24 is a float. *)
Lemma exact_small (z : Z) : - 2 ^ 24 <= z <= 2 ^ 24 -> Float32.exact z.
Proof.
  intros Hz.
  destruct (Z.eq_dec z (2 ^ 24)) as [-> | H1]; [vm_compute; reflexivity |].
  destruct (Z.eq_dec z (- 2 ^ 24)) as [-> | H2]; [vm_compute; reflexivity |].
  unfold Float32.exact, Float32.of_int, Float32.round.
  rewrite Qred_inject_Z. cbn [inject_Z Qnum Qden].
  destruct (Z.eqb_spec z 0) as [-> | Hn]; [reflexivity |].
  destruct (round_pos_small (Z.abs z)) as [k [Hk R]]; [lia |].
  rewrite R. cbn [fst snd Float32.overflows].
  assert (P : 0 < 2 ^ k <= 2 ^ 23).
  { split; [apply Z.pow_pos_nonneg; lia | apply Z.pow_le_mono_r; lia]. }
  destruct (Z.leb_spec (2 ^ 128) (Z.abs z * 2 ^ k * 2 ^ Z.max (- k) 0)) as [H | H].
  - exfalso. rewrite Z.max_r in H by lia. rewrite Z.pow_0_r, Z.mul_1_r in H.
    assert (Z.abs z * 2 ^ k < 2 ^ 24 * 2 ^ 23) by nia.
    change (2 ^ 24 * 2 ^ 23) with (2 ^ 47) in *.
    assert (2 ^ 47 < 2 ^ 128) by (apply Z.pow_lt_mono_r; lia). lia.
  - f_equal. unfold Float32.scale2.
    replace (Z.sgn z * (Z.abs z * 2 ^ k)) with (z * 2 ^ k)
      by (rewrite Z.mul_assoc, (Z.mul_comm (Z.sgn z)), Z.abs_sgn; reflexivity).
    destruct (Z.leb_spec 0 (- k)).
    + assert (k = 0) by lia. subst k. cbn. do 2 rewrite Z.mul_1_r. reflexivity.
    + rewrite Z.opp_involutive. apply Qred_scaled. lia.
Qed.

(** *** The bounds test in exact arithmetic *)

(** Against bounds that are floats themselves, the test of [operator=]
    says that the number is not within them. *)
Lemma bounds_test_within (f : Float32.t) (lo hi : Z) :
  f <> Float32.NaN ->
  Float32.ltb f (Float32.Fin (inject_Z lo))
  || Float32.gtb f (Float32.Fin (inject_Z hi)) = false
  <-> within f lo hi.
Proof.
  intros Hn. destruct f as [|[|]|x]; cbn; try tauto; try (split; [discriminate | tauto]).
  rewrite orb_false_iff, !negb_false_iff, !Qle_bool_iff. tauto.
Qed.

(** What [operator=] does on the inputs said to be invalid.  It leaves the
    option as it was and calls no 'on change' action.  Three of the four
    kinds of input make it return: empty text (no button), a check's text
    other than "true" and "false", and a spin's text that parses to a float
    below [float(min)] or above [float(max)].  The fourth does not: on a
    spin's text that [std::stof] cannot convert, the exception of
    [std::stof] leaves the operator, which has no handler for it. *)
Lemma assign_invalid_input (o : Option) (v : string) :
  invalid_input o v ->
  after (assign o v) = o
  /\ fired (assign o v) = []
  /\ (forall e, type o = spin -> v <> "" -> stof v = Fails e ->
      completed (assign o v) = Raised e)
  /\ (~ (type o = spin /\ v <> "" /\ exists e, stof v = Fails e) ->
      completed (assign o v) = Normal).
Proof.
  intros [[Ht Hv] | [[Ht [H1 H2]] | [[Ht [Hv [e He]]] | [Ht [Hv [f [Hf Hout]]]]]]].
  - subst v. unfold assign.
    replace (negb (is_type (type o) button)) with true
      by (destruct (type o); try reflexivity; congruence).
    cbn. repeat split; auto. intros e _ C. congruence.
  - unfold assign. rewrite Ht. cbn.
    apply String.eqb_neq in H1, H2. rewrite H1, H2. cbn.
    destruct (String.eqb v ""); cbn; repeat split; auto; intros e C; discriminate.
  - rewrite (assign_spin o v Ht Hv), (out_of_bounds_fails o v e He). cbn.
    repeat split; auto.
    + intros e' _ _ He'. congruence.
    + intros C. exfalso. apply C. eauto.
  - rewrite (assign_spin o v Ht Hv), (out_of_bounds_parsed o v f Hf).
    replace (Float32.ltb f (Float32.of_int (min o))
             || Float32.gtb f (Float32.of_int (max o))) with true
      by (symmetry; apply orb_true_iff; assumption).
    cbn. repeat split; auto. intros e _ _ C. congruence.
Qed.

(** Where the test of the bounds is right: [min] and [max] are converted to
    [float] for the comparison, and when the conversion loses nothing - the
    bounds are floats themselves - the test is the one on the numbers.  A
    text that is not empty and parses as a number is then accepted if and
    only if the number is within [min] and [max], ends included:
    [currentValue] becomes the text and the 'on change' action, when there
    is one, is called exactly once, with the updated option; otherwise
    nothing changes and nothing is called.  The texts of [min] and [max]
    themselves are accepted. *)
Lemma spin_assign_within_bounds (o : Option) (v : string) (f : Float32.t) :
  type o = spin -> v <> "" -> stof v = Parsed f -> f <> Float32.NaN ->
  Float32.exact (min o) -> Float32.exact (max o) ->
  (within f (min o) (max o) ->
   assign o v
   = mkAssignment (set_currentValue o v)
       (match on_change o with
        | Some g => [(g, set_currentValue o v)]
        | None => []
        end) Normal)
  /\ (~ within f (min o) (max o) -> assign o v = mkAssignment o [] Normal)
  /\ (min o <= max o ->
      after (assign o (show_int (min o))) = set_currentValue o (show_int (min o))
      /\ after (assign o (show_int (max o))) = set_currentValue o (show_int (max o))).
Proof.
  intros Ht Hv Hf Hn Hlo Hhi.
  assert (G : forall w g, w <> "" -> stof w = Parsed g -> g <> Float32.NaN ->
              (within g (min o) (max o) -> assign o w = accept o w)
              /\ (~ within g (min o) (max o) -> assign o w = mkAssignment o [] Normal)).
  { intros w g Hw Hg Hgn.
    rewrite (assign_spin o w Ht Hw), (out_of_bounds_parsed o w g Hg).
    unfold Float32.exact in Hlo, Hhi. rewrite Hlo, Hhi.
    pose proof (bounds_test_within g (min o) (max o) Hgn) as B.
    destruct (Float32.ltb g (Float32.Fin (inject_Z (min o)))
              || Float32.gtb g (Float32.Fin (inject_Z (max o)))).
    - split; [intros W; apply B in W; discriminate | reflexivity].
    - split; [reflexivity | intros W; exfalso; apply W, B; reflexivity]. }
  assert (A : forall w, accept o w
              = mkAssignment (set_currentValue o w)
                  (match on_change o with
                   | Some g => [(g, set_currentValue o w)]
                   | None => []
                   end) Normal).
  { intros w. rewrite accept_spec, Ht. reflexivity. }
  split; [| split].
  - intros W. rewrite <- A. apply (G v f); assumption.
  - apply (G v f); assumption.
  - intros Hle. split.
    + destruct (G (show_int (min o)) (Float32.Fin (inject_Z (min o)))) as [G1 _].
      * apply show_int_not_empty.
      * apply stof_show_int; assumption.
      * discriminate.
      * rewrite G1, A; [reflexivity |]. cbn. split.
        -- apply Qle_refl.
        -- rewrite <- Zle_Qle. assumption.
    + destruct (G (show_int (max o)) (Float32.Fin (inject_Z (max o)))) as [G1 _].
      * apply show_int_not_empty.
      * apply stof_show_int; assumption.
      * discriminate.
      * rewrite G1, A; [reflexivity |]. cbn. split.
        -- rewrite <- Zle_Qle. assumption.
        -- apply Qle_refl.
Qed.

(* ===================================================================== *)
(** ** The comparator and the map *)
(* ===================================================================== *)

(** *** [CaseInsensitiveLess] is a strict order on folded names *)

Lemma lexicographical_compare_map {A} (f : A -> Z) (l1 l2 : list A) :
  lexicographical_compare (fun a b => f a <? f b) l1 l2
  = lexicographical_compare Z.ltb (map f l1) (map f l2).
Proof.
  revert l2. induction l1 as [|a l1 IH]; intros [|b l2]; cbn; auto.
  rewrite IH. reflexivity.
Qed.

Lemma less_folded (s1 s2 : string) :
  CaseInsensitiveLess s1 s2
  = lexicographical_compare Z.ltb (folded s1) (folded s2).
Proof. apply lexicographical_compare_map. Qed.

Lemma lex_irrefl (l : list Z) : lexicographical_compare Z.ltb l l = false.
Proof.
  induction l as [|a l IH]; cbn; auto. rewrite Z.ltb_irrefl. assumption.
Qed.

Lemma lex_trans (a b c : list Z) :
  lexicographical_compare Z.ltb a b = true ->
  lexicographical_compare Z.ltb b c = true ->
  lexicographical_compare Z.ltb a c = true.
Proof.
  revert b c. induction a as [|x a IH]; intros [|y b] [|z c]; cbn; auto;
    try discriminate.
  destruct (Z.ltb_spec x y), (Z.ltb_spec y x), (Z.ltb_spec y z),
    (Z.ltb_spec z y), (Z.ltb_spec x z), (Z.ltb_spec z x);
    try lia; try discriminate; auto.
  apply IH.
Qed.

Lemma lex_total (a b : list Z) :
  lexicographical_compare Z.ltb a b = false ->
  lexicographical_compare Z.ltb b a = false -> a = b.
Proof.
  revert b. induction a as [|x a IH]; intros [|y b]; cbn; auto;
    try discriminate.
  destruct (Z.ltb_spec x y), (Z.ltb_spec y x); try lia; try discriminate.
  intros H1 H2. assert (x = y) by lia. subst. f_equal. auto.
Qed.

Lemma less_irrefl (s : string) : CaseInsensitiveLess s s = false.
Proof. rewrite less_folded. apply lex_irrefl. Qed.

Lemma less_trans (a b c : string) :
  CaseInsensitiveLess a b = true -> CaseInsensitiveLess b c = true ->
  CaseInsensitiveLess a c = true.
Proof. rewrite !less_folded. apply lex_trans. Qed.

(** Two names are the same key exactly when they fold to the same text. *)
Lemma same_key_folded (a b : string) :
  same_key a b = true <-> folded a = folded b.
Proof.
  unfold same_key. rewrite andb_true_iff, !negb_true_iff, !less_folded. split.
  - intros [H1 H2]. apply lex_total; assumption.
  - intros E. rewrite E, lex_irrefl. auto.
Qed.

Lemma same_key_refl (a : string) : same_key a a = true.
Proof. apply same_key_folded. reflexivity. Qed.

Lemma same_key_sym (a b : string) : same_key a b = same_key b a.
Proof. unfold same_key. apply andb_comm. Qed.

Lemma same_key_less_l (a b c : string) :
  same_key a b = true -> CaseInsensitiveLess a c = CaseInsensitiveLess b c.
Proof. intros H. apply same_key_folded in H. rewrite !less_folded, H. reflexivity. Qed.

Lemma same_key_less_r (a b c : string) :
  same_key a b = true -> CaseInsensitiveLess c a = CaseInsensitiveLess c b.
Proof. intros H. apply same_key_folded in H. rewrite !less_folded, H. reflexivity. Qed.

Lemma same_key_trans (a b c : string) :
  same_key a b = true -> same_key b c = true -> same_key a c = true.
Proof. rewrite !same_key_folded. congruence. Qed.

Lemma less_not_same_key (a b : string) :
  CaseInsensitiveLess a b = true -> same_key a b = false.
Proof. intros H. unfold same_key. rewrite H. reflexivity. Qed.

(** *** Names that differ in the case of letters *)

Lemma tolower_small_of (c : ascii) :
  capital c -> tolower (char_to_int (small_of c)) = tolower (char_to_int c).
Proof.
  unfold capital, small_of, tolower, char_to_int. intros H.
  rewrite nat_ascii_embedding by lia.
  repeat match goal with
         | |- context [?a <? ?b] => destruct (Z.ltb_spec a b)
         | |- context [?a <=? ?b] => destruct (Z.leb_spec a b)
         end; cbn; lia.
Qed.

Lemma same_letter_tolower (a b : ascii) :
  same_letter a b -> tolower (char_to_int a) = tolower (char_to_int b).
Proof.
  intros [E | [[H E] | [H E]]]; subst; auto using tolower_small_of.
  symmetry. auto using tolower_small_of.
Qed.

Lemma differ_in_case_only_folded (s t : string) :
  differ_in_case_only s t -> folded s = folded t.
Proof.
  induction 1 as [|a b s t Hab _ IH]; [reflexivity|].
  unfold folded in *. cbn. rewrite IH, (same_letter_tolower a b Hab). reflexivity.
Qed.

Lemma differ_in_case_only_same_key (s t : string) :
  differ_in_case_only s t -> same_key s t = true.
Proof. intros H. apply same_key_folded, differ_in_case_only_folded, H. Qed.

(** *** [find], [operator[]] and writes through it *)

#[local] Arguments CaseInsensitiveLess : simpl never.

Lemma find_same_key (om : OptionsMap) (n m : string) :
  same_key n m = true -> find om n = find om m.
Proof.
  intros H. induction om as [|[k o] om IH]; cbn; auto.
  rewrite (same_key_less_r n m k H), (same_key_less_l n m k H), IH.
  reflexivity.
Qed.


Lemma find_subscript (om : OptionsMap) (n : string) :
  find (subscript om n) n
  = Some (match find om n with
          | Some e => e
          | None => (n, Option_button None)
          end).
Proof.
  induction om as [|[k o] om IH]; cbn.
  - rewrite less_irrefl. reflexivity.
  - destruct (CaseInsensitiveLess k n) eqn:E1; cbn.
    + rewrite E1. assumption.
    + destruct (CaseInsensitiveLess n k) eqn:E2; cbn.
      * rewrite less_irrefl. reflexivity.
      * rewrite E1, E2. reflexivity.
Qed.

Lemma subscript_present (om : OptionsMap) (n : string) :
  find om n <> None -> subscript om n = om.
Proof.
  induction om as [|[k o] om IH]; cbn; [congruence|].
  destruct (CaseInsensitiveLess k n) eqn:E1.
  - intros H. rewrite IH; auto.
  - destruct (CaseInsensitiveLess n k) eqn:E2; congruence.
Qed.

Lemma find_update (om : OptionsMap) (n : string) (f : Option -> Option) :
  find (update om n f) n
  = option_map (fun e => (fst e, f (snd e))) (find om n).
Proof.
  induction om as [|[k o] om IH]; cbn; auto.
  destruct (CaseInsensitiveLess k n) eqn:E1; cbn.
  - rewrite E1. assumption.
  - destruct (CaseInsensitiveLess n k) eqn:E2; cbn; rewrite E1, E2; reflexivity.
Qed.

Lemma find_update_other (om : OptionsMap) (n m : string) (f : Option -> Option) :
  same_key n m = false -> find (update om n f) m = find om m.
Proof.
  intros H. induction om as [|[k o] om IH]; cbn; auto.
  destruct (CaseInsensitiveLess k n) eqn:E1; cbn.
  - rewrite IH. reflexivity.
  - destruct (CaseInsensitiveLess n k) eqn:E2; cbn; auto.
    destruct (CaseInsensitiveLess k m) eqn:E3; auto.
    destruct (CaseInsensitiveLess m k) eqn:E4; auto.
    exfalso.
    assert (A : same_key n k = true) by (unfold same_key; rewrite E1, E2; reflexivity).
    assert (B : same_key k m = true) by (unfold same_key; rewrite E3, E4; reflexivity).
    rewrite (same_key_trans _ _ _ A B) in H. discriminate.
Qed.

Lemma map_fst_update (om : OptionsMap) (n : string) (f : Option -> Option) :
  map fst (update om n f) = map fst om.
Proof.
  induction om as [|[k o] om IH]; cbn; auto.
  destruct (CaseInsensitiveLess k n); cbn; [congruence|].
  destruct (CaseInsensitiveLess n k); reflexivity.
Qed.

Lemma length_update (om : OptionsMap) (n : string) (f : Option -> Option) :
  List.length (update om n f) = List.length om.
Proof. rewrite <- (length_map fst), map_fst_update, length_map. reflexivity. Qed.

(** A write through [operator[]] changes one entry in its place, or puts
    one entry in; the entries around it are left as they were. *)
Lemma insert_shape (om : OptionsMap) (n : string) (f : Option -> Option) :
  (find om n = None
   /\ exists l1 l2, om = l1 ++ l2
        /\ update (subscript om n) n f = l1 ++ (n, f (Option_button None)) :: l2)
  \/ (exists k o l1 l2, find om n = Some (k, o)
        /\ om = l1 ++ (k, o) :: l2
        /\ update (subscript om n) n f = l1 ++ (k, f o) :: l2).
Proof.
  induction om as [|[k o] om IH]; cbn.
  - left. split; auto. exists [], []. rewrite !less_irrefl. auto.
  - destruct (CaseInsensitiveLess k n) eqn:E1; cbn.
    + rewrite E1.
      destruct IH as [[Hn [l1 [l2 [H1 H2]]]] | [k' [o' [l1 [l2 [Hf [H1 H2]]]]]]].
      * left. split; auto. exists ((k, o) :: l1), l2. cbn. split; congruence.
      * right. exists k', o', ((k, o) :: l1), l2. cbn. repeat split; congruence.
    + destruct (CaseInsensitiveLess n k) eqn:E2; cbn.
      * left. split; auto. exists [], ((k, o) :: om).
        rewrite !less_irrefl. auto.
      * right. exists k, o, [], om. rewrite E1, E2. auto.
Qed.

Lemma find_insert (om : OptionsMap) (c : N) (n : string) (o : Option) :
  find (fst (insert om c n o)) n
  = Some (match find om n with Some e => fst e | None => n end, set_idx o c).
Proof.
  unfold insert. cbn [fst]. rewrite find_update, find_subscript.
  destruct (find om n); reflexivity.
Qed.

(** *** Sorted maps *)

Lemma find_sorted_In (om : OptionsMap) (k : string) (o : Option) :
  sorted om -> In (k, o) om -> find om k = Some (k, o).
Proof.
  induction 1 as [|[k' o'] om Hs IH Hall]; cbn; [tauto|].
  intros [E | Hin].
  - inversion E; subst. rewrite less_irrefl. reflexivity.
  - rewrite Forall_forall in Hall. pose proof (Hall _ Hin) as L. cbn [fst] in L.
    rewrite L. auto.
Qed.

Lemma insert_fresh (om : OptionsMap) (n : string) (f : Option -> Option) :
  sorted om -> Forall (fun e => same_key (fst e) n = false) om ->
  sorted (update (subscript om n) n f)
  /\ Permutation ((n, f (Option_button None)) :: om)
                 (update (subscript om n) n f).
Proof.
  induction 1 as [|[k o] om Hs IH Hall]; intros Hf; cbn.
  - rewrite !less_irrefl. split; [repeat constructor | apply Permutation_refl].
  - inversion Hf as [|? ? Hk Hf']; subst. cbn in Hk.
    destruct (CaseInsensitiveLess k n) eqn:E1; cbn.
    + rewrite E1. destruct (IH Hf') as [S P]. split.
      * constructor; auto.
        apply (Permutation_Forall P). constructor; auto.
      * rewrite perm_swap. constructor. assumption.
    + assert (E2 : CaseInsensitiveLess n k = true).
      { unfold same_key in Hk. rewrite E1 in Hk.
        destruct (CaseInsensitiveLess n k); [reflexivity | discriminate]. }
      rewrite E2. cbn. rewrite !less_irrefl. split; [| apply Permutation_refl].
      constructor; [constructor; assumption |].
      constructor; auto.
      eapply Forall_impl; [| exact Hall]. cbn. intros e He.
      eapply less_trans; eassumption.
Qed.

(** C5. Names that differ only in the case of letters are one key of the
    registry: [find] and [count] give the same for both; once an option is
    inserted under one of them, [operator[]] with the other adds no entry and
    leads to that option; and an insertion under the other writes the same
    entry, the keys of the registry (the first name included, as it was
    written first) staying as they are. *)
Theorem case_insensitive_names (om : OptionsMap) (n1 n2 : string) :
  differ_in_case_only n1 n2 ->
  find om n1 = find om n2
  /\ count om n1 = count om n2
  /\ forall c o,
       subscript (fst (insert om c n1 o)) n2 = fst (insert om c n1 o)
       /\ exists k,
            find (fst (insert om c n1 o)) n2 = Some (k, set_idx o c)
            /\ forall c' o',
                 map fst (fst (insert (fst (insert om c n1 o)) c' n2 o'))
                 = map fst (fst (insert om c n1 o))
                 /\ find (fst (insert (fst (insert om c n1 o)) c' n2 o')) n1
                    = Some (k, set_idx o' c').
Proof.
  intros H. apply differ_in_case_only_same_key in H.
  assert (F : forall m, find m n1 = find m n2)
    by (intros m; apply find_same_key; assumption).
  split; [apply F | split; [unfold count; rewrite F; reflexivity |]].
  intros c o. unfold insert. cbn [fst].
  set (om1 := update (subscript om n1) n1 (fun _ => set_idx o c)).
  assert (F1 : find om1 n2
               = Some (fst (match find om n1 with
                            | Some e => e
                            | None => (n1, Option_button None)
                            end), set_idx o c)).
  { rewrite <- F. unfold om1. rewrite find_update, find_subscript. reflexivity. }
  assert (S1 : subscript om1 n2 = om1)
    by (apply subscript_present; rewrite F1; discriminate).
  split; [exact S1 | eexists; split; [exact F1 |]].
  intros c' o'. rewrite S1. split.
  - apply map_fst_update.
  - rewrite F, find_update, F1. reflexivity.
Qed.

(* ===================================================================== *)
(** ** Insertion order and the printer *)
(* ===================================================================== *)

Lemma numbered_app (l1 l2 : list (string * Option)) (from : N) :
  numbered (l1 ++ l2) from
  = numbered l1 from ++ numbered l2 (from + N.of_nat (List.length l1))%N.
Proof.
  revert from. induction l1 as [|[n o] l1 IH]; intros from.
  - cbn. rewrite N.add_0_r. reflexivity.
  - cbn [numbered List.app List.length]. rewrite IH.
    replace (from + N.of_nat (S (List.length l1)))%N
      with (from + 1 + N.of_nat (List.length l1))%N by lia.
    reflexivity.
Qed.

Lemma map_fst_numbered (l : list (string * Option)) (from : N) :
  map fst (numbered l from) = map fst l.
Proof.
  revert from. induction l as [|[n o] l IH]; intros from; cbn; [|rewrite IH]; reflexivity.
Qed.

Lemma length_numbered (l : list (string * Option)) (from : N) :
  List.length (numbered l from) = List.length l.
Proof. rewrite <- (length_map fst), map_fst_numbered, length_map. reflexivity. Qed.

Lemma nth_error_numbered (l : list (string * Option)) (from : N) (i : nat) :
  nth_error (numbered l from) i
  = option_map (fun e => (fst e, set_idx (snd e) (from + N.of_nat i)))
               (nth_error l i).
Proof.
  revert from i. induction l as [|[n o] l IH]; intros from [|i]; cbn [numbered nth_error option_map fst snd]; auto.
  - rewrite N.add_0_r. reflexivity.
  - rewrite IH. destruct (nth_error l i); cbn; auto.
    replace (from + 1 + N.of_nat i)%N with (from + N.pos (Pos.of_succ_nat i))%N by lia.
    reflexivity.
Qed.

(** In a numbered list the index tells the place. *)
Lemma numbered_idx_place (l : list (string * Option)) (e : string * Option) (i : nat) :
  In e (numbered l 0) -> idx (snd e) = Some (N.of_nat i) ->
  nth_error (numbered l 0) i = Some e.
Proof.
  intros Hin Hi. apply In_nth_error in Hin. destruct Hin as [j Hj].
  pose proof Hj as Hj'. rewrite nth_error_numbered in Hj'.
  destruct (nth_error l j) as [[n o]|]; [|discriminate].
  cbn in Hj'. inversion Hj'; subst. cbn in Hi. inversion Hi.
  assert (j = i) by lia. subst. assumption.
Qed.

Lemma find_unique {A} (p : A -> bool) (l : list A) (x : A) :
  In x l -> p x = true -> (forall y, In y l -> p y = true -> y = x) ->
  List.find p l = Some x.
Proof.
  induction l as [|a l IH]; cbn; [tauto|]. intros Hin Hp Hu.
  destruct (p a) eqn:E.
  - f_equal. apply Hu; auto.
  - destruct Hin as [-> | Hin]; [congruence|]. apply IH; auto.
Qed.

(** In a registry that holds the numbered options of [l], the printer's
    search for the index [i] finds the [i]-th of them. *)
Lemma with_idx_numbered (om : OptionsMap) (l : list (string * Option))
    (i : nat) (e : string * Option) :
  Permutation om (numbered l 0) ->
  nth_error (numbered l 0) i = Some e ->
  with_idx om (N.of_nat i) = Some e.
Proof.
  intros P Hi. unfold with_idx.
  assert (Hidx : idx (snd e) = Some (N.of_nat i)).
  { rewrite nth_error_numbered in Hi. destruct (nth_error l i); [|discriminate].
    cbn in Hi. inversion Hi. reflexivity. }
  apply find_unique.
  - apply (Permutation_in _ (Permutation_sym P)). eapply nth_error_In; eassumption.
  - rewrite Hidx. apply N.eqb_refl.
  - intros y Hy Hp. destruct (idx (snd y)) as [j|] eqn:Ej; [|discriminate].
    apply N.eqb_eq in Hp. subst j.
    pose proof (numbered_idx_place l y i (Permutation_in _ P Hy) Ej) as Hn.
    congruence.
Qed.

Lemma for_each_seq {St A} (L : list A) (start : nat) (F : nat -> M St unit)
    (G : A -> M St unit) :
  (forall j x, nth_error L j = Some x -> forall s, F (start + j)%nat s = G x s) ->
  forall s, for_each (seq start (List.length L)) F s = for_each L G s.
Proof.
  revert start. induction L as [|x L IH]; intros start H s; cbn; auto.
  unfold bind. rewrite <- (H 0%nat x eq_refl s), Nat.add_0_r.
  destruct (F start s); auto. apply IH.
  intros j y Hj s'. rewrite <- (H (S j) y Hj s'). f_equal. lia.
Qed.

Lemma for_each_map {St A B} (g : A -> B) (L : list A) (F : B -> M St unit) :
  forall s, for_each (map g L) F s = for_each L (fun a => F (g a)) s.
Proof.
  induction L as [|x L IH]; intros s; cbn; auto.
  unfold bind. destruct (F (g x) s); auto.
Qed.

(** Where every [idx] was assigned the printer reads none that was not. *)
Lemma reads_assigned (om : OptionsMap) (i : N) :
  Forall (fun e => idx (snd e) <> None) om -> reads_unassigned om i = false.
Proof.
  induction 1 as [|e om He _ IH]; cbn [reads_unassigned]; [reflexivity |].
  destruct (idx (snd e)) as [j|]; [| congruence].
  destruct (N.eqb j i); [reflexivity | exact IH].
Qed.

Lemma numbered_assigned (l : list (string * Option)) (c : N) :
  Forall (fun e => idx (snd e) <> None) (numbered l c).
Proof.
  revert c. induction l as [|[n o] l IH]; intros c; cbn [numbered];
    constructor; [cbn; discriminate | apply IH].
Qed.

(** The printer on a registry that holds the numbered options of [l]. *)
Lemma print_numbered (om : OptionsMap) (l : list (string * Option)) :
  Permutation om (numbered l 0) ->
  forall os, print om os = print_each (numbered l 0) os.
Proof.
  intros P os. unfold print, print_each.
  rewrite for_each_map, (Permutation_length P).
  apply for_each_seq. intros j [n o] Hj s. cbn [Nat.add].
  rewrite reads_assigned
    by (apply (Permutation_Forall (Permutation_sym P)), numbered_assigned).
  rewrite (with_idx_numbered om l j (n, o) P Hj). reflexivity.
Qed.

(** *** The registry after a run of insertions *)

Lemma distinct_keys_app (l1 : list string) (n : string) (l2 : list string) :
  distinct_keys (l1 ++ n :: l2) -> Forall (fun m => same_key m n = false) l1.
Proof.
  induction l1 as [|a l1 IH]; cbn; [constructor|].
  intros [Ha Hd]. constructor; auto.
  rewrite Forall_app in Ha. destruct Ha as [_ Ha]. inversion Ha; assumption.
Qed.

Lemma insert_all_numbered (l done : list (string * Option)) (om : OptionsMap) :
  sorted om -> Permutation om (numbered done 0) ->
  distinct_keys (map fst (done ++ l)) ->
  sorted (fst (insert_all l (om, N.of_nat (List.length done))))
  /\ Permutation (fst (insert_all l (om, N.of_nat (List.length done))))
                 (numbered (done ++ l) 0)
  /\ snd (insert_all l (om, N.of_nat (List.length done)))
     = N.of_nat (List.length (done ++ l)).
Proof.
  revert done om. induction l as [|[n o] l IH]; intros done om Hs P Hd.
  - rewrite app_nil_r. cbn. auto.
  - assert (Hfresh : Forall (fun e => same_key (fst e) n = false) om).
    { rewrite map_app in Hd. cbn in Hd. apply distinct_keys_app in Hd.
      rewrite Forall_forall in Hd |- *. intros e He. apply Hd.
      rewrite <- (map_fst_numbered done 0). apply in_map.
      apply (Permutation_in _ P He). }
    destruct (insert_fresh om n (fun _ => set_idx o (N.of_nat (List.length done))) Hs Hfresh)
      as [Hs' P'].
    replace (done ++ (n, o) :: l) with ((done ++ [(n, o)]) ++ l) in *
      by (rewrite <- app_assoc; reflexivity).
    cbn [insert_all fold_left]. unfold insert at 2 4 6. cbn [fst snd].
    replace (N.of_nat (List.length done) + 1)%N
      with (N.of_nat (List.length (done ++ [(n, o)])))
      by (rewrite length_app; cbn; lia).
    apply (IH (done ++ [(n, o)])); auto.
    rewrite numbered_app. cbn [numbered]. rewrite N.add_0_l.
    rewrite <- P'. rewrite <- Permutation_cons_append. constructor. assumption.
Qed.

Lemma insert_all_app (l1 l2 : list (string * Option)) (s : OptionsMap * N) :
  insert_all (l1 ++ l2) s = insert_all l2 (insert_all l1 s).
Proof. apply fold_left_app. Qed.

Lemma snd_insert_all (l : list (string * Option)) (s : OptionsMap * N) :
  snd (insert_all l s) = (snd s + N.of_nat (List.length l))%N.
Proof.
  revert s. induction l as [|e l IH]; intros s; cbn [insert_all fold_left List.length].
  - cbn. lia.
  - fold (insert_all l (insert (fst s) (snd s) (fst e) (snd e))).
    rewrite IH. cbn [insert snd]. lia.
Qed.

Lemma firstn_succ_nth {A} (l : list A) (k : nat) (x : A) :
  nth_error l k = Some x ->
  firstn (S k) l = firstn k l ++ [x] /\ List.length (firstn k l) = k.
Proof.
  revert k. induction l as [|a l IH]; intros [|k] H; try discriminate.
  - inversion H. split; reflexivity.
  - cbn [nth_error] in H. destruct (IH k H) as [E L]. split.
    + change (a :: firstn (S k) l = a :: (firstn k l ++ [x])).
      rewrite E. reflexivity.
    + cbn [firstn List.length]. rewrite L. reflexivity.
Qed.

(** The indices and the printer.  In every sequence of insertions, into
    any registry, the [k]-th insertion (from zero) gives its option the
    index that is [k] above the counter at the beginning: the indices go up
    strictly with the order of insertion, whatever the alphabetic order of
    the names.  The printer looks for the indices below the size of the
    registry: when no two names of the sequence are the same key and the
    registry is the one of a program that starts (empty, the counter at
    zero), these are the indices given, and the printer writes the lines of
    the options in the order of insertion, one line an option. *)
Lemma insertion_order (l : list (string * Option)) :
  (forall om c k n o, nth_error l k = Some (n, o) ->
     snd (insert_all (firstn k l) (om, c)) = (c + N.of_nat k)%N
     /\ exists key,
          find (fst (insert_all (firstn (S k) l) (om, c))) n
          = Some (key, set_idx o (c + N.of_nat k)))
  /\ (distinct_keys (map fst l) ->
      (forall i n o, nth_error l i = Some (n, o) ->
         find (fst (insert_all l ([], 0%N))) n = Some (n, set_idx o (N.of_nat i)))
      /\ (forall os, print (fst (insert_all l ([], 0%N))) os
                     = print_each (numbered l 0) os)).
Proof.
  split.
  - intros om c k n o Hk. destruct (firstn_succ_nth l k (n, o) Hk) as [E L].
    assert (C : snd (insert_all (firstn k l) (om, c)) = (c + N.of_nat k)%N)
      by (rewrite snd_insert_all, L; reflexivity).
    split; [exact C |].
    rewrite E, insert_all_app. cbn [insert_all fold_left fst snd].
    rewrite find_insert, C. eauto.
  - intros Hd.
    destruct (insert_all_numbered l [] [] (SSorted_nil _) (Permutation_refl _) Hd)
      as [Hs [P _]].
    cbn [List.length N.of_nat List.app] in Hs, P. split.
    + intros i n o Hi. apply find_sorted_In; auto.
      apply (Permutation_in _ (Permutation_sym P)).
      apply (nth_error_In _ i). rewrite nth_error_numbered, Hi. reflexivity.
    + apply print_numbered. assumption.
Qed.

(* ===================================================================== *)
(** ** The descriptor lines *)
(* ===================================================================== *)

Lemma string_app_assoc (a b c : string) :
  ((a ++ b) ++ c)%string = (a ++ (b ++ c))%string.
Proof. induction a; cbn; congruence. Qed.

Lemma to_int_inject_Z (z : Z) :
  is_int z -> Float32.to_int (Float32.Fin (inject_Z z)) = Some z.
Proof.
  unfold is_int, Float32.to_int. cbn [inject_Z Qnum Qden]. rewrite Z.quot_1_r.
  intros [H1 H2].
  destruct (Z.leb_spec (- 2 ^ 31) z), (Z.ltb_spec z (2 ^ 31)); try lia.
  reflexivity.
Qed.


(* ===================================================================== *)
(** ** The tuning framework *)
(* ===================================================================== *)

(** *** More on sorted maps *)

Lemma keys_subscript (om : OptionsMap) (n : string) (e : string * Option) :
  In e (subscript om n) -> fst e = n \/ In e om.
Proof.
  induction om as [|[k o] om IH]; cbn.
  - intros [<- | []]. auto.
  - destruct (CaseInsensitiveLess k n) eqn:E1; cbn.
    + intros [<- | H]; auto. destruct (IH H); auto.
    + destruct (CaseInsensitiveLess n k) eqn:E2; cbn; auto.
      intros [<- | H]; auto.
Qed.

Lemma sorted_subscript (om : OptionsMap) (n : string) :
  sorted om -> sorted (subscript om n).
Proof.
  induction 1 as [|[k o] om Hs IH Hall]; cbn.
  - repeat constructor.
  - destruct (CaseInsensitiveLess k n) eqn:E1.
    + constructor; auto. rewrite Forall_forall in Hall |- *. intros e He.
      destruct (keys_subscript _ _ _ He) as [-> | Hin]; cbn; auto.
    + destruct (CaseInsensitiveLess n k) eqn:E2.
      * constructor; [constructor; assumption |].
        constructor; auto.
        eapply Forall_impl; [| exact Hall]. cbn. intros e He.
        eapply less_trans; eassumption.
      * constructor; assumption.
Qed.

Lemma Forall_fst_update (P : string -> Prop) (om : OptionsMap) (n : string)
    (f : Option -> Option) :
  Forall (fun e => P (fst e)) om -> Forall (fun e => P (fst e)) (update om n f).
Proof.
  intros H. apply Forall_map. rewrite map_fst_update. apply Forall_map in H.
  exact H.
Qed.

Lemma sorted_update (om : OptionsMap) (n : string) (f : Option -> Option) :
  sorted om -> sorted (update om n f).
Proof.
  induction 1 as [|[k o] om Hs IH Hall]; cbn.
  - constructor.
  - destruct (CaseInsensitiveLess k n) eqn:E1.
    + constructor; auto.
      apply (Forall_fst_update (fun x => CaseInsensitiveLess k x = true)). exact Hall.
    + destruct (CaseInsensitiveLess n k) eqn:E2; constructor; assumption.
Qed.

Lemma sorted_insert (om : OptionsMap) (c : N) (n : string) (o : Option) :
  sorted om -> sorted (fst (insert om c n o)).
Proof. intros H. apply sorted_update, sorted_subscript, H. Qed.

(** In a sorted map an entry put in for one key is not in the way of the
    search for another. *)
Lemma find_subscript_other (om : OptionsMap) (n m : string) :
  sorted om -> same_key n m = false -> find (subscript om n) m = find om m.
Proof.
  intros Hs Hnm. induction Hs as [|[k o] om Hs IH Hall]; cbn.
  - unfold same_key in Hnm.
    destruct (CaseInsensitiveLess n m), (CaseInsensitiveLess m n);
      try reflexivity; discriminate.
  - destruct (CaseInsensitiveLess k n) eqn:E1; cbn.
    + rewrite IH. reflexivity.
    + destruct (CaseInsensitiveLess n k) eqn:E2; cbn; auto.
      destruct (CaseInsensitiveLess n m) eqn:E3; auto.
      assert (E4 : CaseInsensitiveLess m n = true).
      { unfold same_key in Hnm. rewrite E3 in Hnm.
        destruct (CaseInsensitiveLess m n); [reflexivity | discriminate]. }
      rewrite E4.
      assert (E5 : CaseInsensitiveLess m k = true)
        by (eapply less_trans; eassumption).
      destruct (CaseInsensitiveLess k m) eqn:E6; [| rewrite E5; reflexivity].
      exfalso. pose proof (less_trans _ _ _ E5 E6) as C.
      rewrite less_irrefl in C. discriminate.
Qed.

Lemma find_insert_other (om : OptionsMap) (c : N) (n m : string) (o : Option) :
  sorted om -> same_key n m = false ->
  find (fst (insert om c n o)) m = find om m.
Proof.
  intros Hs H. unfold insert. cbn [fst].
  rewrite find_update_other by assumption. apply find_subscript_other; assumption.
Qed.

Lemma length_insert (om : OptionsMap) (c : N) (n : string) (o : Option) :
  List.length (fst (insert om c n o))
  = (List.length om + (1 - count om n))%nat.
Proof.
  unfold insert, count. cbn [fst].
  destruct (insert_shape om n (fun _ => set_idx o c))
    as [[Hn [l1 [l2 [H1 H2]]]] | [k [o' [l1 [l2 [Hf [H1 H2]]]]]]];
    rewrite H2; [rewrite Hn | rewrite Hf]; rewrite H1;
    rewrite !length_app; cbn; lia.
Qed.

(** *** [make_option] *)

Lemma make_option_skip (n : string) (v : Z) (r : Tune.SetRange) (w : Tune.World) :
  degenerate r v = true -> Tune.make_option n v r w = Ok tt w.
Proof. unfold degenerate, Tune.make_option. intros ->. reflexivity. Qed.

Lemma make_option_run (n : string) (v : Z) (r : Tune.SetRange) (w : Tune.World) :
  degenerate r v = false ->
  Tune.make_option n v r w
  = Ok tt
      (Tune.mkWorld
         (fst (insert (Tune.Options w) (Tune.insert_order w) n (tuned w n v r)))
         (Tune.insert_order w + 1)%N
         (Tune.update_on_last w)
         (Tune.address
            (fst (insert (Tune.Options w) (Tune.insert_order w) n (tuned w n v r))) n)
         (Tune.TuneResults w)
         (Tune.entries w)
         (Tune.events w
          ++ [Tune.Line n (overridden w n v)
                (fst (r (overridden w n v))) (snd (r (overridden w n v)))
                (inject_Z (snd (r (overridden w n v)) - fst (r (overridden w n v))) / 20)
                "0.0020"])).
Proof.
  unfold degenerate, Tune.make_option. intros ->. reflexivity.
Qed.


(** *** The two halves of a score *)

Lemma halves_not_same_key (a : string) :
  same_key ("m" ++ a) ("e" ++ a) = false /\ same_key ("e" ++ a) ("m" ++ a) = false.
Proof.
  assert (L : CaseInsensitiveLess ("e" ++ a) ("m" ++ a) = true) by reflexivity.
  split; [rewrite same_key_sym |]; apply less_not_same_key, L.
Qed.

(** One call of [make_option] for a name that is no key yet. *)
Lemma make_option_fresh (n : string) (v : Z) (r : Tune.SetRange) (w : Tune.World) :
  sorted (Tune.Options w) -> find (Tune.Options w) n = None ->
  exists w',
    Tune.make_option n v r w = Ok tt w'
    /\ sorted (Tune.Options w')
    /\ find (Tune.Options w') n = half_entry w n v r (Tune.insert_order w)
    /\ (forall m, same_key n m = false ->
          find (Tune.Options w') m = find (Tune.Options w) m)
    /\ List.length (Tune.Options w')
       = (List.length (Tune.Options w) + if degenerate r v then 0 else 1)%nat
    /\ Tune.insert_order w'
       = (if degenerate r v then Tune.insert_order w else Tune.insert_order w + 1)%N
    /\ Tune.TuneResults w' = Tune.TuneResults w.
Proof.
  intros Hs Hn. unfold half_entry. destruct (degenerate r v) eqn:D.
  - exists w. rewrite (make_option_skip n v r w D). repeat split; auto.
  - rewrite (make_option_run n v r w D). eexists. split; [reflexivity |].
    cbn [Tune.Options Tune.insert_order Tune.TuneResults].
    split; [apply sorted_insert; assumption |].
    split; [rewrite find_insert, Hn; reflexivity |].
    split; [intros m Hm; apply find_insert_other; assumption |].
    split; [| split; reflexivity].
    rewrite length_insert. unfold count. rewrite Hn. reflexivity.
Qed.

Lemma half_entry_TuneResults (w w' : Tune.World) (n : string) (v : Z)
    (r : Tune.SetRange) (c : N) :
  Tune.TuneResults w' = Tune.TuneResults w ->
  half_entry w' n v r c = half_entry w n v r c.
Proof.
  intros H. unfold half_entry, tuned, overridden. rewrite H. reflexivity.
Qed.

Lemma to_double_tuned (w : Tune.World) (n : string) (v : Z) (r : Tune.SetRange)
    (c : N) :
  Float32.exact (overridden w n v) ->
  to_double (set_idx (tuned w n v r) c)
  = Value (Float32.Fin (inject_Z (overridden w n v))).
Proof.
  intros H. unfold to_double, tuned, Option_spin, set_idx. cbn.
  rewrite (stof_to_string _ H). reflexivity.
Qed.

(** C7, amended. [init_option] of an entry bound to a score named [Foo], in
    a registry where [mFoo] and [eFoo] are no keys yet, leaves one option for
    each half whose range is not degenerate, and none for a half whose range
    is: [mFoo] for the midgame half, [eFoo] for the endgame half, two options
    when both ranges are not degenerate.  Each is a spin option with the
    action [on_tune], built from its own half (or the recorded result for its
    name) and the range computed from that value; read as a number it gives
    that value, which is within its [min] and [max] whenever the range
    function gave bounds around the value.  No other entry changes. *)
Theorem score_entry_halves (e : Tune.Entry) (s : Tune.Score) (w : Tune.World) :
  Tune.value e = Tune.of_Score s ->
  sorted (Tune.Options w) ->
  find (Tune.Options w) ("m" ++ Tune.name e) = None ->
  find (Tune.Options w) ("e" ++ Tune.name e) = None ->
  exists w',
    Tune.init_option e w = Ok tt w'
    /\ find (Tune.Options w') ("m" ++ Tune.name e)
       = half_entry w ("m" ++ Tune.name e) (Tune.mg_value s) (Tune.range e)
           (Tune.insert_order w)
    /\ find (Tune.Options w') ("e" ++ Tune.name e)
       = half_entry w ("e" ++ Tune.name e) (Tune.eg_value s) (Tune.range e)
           (if degenerate (Tune.range e) (Tune.mg_value s)
            then Tune.insert_order w else Tune.insert_order w + 1)%N
    /\ (forall m, same_key ("m" ++ Tune.name e) m = false ->
                  same_key ("e" ++ Tune.name e) m = false ->
                  find (Tune.Options w') m = find (Tune.Options w) m)
    /\ List.length (Tune.Options w')
       = (List.length (Tune.Options w)
          + (if degenerate (Tune.range e) (Tune.mg_value s) then 0 else 1)
          + (if degenerate (Tune.range e) (Tune.eg_value s) then 0 else 1))%nat
    /\ (forall n v c k o,
          half_entry w n v (Tune.range e) c = Some (k, o) ->
          k = n /\ type o = spin /\ on_change o = Some on_tune
          /\ idx o = Some c
          /\ min o = fst (Tune.range e (overridden w n v))
          /\ max o = snd (Tune.range e (overridden w n v))
          /\ (Float32.exact (overridden w n v) ->
              to_double o = Value (Float32.Fin (inject_Z (overridden w n v)))
              /\ (min o <= overridden w n v <= max o ->
                  within (Float32.Fin (inject_Z (overridden w n v))) (min o) (max o)))).
Proof.
  intros Hv Hs Hm He.
  destruct (halves_not_same_key (Tune.name e)) as [Hme Hem].
  destruct (make_option_fresh ("m" ++ Tune.name e) (Tune.mg_value s) (Tune.range e) w Hs Hm)
    as [w1 [R1 [S1 [F1 [O1 [L1 [C1 T1]]]]]]].
  assert (He1 : find (Tune.Options w1) ("e" ++ Tune.name e) = None)
    by (rewrite O1; assumption).
  destruct (make_option_fresh ("e" ++ Tune.name e) (Tune.eg_value s) (Tune.range e) w1 S1 He1)
    as [w2 [R2 [S2 [F2 [O2 [L2 [C2 T2]]]]]]].
  exists w2. split; [| split; [| split; [| split; [| split]]]].
  - unfold Tune.init_option. rewrite Hv. unfold bind. rewrite R1. exact R2.
  - rewrite O2 by assumption. exact F1.
  - rewrite F2, C1. apply half_entry_TuneResults, T1.
  - intros m H1 H2. rewrite O2, O1 by assumption. reflexivity.
  - rewrite L2, L1. reflexivity.
  - intros n v c k o H. unfold half_entry in H.
    destruct (degenerate (Tune.range e) v); [discriminate |].
    injection H as <- <-. cbn. repeat split; auto.
    + apply (to_double_tuned w n v (Tune.range e) c). assumption.
    + rewrite <- Zle_Qle. tauto.
    + rewrite <- Zle_Qle. tauto.
Qed.

(** *** [read_option] and [read_options] *)






Lemma skipn_head {A} (l : list A) (i : nat) (x : A) (r : list A) :
  skipn i l = x :: r -> nth_error l i = Some x /\ skipn (S i) l = r.
Proof.
  revert l. induction i as [|i IH]; intros [|a l]; cbn; try discriminate.
  - intros H. inversion H. auto.
  - intros H. apply IH in H. exact H.
Qed.





(** *** [on_tune] *)








(* ===================================================================== *)
(** ** BoolConditions::set *)
(* ===================================================================== *)

Section Sampling.

Variable PRNG : Type.
Variable rand64 : PRNG -> Z * PRNG.


Lemma set_nth_app {A} (pre : list A) (x b : A) (post : list A) :
  set_nth (pre ++ x :: post) (List.length pre) b = pre ++ b :: post.
Proof. induction pre as [|a pre IH]; cbn; congruence. Qed.

Lemma length_snoc {A} (pre : list A) (x : A) :
  List.length (pre ++ [x]) = Datatypes.S (List.length pre).
Proof. rewrite length_app. cbn. lia. Qed.

(** The first loop while [startup] is set: every flag is written false,
    and the generator is not used. *)
Lemma first_loop_startup (post pre : list bool) (c : BoolConditions PRNG) :
  binary c = pre ++ post -> startup c = true ->
  exists c',
    for_each (seq (List.length pre) (List.length post))
      (fun i =>
         c <- get;;
         b <- (if negb (startup c) then draw rand64 i else ret false);;
         modify (set_binary i b)) c = Ok tt c'
    /\ binary c' = pre ++ repeat false (List.length post)
    /\ values c' = values c /\ variance c' = variance c
    /\ threshold c' = threshold c /\ rng c' = rng c
    /\ startup c' = startup c /\ printed c' = printed c.
Proof.
  revert pre c. induction post as [|x post IH]; intros pre c Hb Hs.
  - exists c. cbn. rewrite Hb. repeat split; reflexivity.
  - destruct (IH (pre ++ [false]) (set_binary (List.length pre) false c))
      as [c' [R [B [V [Va [T [G [S P]]]]]]]].
    + cbn. rewrite Hb, set_nth_app, <- app_assoc. reflexivity.
    + exact Hs.
    + exists c'. cbn [List.length seq for_each].
      unfold bind at 1. unfold bind at 1. unfold get at 1. rewrite Hs.
      cbn [negb]. unfold bind at 1. unfold ret at 1. unfold modify at 1.
      rewrite length_snoc in R. split; [exact R |].
      rewrite B, <- app_assoc. cbn in *. repeat split; congruence.
Qed.

(** One draw with [variance] 1: the remainder is 0, so the flag compares
    the value with the threshold. *)
Lemma draw_variance_one (i : nat) (c : BoolConditions PRNG) (x : Z) :
  nth_error (values c) i = Some x -> is_int x -> variance c = 1 ->
  draw rand64 i c
  = Ok (threshold c <? x)
       (set_rng (snd (rand_unsigned rand64 (rng c))) c).
Proof.
  intros Hn [Hlo Hhi] Hv. unfold draw, bind at 1, get at 1. rewrite Hn.
  destruct (rand_unsigned rand64 (rng c)) as [r g] eqn:Hr.
  unfold bind, modify. cbn [variance set_rng snd threshold]. rewrite Hv.
  change (1 mod 2 ^ 32) with 1. cbn [Z.eqb]. rewrite Z.mod_1_r.
  change (int_of_unsigned 0) with 0. rewrite Z.add_0_r.
  destruct (Z.leb_spec (- 2 ^ 31) x), (Z.ltb_spec x (2 ^ 31)); try lia.
  reflexivity.
Qed.

(** The first loop after the first call, with [variance] 1. *)
Lemma first_loop_variance_one (post pre : list bool) (vs : list Z) (c : BoolConditions PRNG) :
  binary c = pre ++ post ->
  skipn (List.length pre) (values c) = vs ->
  List.length vs = List.length post -> Forall is_int vs ->
  startup c = false -> variance c = 1 ->
  exists c',
    for_each (seq (List.length pre) (List.length post))
      (fun i =>
         c <- get;;
         b <- (if negb (startup c) then draw rand64 i else ret false);;
         modify (set_binary i b)) c = Ok tt c'
    /\ binary c' = pre ++ map (fun x => threshold c <? x) vs
    /\ values c' = values c /\ variance c' = variance c
    /\ threshold c' = threshold c
    /\ startup c' = startup c /\ printed c' = printed c.
Proof.
  revert pre vs c. induction post as [|b0 post IH]; intros pre vs c Hb Hk Hl Hi Hs Hv.
  - destruct vs; [| discriminate]. exists c. cbn. rewrite Hb. repeat split; reflexivity.
  - destruct vs as [|x vs]; [discriminate |].
    destruct (skipn_head _ _ _ _ Hk) as [Hn Hk'].
    apply Forall_cons_iff in Hi. destruct Hi as [Hx Hi'].
    pose proof (draw_variance_one (List.length pre) c x Hn Hx Hv) as D.
    set (c1 := set_rng (snd (rand_unsigned rand64 (rng c))) c) in *.
    destruct (IH (pre ++ [threshold c <? x]) vs
                (set_binary (List.length pre) (threshold c <? x) c1))
      as [c' [R [B [V [Va [T [S P]]]]]]].
    + cbn. rewrite Hb, set_nth_app, <- app_assoc. reflexivity.
    + rewrite length_snoc. exact Hk'.
    + cbn in Hl. lia.
    + assumption.
    + exact Hs.
    + exact Hv.
    + exists c'. cbn [List.length seq for_each].
      unfold bind at 1. unfold bind at 1. unfold get at 1. rewrite Hs.
      cbn [negb]. unfold bind at 1. rewrite D. unfold modify at 1.
      rewrite length_snoc in R. split; [exact R |].
      rewrite B, <- app_assoc. cbn in *. repeat split; congruence.
Qed.

(** The second loop writes the flags one after the other. *)
Lemma print_loop (post pre : list bool) (c : BoolConditions PRNG) :
  binary c = pre ++ post ->
  exists c',
    for_each (seq (List.length pre) (List.length post))
      (fun i =>
         c <- get;;
         match nth_error (binary c) i with
         | Some b => modify (print_flag b)
         | None => fun _ => Undef
         end) c = Ok tt c'
    /\ binary c' = binary c
    /\ values c' = values c /\ variance c' = variance c
    /\ threshold c' = threshold c /\ rng c' = rng c
    /\ startup c' = startup c /\ printed c' = printed c ++ post.
Proof.
  revert pre c. induction post as [|x post IH]; intros pre c Hb.
  - exists c. cbn. rewrite app_nil_r. repeat split; reflexivity.
  - destruct (IH (pre ++ [x]) (print_flag x c))
      as [c' [R [B [V [Va [T [G [S P]]]]]]]].
    + cbn. rewrite Hb, <- app_assoc. reflexivity.
    + exists c'. cbn [List.length seq for_each].
      unfold bind at 1. unfold bind at 1. unfold get at 1.
      rewrite Hb, nth_error_app2, Nat.sub_diag by lia. cbn [nth_error].
      unfold modify at 1. rewrite length_snoc in R. split; [exact R |].
      cbn in *. rewrite P, <- app_assoc. repeat split; congruence.
Qed.

(** C8. Whatever the values, the variance and the state of the generator,
    the first call of [set()] - the one that finds [startup] set - leaves
    every flag false, prints them, leaves the generator as it was and
    clears [startup].  A second call, with [variance] 1 and a value for
    every flag, returns with the flag [i] telling whether the value [i] is
    above the threshold: the random number modulo 1 is 0. *)
Theorem first_sample_false_then_threshold (c : BoolConditions PRNG) :
  startup c = true ->
  exists c1,
    set rand64 c = Ok tt c1
    /\ binary c1 = repeat false (List.length (binary c))
    /\ printed c1 = printed c ++ repeat false (List.length (binary c))
    /\ rng c1 = rng c
    /\ startup c1 = false
    /\ (variance c = 1 ->
        List.length (values c) = List.length (binary c) ->
        Forall is_int (values c) ->
        exists c2,
          set rand64 c1 = Ok tt c2
          /\ binary c2 = map (fun x => threshold c <? x) (values c)
          /\ printed c2 = printed c1 ++ binary c2).
Proof.
  intros Hs.
  destruct (first_loop_startup (binary c) [] c eq_refl Hs)
    as [a [Ra [Ba [Va [Vra [Ta [Ga [Sa Pa]]]]]]]].
  cbn [List.length List.app] in Ra, Ba.
  destruct (print_loop (binary a) [] (set_startup false a) eq_refl)
    as [c1 [R1 [B1 [V1 [Vr1 [T1 [G1 [S1 P1]]]]]]]].
  cbn [List.length List.app binary values variance threshold rng startup
       printed set_startup] in R1, B1, V1, Vr1, T1, G1, S1, P1.
  exists c1. split; [| split; [| split; [| split; [| split]]]].
  - unfold set. unfold bind at 1. unfold get at 1. unfold bind at 1.
    rewrite Ra. unfold bind at 1. unfold modify at 1.
    unfold bind at 1. unfold get at 1. exact R1.
  - congruence.
  - rewrite P1, Pa, Ba. reflexivity.
  - congruence.
  - exact S1.
  - intros Hv Hl Hi.
    assert (Hl1 : List.length (binary c1) = List.length (binary c)).
    { rewrite B1, Ba. apply repeat_length. }
    destruct (first_loop_variance_one (binary c1) [] (values c1) c1 eq_refl eq_refl)
      as [b [Rb [Bb [Vb [Vrb [Tb [Sb Pb]]]]]]]; try congruence.
    cbn [List.length List.app] in Rb, Bb.
    destruct (print_loop (binary b) [] (set_startup false b) eq_refl)
      as [c2 [R2 [B2 [V2 [Vr2 [T2 [G2 [S2 P2]]]]]]]].
    cbn [List.length List.app binary values variance threshold rng startup
         printed set_startup] in R2, B2, V2, Vr2, T2, G2, S2, P2.
    exists c2. split; [| split].
    + unfold set. unfold bind at 1. unfold get at 1. unfold bind at 1.
      rewrite Rb. unfold bind at 1. unfold modify at 1.
      unfold bind at 1. unfold get at 1. exact R2.
    + rewrite B2, Bb, T1, Ta, V1, Va. reflexivity.
    + rewrite P2, B2. congruence.
Qed.

End Sampling.

(* ===================================================================== *)
(** ** Runs on concrete inputs *)
(* ===================================================================== *)

(** The scenario of the option [Threads]: "0" is refused, "8" is taken and
    the action runs once.  The value kept after the refusal is the text
    [to_string] made of 4. *)
Example Threads_scenario :
  assign Threads "0" = mkAssignment Threads [] Normal
  /\ currentValue Threads = "4.000000"
  /\ assign Threads "8"
     = mkAssignment (set_currentValue Threads "8")
         [(on_threads, set_currentValue Threads "8")] Normal.
Proof. vm_compute. auto. Qed.

(** The scenario of the combo: the comparison takes no notice of case. *)
Example Mode_scenario :
  equals Mode "both" = Value true /\ equals Mode "Grey" = Value false.
Proof. vm_compute. auto. Qed.

(** The first lines [init] makes the printer write, on a 64-bit machine
    with eight threads. *)
Example init_prints_in_insertion_order :
  exists rest,
    print (fst (init true 8 ([], 0%N))) ""
    = Ok tt (newline ++ "option name Debug Log File type string default "
             ++ newline ++ "option name Contempt type spin default 21 min -100 max 100"
             ++ newline ++ "option name Analysis_CT type combo default Both var Off var White var Black var Both"
             ++ newline ++ "option name Threads type spin default 8 min 1 max 512"
             ++ rest)%string.
Proof. eexists. vm_compute. reflexivity. Qed.

(** A registry that holds an option [operator[]] made and nothing assigned
    an index to: the printer compares an [idx] that has no value. *)
Example print_reads_unassigned_idx :
  subscript [] "Hash" = [("Hash", Option_button None)]
  /\ print (subscript [] "Hash") "" = Undef.
Proof. split; reflexivity. Qed.

(** *** C1 *)

(** C1. [Threads] is a spin option with the bounds 1 and 512.  The empty
    text and the text "0", a number below the bounds, are refused in
    silence: the operator returns, the option is as it was and nothing is
    called.  The text "abc" is no number, an input said to be refused in
    the same way: [std::stof] throws [std::invalid_argument] on it, and
    [std::out_of_range] on "1e39", a number no float holds; nothing in the
    operator catches them, and the exception leaves it. *)
Theorem assign_unparsable_spin_throws :
  invalid_input Threads "abc"
  /\ assign Threads "" = mkAssignment Threads [] Normal
  /\ assign Threads "0" = mkAssignment Threads [] Normal
  /\ assign Threads "abc" = mkAssignment Threads [] (Raised invalid_argument)
  /\ assign Threads "1e39" = mkAssignment Threads [] (Raised out_of_range)
  /\ assign Threads "abc" <> mkAssignment Threads [] Normal.
Proof.
  split; [| split; [| split; [| split; [| split]]]].
  - right. right. left. split; [reflexivity |].
    split; [discriminate |]. exists invalid_argument. reflexivity.
  - reflexivity.
  - vm_compute. reflexivity.
  - vm_compute. reflexivity.
  - vm_compute. reflexivity.
  - vm_compute. discriminate.
Qed.

(** *** C2 *)

(** C2. Bounds that are no floats.  The lower bound 16777217 becomes
    16777216 when it is converted for the comparison, so the text
    "16777216", a number below the bound, is taken.  The option
    [make_option] makes for the value 16777219 with the usual range has the
    upper bound 33554438, which becomes 33554440, so the text "33554440", a
    number above the bound, is taken: [currentValue] becomes the text and
    the action is called. *)
Theorem spin_bound_lost_in_float :
  (type (Option_spin 16777218 16777217 16777220 (Some on_tune)) = spin
   /\ stof "16777216" = Parsed (Float32.Fin 16777216)
   /\ ~ within (Float32.Fin 16777216)
          (min (Option_spin 16777218 16777217 16777220 (Some on_tune)))
          (max (Option_spin 16777218 16777217 16777220 (Some on_tune)))
   /\ assign (Option_spin 16777218 16777217 16777220 (Some on_tune)) "16777216"
      = mkAssignment
          (set_currentValue (Option_spin 16777218 16777217 16777220 (Some on_tune))
             "16777216")
          [(on_tune,
            set_currentValue (Option_spin 16777218 16777217 16777220 (Some on_tune))
              "16777216")]
          Normal)
  /\ exists w' o,
       Tune.make_option "A" 16777219 twice (Tune.start []) = Ok tt w'
       /\ find (Tune.Options w') "A" = Some ("A", o)
       /\ type o = spin /\ min o = 0 /\ max o = 33554438
       /\ Float32.of_int (max o) = Float32.Fin 33554440
       /\ stof "33554440" = Parsed (Float32.Fin 33554440)
       /\ ~ within (Float32.Fin 33554440) (min o) (max o)
       /\ assign o "33554440"
          = mkAssignment (set_currentValue o "33554440")
              [(on_tune, set_currentValue o "33554440")] Normal.
Proof.
  split.
  - split; [reflexivity | split; [reflexivity | split; [| reflexivity]]].
    cbn. intros [H _]. revert H. unfold Qle. cbn. lia.
  - eexists. eexists.
    split; [vm_compute; reflexivity |].
    split; [vm_compute; reflexivity |].
    split; [reflexivity |]. split; [reflexivity |]. split; [reflexivity |].
    split; [vm_compute; reflexivity |].
    split; [vm_compute; reflexivity |].
    split; [| vm_compute; reflexivity].
    cbn. intros [_ H]. revert H. unfold Qle. cbn. lia.
Qed.

(** *** A text that is no number at all *)

(** X2. The text "nan" converts to a NaN, which compares neither below nor
    above anything: every spin option takes it, whatever its bounds. *)
Theorem spin_accepts_nan (o : Option) :
  type o = spin ->
  assign o "nan"
  = mkAssignment (set_currentValue o "nan")
      (match on_change o with
       | Some g => [(g, set_currentValue o "nan")]
       | None => []
       end) Normal.
Proof.
  intros Ht.
  rewrite (assign_spin o "nan" Ht) by discriminate.
  rewrite (out_of_bounds_parsed o "nan" Float32.NaN eq_refl).
  replace (Float32.ltb Float32.NaN (Float32.of_int (min o))
           || Float32.gtb Float32.NaN (Float32.of_int (max o))) with false
    by (unfold Float32.gtb; destruct (Float32.of_int (max o)) as [|[|]|];
        reflexivity).
  rewrite accept_spec, Ht. reflexivity.
Qed.

Lemma spin_accepts_nan_witness :
  currentValue (after (assign Threads "nan")) = "nan"
  /\ to_double (after (assign Threads "nan")) = Value Float32.NaN.
Proof.
  rewrite (spin_accepts_nan Threads eq_refl). split; reflexivity.
Defined.

(** *** C3 *)

(** C3. An option inserted a second time, under a name of the same key.
    After [A] and [a] the registry holds one option, with the index 1, and
    the printer, which looks for the index 0 only, writes nothing.  After
    [A], [B] and [a] it holds two options, with the indices 2 and 1, and
    the printer, which looks for the indices 0 and 1, writes the line of [B]
    and none for the other. *)
Theorem reinserted_option_is_not_printed :
  fst (insert_all [("A", Option_check true None); ("a", Option_check false None)]
         ([], 0%N))
  = [("A", set_idx (Option_check false None) 1)]
  /\ print (fst (insert_all [("A", Option_check true None);
                             ("a", Option_check false None)] ([], 0%N))) ""
     = Ok tt ""
  /\ fst (insert_all [("A", Option_check true None); ("B", Option_check true None);
                      ("a", Option_check false None)] ([], 0%N))
     = [("A", set_idx (Option_check false None) 2);
        ("B", set_idx (Option_check true None) 1)]
  /\ print (fst (insert_all [("A", Option_check true None);
                             ("B", Option_check true None);
                             ("a", Option_check false None)] ([], 0%N))) ""
     = Ok tt (newline ++ "option name B type check default true")%string.
Proof. repeat split; reflexivity. Qed.

(** *** C4 *)


(** *** C5 *)

Lemma Hash_differs_in_case_only : differ_in_case_only "Hash" "HASH".
Proof.
  repeat (apply dico_cons || apply dico_nil);
    first [ left; reflexivity
          | right; right; split; [unfold capital; cbn; lia | reflexivity] ].
Defined.

Lemma case_insensitive_names_witness :
  find [] "Hash" = find [] "HASH"
  /\ count [] "Hash" = count [] "HASH"
  /\ forall c o,
       subscript (fst (insert [] c "Hash" o)) "HASH" = fst (insert [] c "Hash" o)
       /\ exists k,
            find (fst (insert [] c "Hash" o)) "HASH" = Some (k, set_idx o c)
            /\ forall c' o',
                 map fst (fst (insert (fst (insert [] c "Hash" o)) c' "HASH" o'))
                 = map fst (fst (insert [] c "Hash" o))
                 /\ find (fst (insert (fst (insert [] c "Hash" o)) c' "HASH" o')) "Hash"
                    = Some (k, set_idx o' c').
Proof.
  exact (case_insensitive_names [] "Hash" "HASH" Hash_differs_in_case_only).
Defined.

(** *** C6 *)


(** *** C7 *)

(** A score whose midgame half is 0, with the usual range: the range of 0
    is (0, 0), so [mFoo] is not made and [eFoo] is the only option.  And a
    score with the fixed range (10, 20): both options are made, and the one
    of the midgame half 0 has a value below its [min]. *)
Lemma score_with_a_degenerate_half :
  (exists w',
     Tune.init_option (Foo 0 10 twice) (Tune.start [Foo 0 10 twice]) = Ok tt w'
     /\ map fst (Tune.Options w') = ["eFoo"]
     /\ find (Tune.Options w') "mFoo" = None)
  /\ (exists w' o,
        Tune.init_option (Foo 0 10 (fun _ => (10, 20)))
          (Tune.start [Foo 0 10 (fun _ => (10, 20))]) = Ok tt w'
        /\ find (Tune.Options w') "mFoo" = Some ("mFoo", o)
        /\ to_double o = Value (Float32.Fin 0)
        /\ min o = 10 /\ max o = 20).
Proof.
  split.
  - eexists. split; [vm_compute; reflexivity |]. split; reflexivity.
  - eexists. eexists. split; [vm_compute; reflexivity |].
    split; [reflexivity |]. split; [reflexivity |]. split; reflexivity.
Qed.

Lemma score_entry_halves_witness :
  exists w',
    Tune.init_option (Foo 5 10 twice) (Tune.start [Foo 5 10 twice]) = Ok tt w'
    /\ find (Tune.Options w') "mFoo"
       = Some ("mFoo", set_idx (Option_spin 5 0 10 (Some on_tune)) 0)
    /\ find (Tune.Options w') "eFoo"
       = Some ("eFoo", set_idx (Option_spin 10 0 20 (Some on_tune)) 1)
    /\ List.length (Tune.Options w') = 2%nat.
Proof.
  destruct (score_entry_halves (Foo 5 10 twice) (Tune.make_score 5 10)
              (Tune.start [Foo 5 10 twice]))
    as [w' [R [Fm [Fe [_ [L _]]]]]].
  - reflexivity.
  - constructor.
  - reflexivity.
  - reflexivity.
  - exists w'. repeat split; assumption.
Defined.

(** *** C8 *)

Lemma first_sample_false_then_threshold_witness :
  exists c1,
    set lcg three_flags = Ok tt c1
    /\ binary c1 = [false; false; false]
    /\ exists c2,
         set lcg c1 = Ok tt c2 /\ binary c2 = [false; true; false].
Proof.
  destruct (first_sample_false_then_threshold Z lcg three_flags eq_refl)
    as [c1 [R1 [B1 [_ [_ [_ H]]]]]].
  exists c1. split; [exact R1 |]. split; [exact B1 |].
  destruct H as [c2 [R2 [B2 _]]].
  - reflexivity.
  - reflexivity.
  - repeat constructor; unfold is_int; lia.
  - exists c2. split; [exact R2 | exact B2].
Defined.

(** *** C9 *)



(** In the world of the two tuned parameters a change of [B], the option
    made last, reads both entries again; a change of [A] reads none. *)
Example batch_scenario :
  (exists w2,
     Tune.set_option "B" "3" batch_world = Ok tt w2
     /\ reads (Tune.events w2) = ["A"; "B"]
     /\ map Tune.value (Tune.entries w2) = [Tune.of_int 5; Tune.of_int 3])
  /\ (exists w2,
        Tune.set_option "A" "3" batch_world = Ok tt w2
        /\ reads (Tune.events w2) = []
        /\ map Tune.value (Tune.entries w2) = [Tune.of_int 5; Tune.of_int 7]).
Proof.
  split; eexists; (split; [vm_compute; reflexivity |]); split; reflexivity.
Qed.

(* ===================================================================== *)
(** ** Further properties *)
(* ===================================================================== *)

(** *** The comparator *)

(** X3. [CaseInsensitiveLess] is a strict weak order, as [std::map] asks of
    its comparator: no name is below itself, the order is asymmetric and
    transitive, and being the same key is transitive. *)
Theorem less_strict_weak_order :
  (forall a, CaseInsensitiveLess a a = false)
  /\ (forall a b, CaseInsensitiveLess a b = true ->
                  CaseInsensitiveLess b a = false)
  /\ (forall a b c, CaseInsensitiveLess a b = true ->
                    CaseInsensitiveLess b c = true ->
                    CaseInsensitiveLess a c = true)
  /\ (forall a b c, same_key a b = true -> same_key b c = true ->
                    same_key a c = true).
Proof.
  split; [exact less_irrefl | split; [| split; [exact less_trans |]]].
  - intros a b H. destruct (CaseInsensitiveLess b a) eqn:E; [| reflexivity].
    pose proof (less_trans a b a H E) as C. rewrite less_irrefl in C.
    discriminate.
  - intros a b c. apply same_key_trans.
Qed.

(** Two characters that [tolower] sends to the same are the same letter. *)
Lemma tolower_same_letter (a b : ascii) :
  tolower (char_to_int a) = tolower (char_to_int b) -> same_letter a b.
Proof.
  unfold same_letter, capital, small_of.
  pose proof (nat_ascii_bounded a) as A. pose proof (nat_ascii_bounded b) as B.
  unfold tolower, char_to_int. intros E.
  repeat match type of E with
         | context [?x <? ?y] => destruct (Z.ltb_spec x y)
         | context [?x <=? ?y] => destruct (Z.leb_spec x y)
         end; cbn [andb] in E;
    first [ left; rewrite <- (ascii_nat_embedding a), <- (ascii_nat_embedding b);
            f_equal; lia
          | right; left; split; [lia |];
            rewrite <- (ascii_nat_embedding b); f_equal; lia
          | right; right; split; [lia |];
            rewrite <- (ascii_nat_embedding a); f_equal; lia ].
Qed.

Lemma folded_differ_in_case_only (s t : string) :
  folded s = folded t -> differ_in_case_only s t.
Proof.
  revert t. induction s as [|a s IH]; intros [|b t]; unfold folded; cbn;
    try discriminate.
  - intros _. constructor.
  - intros H. injection H as H1 H2. constructor.
    + apply tolower_same_letter. exact H1.
    + apply IH. exact H2.
Qed.

Lemma same_key_differ_in_case_only (s t : string) :
  same_key s t = true -> differ_in_case_only s t.
Proof. intros H. apply folded_differ_in_case_only, same_key_folded, H. Qed.

(** X4. Two names are the same key of the registry exactly when they have
    the same length and differ, place by place, at most in the case of an
    ASCII letter; so no two names that differ in a digit, a blank or any
    other character are ever confused. *)
Theorem same_key_iff_case (s t : string) :
  (same_key s t = true <-> differ_in_case_only s t)
  /\ (same_key s t = true -> String.length s = String.length t).
Proof.
  split; [split |].
  - apply same_key_differ_in_case_only.
  - apply differ_in_case_only_same_key.
  - intros H. apply same_key_differ_in_case_only in H.
    induction H as [|a b s t _ _ IH]; cbn; [reflexivity | rewrite IH; reflexivity].
Qed.

(** *** The registry after any run of insertions *)

Lemma insert_all_cons (m : string) (o : Option) (l : list (string * Option))
    (om : OptionsMap) (c : N) :
  insert_all ((m, o) :: l) (om, c) = insert_all l (insert om c m o).
Proof. reflexivity. Qed.

(** One insertion, seen from any name. *)
Lemma find_insert_any (om : OptionsMap) (c : N) (m n : string) (o : Option) :
  sorted om ->
  option_map snd (find (fst (insert om c m o)) n)
  = if same_key m n then Some (set_idx o c) else option_map snd (find om n).
Proof.
  intros Hs. destruct (same_key m n) eqn:K.
  - rewrite <- (find_same_key _ m n K), find_insert. reflexivity.
  - rewrite find_insert_other by assumption. reflexivity.
Qed.

(** An insertion keeps every key there is, in the spelling it has. *)
Lemma find_insert_key (om : OptionsMap) (c : N) (m n k : string) (o old : Option) :
  sorted om -> find om n = Some (k, old) ->
  exists o', find (fst (insert om c m o)) n = Some (k, o').
Proof.
  intros Hs Hf. destruct (same_key m n) eqn:K.
  - rewrite <- (find_same_key _ m n K), find_insert.
    rewrite (find_same_key om m n K), Hf. cbn. eauto.
  - rewrite find_insert_other by assumption. eauto.
Qed.

(** X5. After any run of insertions [o[name] << option] into a registry,
    the registry is still in the order of the comparator; under every name
    it holds the option that was inserted last under a key of that name,
    with the index that insertion gave it (or what it held before, when
    there was no such insertion); every key that was there is still there
    in the spelling it had; and the counter went up once an insertion. *)
Theorem registry_after_insertions (l : list (string * Option))
    (om : OptionsMap) (c : N) :
  sorted om ->
  sorted (fst (insert_all l (om, c)))
  /\ (forall n, option_map snd (find (fst (insert_all l (om, c))) n)
                = last_inserted l n c (option_map snd (find om n)))
  /\ (forall n k o, find om n = Some (k, o) ->
        exists o', find (fst (insert_all l (om, c))) n = Some (k, o'))
  /\ snd (insert_all l (om, c)) = (c + N.of_nat (List.length l))%N.
Proof.
  revert om c. induction l as [|[m o] l IH]; intros om c Hs.
  - cbn. rewrite N.add_0_r. repeat split; eauto.
  - rewrite insert_all_cons.
    destruct (IH (fst (insert om c m o)) (snd (insert om c m o))
                 (sorted_insert om c m o Hs)) as [S1 [F1 [K1 C1]]].
    rewrite <- surjective_pairing in S1, F1, K1, C1.
    split; [exact S1 | split; [| split]].
    + intros n. rewrite F1, find_insert_any by assumption. reflexivity.
    + intros n k old Hf.
      destruct (find_insert_key om c m n k o old Hs Hf) as [o' Hf'].
      apply (K1 n k o' Hf').
    + rewrite C1. cbn [insert snd List.length]. lia.
Qed.

Lemma registry_after_insertions_witness :
  option_map snd
    (find (fst (insert_all [("Hash", Option_check true None);
                            ("Ponder", Option_check false None);
                            ("HASH", Option_button None)] ([], 5%N))) "hash")
  = Some (set_idx (Option_button None) 7).
Proof.
  rewrite (proj1 (proj2 (registry_after_insertions
                           [("Hash", Option_check true None);
                            ("Ponder", Option_check false None);
                            ("HASH", Option_button None)] [] 5%N
                           (SSorted_nil _)))).
  reflexivity.
Defined.

(** *** Every option has its own index *)

Lemma indexed_below_insert (om : OptionsMap) (c : N) (n : string) (o : Option) :
  indexed_below om c -> indexed_below (fst (insert om c n o)) (c + 1)%N.
Proof.
  intros [Hf Hd].
  assert (Fresh : ~ In (Some c) (map (fun e => idx (snd e)) om)).
  { intros Hin. apply in_map_iff in Hin. destruct Hin as [e [He Hin]].
    rewrite Forall_forall in Hf. destruct (Hf e Hin) as [i [Hi Hlt]].
    rewrite Hi in He. injection He as ->. lia. }
  assert (Up : Forall (fun e => exists i, idx (snd e) = Some i /\ (i < c + 1)%N) om).
  { eapply Forall_impl; [| exact Hf]. cbn. intros e [i [Hi Hlt]].
    exists i. split; [exact Hi | lia]. }
  assert (New : exists i, idx (set_idx o c) = Some i /\ (i < c + 1)%N)
    by (exists c; split; [reflexivity | lia]).
  unfold insert. cbn [fst].
  destruct (insert_shape om n (fun _ => set_idx o c))
    as [[_ [l1 [l2 [H1 H2]]]] | [k [old [l1 [l2 [_ [H1 H2]]]]]]];
    rewrite H2; subst om; split.
  - apply Forall_app in Up. destruct Up as [U1 U2].
    apply Forall_app. split; [exact U1 | constructor; [exact New | exact U2]].
  - rewrite map_app in *. cbn [map snd].
    apply NoDup_Add with (a := Some c) (l := (map (fun e => idx (snd e)) l1
                                               ++ map (fun e => idx (snd e)) l2)).
    + apply Add_app.
    + split; assumption.
  - apply Forall_app in Up. destruct Up as [U1 U2].
    apply Forall_cons_iff in U2. destruct U2 as [_ U2].
    apply Forall_app. split; [exact U1 | constructor; [exact New | exact U2]].
  - rewrite map_app in *. cbn [map snd] in *.
    apply NoDup_Add with (a := Some c) (l := (map (fun e => idx (snd e)) l1
                                               ++ map (fun e => idx (snd e)) l2)).
    + apply Add_app.
    + split.
      * apply NoDup_remove_1 in Hd. exact Hd.
      * intros Hin. apply Fresh. apply in_app_iff in Hin. apply in_app_iff.
        destruct Hin as [Hin | Hin]; [left | right; right]; exact Hin.
Qed.

(** X6. Insertions keep the indices apart.  In a registry where every
    option has an index below the counter and no two options have the same
    - the empty registry of a program that starts is one - this is so
    again after any run of insertions: an insertion gives the counter's
    value to one option and moves the counter on.  So the printer, which
    stops at the first option it finds with an index, never passes over a
    second one. *)
Theorem indices_stay_distinct (l : list (string * Option)) (om : OptionsMap) (c : N) :
  indexed_below om c ->
  indexed_below (fst (insert_all l (om, c))) (snd (insert_all l (om, c)))
  /\ forall i e1 e2,
       In e1 (fst (insert_all l (om, c))) -> In e2 (fst (insert_all l (om, c))) ->
       idx (snd e1) = Some i -> idx (snd e2) = Some i ->
       with_idx (fst (insert_all l (om, c))) i = Some e1 /\ e1 = e2.
Proof.
  intros H.
  assert (G : indexed_below (fst (insert_all l (om, c))) (snd (insert_all l (om, c)))).
  { revert om c H. induction l as [|[m o] l IH]; intros om c H; [exact H |].
    rewrite insert_all_cons.
    pose proof (indexed_below_insert om c m o H) as H1.
    specialize (IH (fst (insert om c m o)) (c + 1)%N H1).
    exact IH. }
  split; [exact G |].
  destruct G as [_ Hd]. revert Hd.
  generalize (fst (insert_all l (om, c))). intros reg Hd i e1 e2 H1 H2 I1 I2.
  assert (U : forall a b, In a reg -> In b reg ->
                idx (snd a) = Some i -> idx (snd b) = Some i -> a = b).
  { clear e1 e2 H1 H2 I1 I2.
    induction reg as [|x reg IH]; intros a b Ha Hb Ia Ib; [destruct Ha |].
    cbn [map] in Hd. apply NoDup_cons_iff in Hd. destruct Hd as [Hx Hd].
    destruct Ha as [-> | Ha], Hb as [-> | Hb]; auto.
    - exfalso. apply Hx. rewrite Ia. apply in_map_iff. exists b. auto.
    - exfalso. apply Hx. rewrite Ib. apply in_map_iff. exists a. auto. }
  split; [| apply (U e1 e2); assumption].
  unfold with_idx. apply find_unique; [exact H1 | rewrite I1; apply N.eqb_refl |].
  intros y Hy Hp. destruct (idx (snd y)) as [j|] eqn:Ej; [| discriminate].
  apply N.eqb_eq in Hp. subst j. apply (U y e1); assumption.
Qed.

Lemma indices_stay_distinct_witness :
  indexed_below (fst (insert_all three_options ([], 0%N))) 3.
Proof.
  apply (proj1 (indices_stay_distinct three_options [] 0%N
                  (conj (Forall_nil _) (NoDup_nil _)))).
Defined.

(** *** Assignment and the conversions *)

Lemma after_assign_cases (o : Option) (v : string) :
  after (assign o v) = o
  \/ (type o <> button /\ after (assign o v) = set_currentValue o v).
Proof.
  assert (A : after (accept o v) = o
              \/ (type o <> button /\ after (accept o v) = set_currentValue o v)).
  { rewrite accept_spec. destruct o as [d c t mn mx i f].
    destruct t; cbn; auto; right; split; auto; discriminate. }
  unfold assign.
  repeat match goal with
         | |- context [if ?b then _ else _] => destruct b
         | |- context [match ?x with inl _ => _ | inr _ => _ end] => destruct x
         end; cbn [after]; auto.
Qed.

Lemma accept_taken (o : Option) (v : string) :
  type o <> button -> accept o v = taken o v.
Proof.
  intros H. rewrite accept_spec. unfold taken.
  destruct o as [d c t mn mx i f]. destruct t; cbn in *; congruence.
Qed.

Lemma out_of_bounds_false (o : Option) (v : string) :
  out_of_bounds o v = inr false -> exists f, stof v = Parsed f.
Proof.
  unfold out_of_bounds. destruct (stof v) as [f | e]; [eauto | discriminate].
Qed.

Lemma to_double_check (o : Option) :
  type o = check ->
  to_double o
  = Value (Float32.of_int (if String.eqb (currentValue o) "true" then 1 else 0)).
Proof. intros Ht. unfold to_double. rewrite Ht. reflexivity. Qed.

Lemma to_double_spin (o : Option) :
  type o = spin ->
  to_double o = match stof (currentValue o) with
                | Parsed f => Value f
                | Fails e => Throws e
                end.
Proof. intros Ht. unfold to_double. rewrite Ht. reflexivity. Qed.

(** An assignment does not make the conversion to a number fail. *)
Lemma to_double_after_assign (o : Option) (v : string) (f : Float32.t) :
  to_double o = Value f -> exists f', to_double (after (assign o v)) = Value f'.
Proof.
  intros Hf. destruct (type o) eqn:Ht;
    try (unfold to_double in Hf; rewrite Ht in Hf; discriminate).
  - destruct (after_assign_cases o v) as [E | [_ E]]; rewrite E; [eauto |].
    rewrite to_double_check by (destruct o; exact Ht). eauto.
  - destruct (String.eqb_spec v "") as [-> | Hv].
    + unfold assign. rewrite Ht. cbn. eauto.
    + rewrite (assign_spin o v Ht Hv).
      destruct (out_of_bounds o v) as [e | [|]] eqn:B; cbn [after]; eauto.
      destruct (out_of_bounds_false o v B) as [g Hg].
      rewrite accept_taken by (rewrite Ht; discriminate).
      cbn [taken after]. rewrite to_double_spin by exact Ht.
      cbn [currentValue set_currentValue]. rewrite Hg. eauto.
Qed.

(** X8. The conversion operators give back what was assigned.  On a string
    option [operator std::string] returns the text last taken - never the
    empty text, which is not taken.  On a check [operator double] returns 1
    after "true" and 0 after "false".  On a spin it returns the float the
    text parses to when the text was taken, and what it returned before
    otherwise.  And an assignment never makes the conversion to a number
    fail: when it gave a number before, it gives one afterwards. *)
Theorem assign_then_read (o : Option) (v : string) :
  (type o = string_t ->
   to_std_string (after (assign o v))
   = Value (if String.eqb v "" then currentValue o else v))
  /\ (type o = check ->
      (v = "true" -> to_double (after (assign o v)) = Value (Float32.Fin 1))
      /\ (v = "false" -> to_double (after (assign o v)) = Value (Float32.Fin 0))
      /\ (v <> "true" -> v <> "false" ->
          to_double (after (assign o v)) = to_double o))
  /\ (type o = spin -> v <> "" ->
      forall f, stof v = Parsed f ->
      to_double (after (assign o v))
      = if Float32.ltb f (Float32.of_int (min o))
           || Float32.gtb f (Float32.of_int (max o))
        then to_double o else Value f)
  /\ (forall f, to_double o = Value f ->
      exists f', to_double (after (assign o v)) = Value f').
Proof.
  split; [| split; [| split]].
  - intros Ht.
    assert (Hb : type o <> button) by (rewrite Ht; discriminate).
    unfold assign. rewrite Ht. cbn.
    destruct (String.eqb v ""); cbn [after].
    + unfold to_std_string. rewrite Ht. reflexivity.
    + rewrite (accept_taken o v Hb). unfold to_std_string. cbn. rewrite Ht.
      reflexivity.
  - intros Ht.
    assert (Hb : type o <> button) by (rewrite Ht; discriminate).
    assert (T : forall w, to_double (after (taken o w))
                          = Value (Float32.of_int (if String.eqb w "true" then 1 else 0))).
    { intros w. apply to_double_check. exact Ht. }
    split; [| split].
    + intros ->. unfold assign. rewrite Ht. cbn. rewrite (accept_taken o _ Hb), T.
      reflexivity.
    + intros ->. unfold assign. rewrite Ht. cbn. rewrite (accept_taken o _ Hb), T.
      reflexivity.
    + intros H1 H2. apply String.eqb_neq in H1, H2.
      unfold assign. rewrite Ht, H1, H2. cbn.
      destruct (String.eqb v ""); reflexivity.
  - intros Ht Hv f Hf.
    rewrite (assign_spin o v Ht Hv), (out_of_bounds_parsed o v f Hf).
    destruct (Float32.ltb f (Float32.of_int (min o))
              || Float32.gtb f (Float32.of_int (max o))); [reflexivity |].
    rewrite accept_taken by (rewrite Ht; discriminate).
    cbn [taken after]. rewrite to_double_spin by exact Ht.
    cbn [currentValue set_currentValue]. rewrite Hf. reflexivity.
  - apply to_double_after_assign.
Qed.

Lemma assign_then_read_witness :
  to_std_string (after (assign (Option_string "hash.hsh" (Some on_HashFile)) "my.hsh"))
  = Value "my.hsh"
  /\ to_double (after (assign Threads "8")) = Value (Float32.Fin 8).
Proof.
  split.
  - apply (proj1 (assign_then_read (Option_string "hash.hsh" (Some on_HashFile)) "my.hsh")).
    reflexivity.
  - apply (proj1 (proj2 (proj2 (assign_then_read Threads "8")))
             eq_refl ltac:(discriminate) (Float32.Fin 8) eq_refl).
Defined.

(** X9. A combo takes every text that is not empty, whether or not it is
    one of the alternatives its default value lists; afterwards
    [operator==] is true of exactly the texts that differ from the text
    taken in the case of letters only. *)
Theorem combo_equals_after_assign (o : Option) (v : string) :
  type o = combo -> v <> "" ->
  currentValue (after (assign o v)) = v
  /\ forall s,
       (equals (after (assign o v)) s = Value true <-> differ_in_case_only v s)
       /\ (equals (after (assign o v)) s = Value false
           <-> ~ differ_in_case_only v s).
Proof.
  intros Ht Hv. apply String.eqb_neq in Hv.
  assert (A : after (assign o v) = set_currentValue o v).
  { unfold assign. rewrite Ht, Hv. cbn. rewrite accept_spec, Ht. reflexivity. }
  rewrite A. split; [reflexivity |]. intros s.
  unfold equals. cbn [type set_currentValue currentValue]. rewrite Ht. cbn [is_type type_name String.eqb Ascii.eqb Bool.eqb].
  change (is_type combo combo) with true. cbv iota.
  fold (same_key v s).
  destruct (same_key v s) eqn:K.
  - split; split; intros H; try reflexivity; try discriminate.
    + apply same_key_differ_in_case_only, K.
    + exfalso. apply H, same_key_differ_in_case_only, K.
  - split; split; intros H; try reflexivity; try discriminate.
    + apply differ_in_case_only_same_key in H. congruence.
    + intros C. apply differ_in_case_only_same_key in C. congruence.
Qed.

Lemma combo_equals_after_assign_witness :
  currentValue (after (assign Mode "Grey")) = "Grey"
  /\ equals (after (assign Mode "Grey")) "grey" = Value true.
Proof.
  destruct (combo_equals_after_assign Mode "Grey" eq_refl ltac:(discriminate))
    as [C E].
  split; [exact C |]. apply (proj1 (E "grey")).
  repeat (apply dico_cons || apply dico_nil);
    first [ left; reflexivity
          | right; left; split; [unfold capital; cbn; lia | reflexivity] ].
Defined.

(** The validation of [operator=] looks at the kind and the bounds of the
    option only: on two options that agree on these a text is taken by
    both or by none. *)
Lemma assign_validation (o o' : Option) (v : string) :
  type o = type o' -> min o = min o' -> max o = max o' ->
  (assign o v = accept o v /\ assign o' v = accept o' v)
  \/ (exists c, assign o v = mkAssignment o [] c
                /\ assign o' v = mkAssignment o' [] c).
Proof.
  intros Ht Hmin Hmax. unfold assign, out_of_bounds.
  rewrite <- Ht, <- Hmin, <- Hmax.
  repeat match goal with
         | |- context [if ?b then _ else _] => destruct b
         | |- context [match ?x with Parsed _ => _ | Fails _ => _ end] => destruct x
         end; eauto.
Qed.

Lemma accept_set_currentValue (o : Option) (c v : string) :
  type o <> button ->
  after (accept (set_currentValue o c) v) = after (accept o v)
  /\ map fst (fired (accept (set_currentValue o c) v)) = map fst (fired (accept o v)).
Proof.
  intros Hb. rewrite !accept_spec.
  destruct o as [d cu t mn mx i [f|]]; destruct t; cbn in *; auto; congruence.
Qed.

(** X10. Assignments one after the other.  Whether a text is taken does not
    depend on the value the option holds: the second of two assignments
    completes as it would have on the option before the first, calls the
    same action, and either wins - the option is as if the first had not
    been made - or changes nothing.  Assigning the same text again changes
    nothing more. *)
Theorem assign_twice (o : Option) (v1 v2 : string) :
  completed (assign (after (assign o v1)) v2) = completed (assign o v2)
  /\ map fst (fired (assign (after (assign o v1)) v2))
     = map fst (fired (assign o v2))
  /\ (after (assign (after (assign o v1)) v2) = after (assign o v2)
      \/ (after (assign o v2) = o
          /\ after (assign (after (assign o v1)) v2) = after (assign o v1)))
  /\ after (assign (after (assign o v1)) v1) = after (assign o v1).
Proof.
  assert (G : forall u w,
            completed (assign (after (assign o u)) w) = completed (assign o w)
            /\ map fst (fired (assign (after (assign o u)) w))
               = map fst (fired (assign o w))
            /\ (after (assign (after (assign o u)) w) = after (assign o w)
                \/ (after (assign o w) = o
                    /\ after (assign (after (assign o u)) w) = after (assign o u)))).
  { intros u w.
    destruct (after_assign_cases o u) as [E | [Hb E]]; rewrite E.
    - split; [reflexivity | split; [reflexivity | left; reflexivity]].
    - destruct (assign_validation o (set_currentValue o u) w eq_refl eq_refl eq_refl)
        as [[A1 A2] | [c [A1 A2]]]; rewrite A1, A2.
      + destruct (accept_set_currentValue o u w Hb) as [B1 B2].
        split; [rewrite !accept_spec; reflexivity |].
        split; [exact B2 | left; exact B1].
      + cbn. auto. }
  destruct (G v1 v2) as [G1 [G2 G3]].
  split; [exact G1 | split; [exact G2 | split; [exact G3 |]]].
  destruct (G v1 v1) as [_ [_ [H | [_ H]]]]; exact H.
Qed.

(** *** Text after the number *)

Lemma trailing_char_spec (c : ascii) :
  trailing_char c = true ->
  Strtof.digit_char c = None /\ Ascii.eqb c "." = false
  /\ Ascii.eqb (Strtof.lower c) "e" = false /\ Ascii.eqb "x" (Strtof.lower c) = false.
Proof.
  unfold trailing_char. destruct (Strtof.digit_char c); [discriminate |].
  rewrite !andb_true_iff, !negb_true_iff. tauto.
Qed.

Lemma point_match (c : ascii) (r0 : string) :
  Ascii.eqb c "." = false ->
  match String c r0 with
  | String "."%char t => Strtof.scan_uint t
  | _ => (Nil, String c r0)
  end = (Nil, String c r0).
Proof.
  intros H. destruct c as [[] [] [] [] [] [] [] []]; try reflexivity. discriminate H.
Qed.

Lemma scan_exponent_trailing (c : ascii) (r0 : string) :
  Ascii.eqb (Strtof.lower c) "e" = false ->
  Strtof.scan_exponent "e" (String c r0) = 0.
Proof. intros H. unfold Strtof.scan_exponent. rewrite H. reflexivity. Qed.

Lemma magnitude_digits_trailing (d : uint) (r : string) :
  d <> Nil -> trailing r ->
  exists q, Strtof.magnitude (NilEmpty.string_of_uint d ++ r) = Some (inr q)
            /\ (q == inject_Z (Z.of_uint d))%Q.
Proof.
  intros Hd Hr. destruct r as [|c r0].
  - apply magnitude_digits; auto.
  - cbn in Hr. destruct (trailing_char_spec c Hr) as [H1 [H2 [H3 H4]]].
    assert (Hdec : exists q,
               Strtof.decimal (NilEmpty.string_of_uint d ++ String c r0) = Some q
               /\ (q == inject_Z (Z.of_uint d))%Q).
    { unfold Strtof.decimal. rewrite scan_uint_digits by exact H1.
      pose proof (point_match c r0 H2) as E. cbv beta iota in E |- *. rewrite E.
      rewrite (scan_exponent_trailing c r0 H3).
      destruct d; try congruence; cbn -[Z.of_uint Z.pow Z.mul inject_Z];
        eexists; (split; [reflexivity |]);
        rewrite Z.add_0_r, Z.pow_0_r, !Z.mul_1_r; reflexivity. }
    destruct Hdec as [q [Hq Hv]]. exists q. split; auto.
    assert (S1 : Strtof.strip "inf" (NilEmpty.string_of_uint d ++ String c r0) = None)
      by (destruct d; try congruence; reflexivity).
    assert (S2 : Strtof.strip "nan" (NilEmpty.string_of_uint d ++ String c r0) = None)
      by (destruct d; try congruence; reflexivity).
    assert (S3 : Strtof.strip "0x" (NilEmpty.string_of_uint d ++ String c r0) = None).
    { destruct d; try congruence; try reflexivity.
      destruct d; try reflexivity.
      cbn [NilEmpty.string_of_uint String.append Strtof.strip]. rewrite H4.
      reflexivity. }
    unfold Strtof.magnitude. rewrite S1, S2, S3, Hq. reflexivity.
Qed.

Lemma stof_unsigned_trailing (d : uint) (r : string) :
  d <> Nil -> trailing r ->
  Float32.exact (Z.of_uint d) ->
  stof (NilEmpty.string_of_uint d ++ r)
  = Parsed (Float32.Fin (inject_Z (Z.of_uint d))).
Proof.
  intros Hd Hr Hx.
  destruct (magnitude_digits_trailing d r Hd Hr) as [q [Hm Hq]].
  unfold stof, Strtof.stof.
  replace (Strtof.skip_space (NilEmpty.string_of_uint d ++ r))
    with (NilEmpty.string_of_uint d ++ r)%string
    by (destruct d; try congruence; reflexivity).
  replace (Strtof.sign (NilEmpty.string_of_uint d ++ r))
    with (false, (NilEmpty.string_of_uint d ++ r)%string)
    by (destruct d; try congruence; reflexivity).
  rewrite Hm, (round_Qeq _ _ Hq).
  fold (Float32.of_int (Z.of_uint d)). rewrite Hx.
  rewrite (integer_no_underflow q (Z.of_uint d) _ Hq). reflexivity.
Qed.

Lemma stof_negative_trailing (d : uint) (r : string) :
  d <> Nil -> trailing r ->
  Float32.exact (- Z.of_uint d) ->
  stof (String "-" (NilEmpty.string_of_uint d ++ r))
  = Parsed (Float32.Fin (inject_Z (- Z.of_uint d))).
Proof.
  intros Hd Hr Hx.
  destruct (magnitude_digits_trailing d r Hd Hr) as [q [Hm Hq]].
  unfold stof, Strtof.stof.
  change (Strtof.skip_space (String "-" (NilEmpty.string_of_uint d ++ r)))
    with (String "-" (NilEmpty.string_of_uint d ++ r)).
  change (Strtof.sign (String "-" (NilEmpty.string_of_uint d ++ r)))
    with (true, (NilEmpty.string_of_uint d ++ r)%string).
  cbv iota. rewrite Hm.
  assert (Hq' : (- q == inject_Z (- Z.of_uint d))%Q).
  { rewrite Hq. unfold Qeq; cbn; lia. }
  rewrite (round_Qeq _ _ Hq').
  fold (Float32.of_int (- Z.of_uint d)). rewrite Hx.
  rewrite (integer_no_underflow (- q) (- Z.of_uint d) _ Hq'). reflexivity.
Qed.

(** [stof] reads the number at the head of a text and takes no notice of
    what comes after it. *)
Lemma stof_int_trailing (z : Z) (r : string) :
  trailing r -> Float32.exact z ->
  stof (show_int z ++ r) = Parsed (Float32.Fin (inject_Z z)).
Proof.
  intros Hr Hx. unfold show_int.
  destruct z as [|p|p]; cbn [Z.to_int NilZero.string_of_int].
  - apply (stof_unsigned_trailing (D0 Nil) r); auto. discriminate.
  - rewrite string_of_uint_nonnil by apply Unsigned.to_uint_nonnil.
    rewrite <- (of_uint_to_uint p) in Hx |- *.
    apply stof_unsigned_trailing; auto. apply Unsigned.to_uint_nonnil.
  - rewrite string_of_uint_nonnil by apply Unsigned.to_uint_nonnil.
    cbn [String.append].
    change (Z.neg p) with (- Z.pos p) in Hx |- *.
    rewrite <- (of_uint_to_uint p) in Hx |- *.
    apply stof_negative_trailing; auto. apply Unsigned.to_uint_nonnil.
Qed.

Lemma append_not_empty_l (a b : string) : a <> "" -> (a ++ b)%string <> "".
Proof. destruct a; cbn; [congruence | discriminate]. Qed.

(** X11. [operator=] of a spin option looks at the number at the head of
    the text only.  A text made of an integer within [min] and [max] (these
    and the integer being floats) and anything after it that does not go on
    the number - "8abc", "8 threads" - is taken as it is: [currentValue]
    becomes the whole text, the action is called, and the option reads as
    the integer. *)
Theorem spin_takes_trailing_text (o : Option) (z : Z) (r : string) :
  type o = spin -> trailing r ->
  Float32.exact z -> Float32.exact (min o) -> Float32.exact (max o) ->
  min o <= z <= max o ->
  assign o (show_int z ++ r) = taken o (show_int z ++ r)
  /\ to_double (after (assign o (show_int z ++ r)))
     = Value (Float32.Fin (inject_Z z)).
Proof.
  intros Ht Hr Hz Hlo Hhi Hb.
  assert (Hv : (show_int z ++ r)%string <> "")
    by (apply append_not_empty_l, show_int_not_empty).
  pose proof (stof_int_trailing z r Hr Hz) as Hf.
  assert (A : assign o (show_int z ++ r) = taken o (show_int z ++ r)).
  { rewrite (assign_spin o _ Ht Hv), (out_of_bounds_parsed o _ _ Hf).
    unfold Float32.exact in Hlo, Hhi. rewrite Hlo, Hhi.
    replace (Float32.ltb (Float32.Fin (inject_Z z)) (Float32.Fin (inject_Z (min o)))
             || Float32.gtb (Float32.Fin (inject_Z z)) (Float32.Fin (inject_Z (max o))))
      with false.
    - apply accept_taken. rewrite Ht. discriminate.
    - symmetry. apply bounds_test_within; [discriminate |].
      cbn. rewrite <- !Zle_Qle. exact Hb. }
  split; [exact A |].
  rewrite A. cbn [taken after]. rewrite to_double_spin by exact Ht.
  cbn [currentValue set_currentValue]. rewrite Hf. reflexivity.
Qed.

Lemma spin_takes_trailing_text_witness :
  assign Threads "8 threads" = taken Threads "8 threads"
  /\ to_double (after (assign Threads "8 threads")) = Value (Float32.Fin 8).
Proof.
  apply (spin_takes_trailing_text Threads 8 " threads").
  - reflexivity.
  - reflexivity.
  - reflexivity.
  - reflexivity.
  - reflexivity.
  - cbn. lia.
Defined.

(** *** Numbers that are always read *)

(** An integer of 25 to 31 bits is rounded to 24 bits. *)
Lemma round_pos_large (a : Z) :
  2 ^ 24 <= a < 2 ^ 31 ->
  exists m u, Float32.round_pos a 1 = (m, u) /\ 1 <= u <= 7
              /\ 2 ^ 23 <= m <= 2 ^ 24.
Proof.
  intros Ha. unfold Float32.round_pos, Float32.ilog2.
  change (Z.log2 1) with 0. rewrite Z.sub_0_r.
  assert (P : 0 < a) by lia.
  pose proof (Z.log2_spec a P) as [L1 L2].
  assert (L3 : 24 <= Z.log2 a) by (apply Z.log2_le_pow2; lia).
  assert (L4 : Z.log2 a < 31) by (apply Z.log2_lt_pow2; lia).
  destruct (Z.leb_spec 0 (Z.log2 a)); [| lia].
  rewrite Z.mul_1_l.
  destruct (Z.leb_spec (2 ^ Z.log2 a) a); [| lia].
  rewrite Z.max_l by lia.
  set (u := Z.log2 a - 23) in *.
  destruct (Z.ltb_spec u 0); [lia |].
  rewrite Z.mul_1_l.
  assert (U : 0 < 2 ^ u) by (apply Z.pow_pos_nonneg; lia).
  assert (E1 : 2 ^ Z.log2 a = 2 ^ u * 2 ^ 23).
  { rewrite <- Z.pow_add_r by lia. f_equal. lia. }
  assert (E2 : 2 ^ Z.succ (Z.log2 a) = 2 ^ u * 2 ^ 24).
  { rewrite <- Z.pow_add_r by lia. f_equal. lia. }
  assert (Q1 : 2 ^ 23 <= a / 2 ^ u) by (apply Z.div_le_lower_bound; lia).
  assert (Q2 : a / 2 ^ u < 2 ^ 24) by (apply Z.div_lt_upper_bound; lia).
  eexists. eexists. split; [reflexivity |]. split; [lia |].
  destruct (2 * (a mod 2 ^ u) <? 2 ^ u); [lia |].
  destruct (2 ^ u <? 2 * (a mod 2 ^ u)); [lia |].
  destruct (Z.even (a / 2 ^ u)); lia.
Qed.

Lemma Qabs_inject_Z_ge (k : Z) :
  k <> 0 -> Qle_bool (1 # Z.to_pos (2 ^ 126)) (Qabs (inject_Z k)) = true.
Proof.
  intros H. apply Qle_bool_iff. unfold Qle, Qabs, inject_Z. cbn -[Z.pow].
  assert (0 < 2 ^ 126) by (apply Z.pow_pos_nonneg; lia).
  rewrite Z2Pos.id by assumption. nia.
Qed.

(** The float of an [int] that is not 0 is finite and not in the range of
    underflow. *)
Lemma of_int_normal (z : Z) :
  is_int z -> z <> 0 ->
  exists y, Float32.of_int z = Float32.Fin y
            /\ Qle_bool (1 # Z.to_pos (2 ^ 126)) (Qabs y) = true.
Proof.
  intros Hi Hz. unfold is_int in Hi.
  destruct (Z_le_gt_dec (Z.abs z) (2 ^ 24)) as [Hs | Hl].
  - exists (inject_Z z). split; [apply exact_small; lia | apply Qabs_inject_Z_ge, Hz].
  - unfold Float32.of_int, Float32.round.
    rewrite Qred_inject_Z. cbn [inject_Z Qnum Qden].
    destruct (Z.eqb_spec z 0) as [-> | _]; [congruence |].
    destruct (Z.eq_dec z (- 2 ^ 31)) as [-> | Hm].
    { eexists. split; [vm_compute; reflexivity | reflexivity]. }
    destruct (round_pos_large (Z.abs z)) as [m [u [R [Hu Hm']]]]; [lia |].
    rewrite R. cbn [fst snd Float32.overflows].
    assert (U : 0 < 2 ^ u <= 2 ^ 7).
    { split; [apply Z.pow_pos_nonneg; lia | apply Z.pow_le_mono_r; lia]. }
    rewrite Z.max_l by lia.
    destruct (Z.leb_spec (2 ^ 128) (m * 2 ^ u)) as [H | H].
    + exfalso. assert (m * 2 ^ u <= 2 ^ 24 * 2 ^ 7) by nia.
      change (2 ^ 24 * 2 ^ 7) with (2 ^ 31) in *.
      assert (2 ^ 31 < 2 ^ 128) by (apply Z.pow_lt_mono_r; lia). lia.
    + eexists. split; [reflexivity |]. unfold Float32.scale2.
      destruct (Z.leb_spec 0 u); [| lia].
      apply Qabs_inject_Z_ge.
      assert (M : 0 < m * 2 ^ u) by (apply Z.mul_pos_pos; lia).
      rewrite <- Z.mul_assoc.
      destruct z as [|p|p]; [congruence | |].
      * change (Z.sgn (Z.pos p)) with 1. lia.
      * change (Z.sgn (Z.neg p)) with (-1). lia.
Qed.

(** [stof] reads the text of any [int], as [os << z] or [to_string] makes
    it, to the float of that [int]. *)
Lemma stof_unsigned_any (d : uint) (r : string) :
  d <> Nil -> r = "" \/ r = ".000000" -> is_int (Z.of_uint d) ->
  stof (NilEmpty.string_of_uint d ++ r) = Parsed (Float32.of_int (Z.of_uint d)).
Proof.
  intros Hd Hr Hi.
  destruct (Z.eq_dec (Z.of_uint d) 0) as [E0 | N0].
  - rewrite E0. rewrite <- E0 at 1.
    rewrite (stof_unsigned d r Hd Hr) by (rewrite E0; reflexivity).
    rewrite E0. reflexivity.
  - destruct (of_int_normal _ Hi N0) as [y [Hy Hn]].
    destruct (magnitude_digits d r Hd Hr) as [q [Hm Hq]].
    unfold stof, Strtof.stof.
    replace (Strtof.skip_space (NilEmpty.string_of_uint d ++ r))
      with (NilEmpty.string_of_uint d ++ r)%string
      by (destruct d; try congruence; reflexivity).
    replace (Strtof.sign (NilEmpty.string_of_uint d ++ r))
      with (false, (NilEmpty.string_of_uint d ++ r)%string)
      by (destruct d; try congruence; reflexivity).
    rewrite Hm, (round_Qeq _ _ Hq).
    fold (Float32.of_int (Z.of_uint d)). rewrite Hy.
    rewrite (integer_no_underflow q (Z.of_uint d) _ Hq). reflexivity.
Qed.

Lemma stof_negative_any (d : uint) (r : string) :
  d <> Nil -> r = "" \/ r = ".000000" -> is_int (- Z.of_uint d) ->
  Z.of_uint d <> 0 ->
  stof (String "-" (NilEmpty.string_of_uint d ++ r))
  = Parsed (Float32.of_int (- Z.of_uint d)).
Proof.
  intros Hd Hr Hi N0.
  destruct (of_int_normal _ Hi ltac:(lia)) as [y [Hy Hn]].
  destruct (magnitude_digits d r Hd Hr) as [q [Hm Hq]].
  unfold stof, Strtof.stof.
  change (Strtof.skip_space (String "-" (NilEmpty.string_of_uint d ++ r)))
    with (String "-" (NilEmpty.string_of_uint d ++ r)).
  change (Strtof.sign (String "-" (NilEmpty.string_of_uint d ++ r)))
    with (true, (NilEmpty.string_of_uint d ++ r)%string).
  cbv iota. rewrite Hm.
  assert (Hq' : (- q == inject_Z (- Z.of_uint d))%Q).
  { rewrite Hq. unfold Qeq; cbn; lia. }
  rewrite (round_Qeq _ _ Hq').
  fold (Float32.of_int (- Z.of_uint d)). rewrite Hy.
  rewrite (integer_no_underflow (- q) (- Z.of_uint d) _ Hq'). reflexivity.
Qed.

Lemma stof_to_string_any (z : Z) :
  is_int z -> stof (to_string z) = Parsed (Float32.of_int z).
Proof.
  intros Hi. unfold to_string, show_int.
  destruct z as [|p|p]; cbn [Z.to_int NilZero.string_of_int].
  - reflexivity.
  - rewrite string_of_uint_nonnil by apply Unsigned.to_uint_nonnil.
    rewrite <- (of_uint_to_uint p) in Hi |- *.
    apply stof_unsigned_any; auto. apply Unsigned.to_uint_nonnil.
  - rewrite string_of_uint_nonnil by apply Unsigned.to_uint_nonnil.
    cbn [String.append].
    change (Z.neg p) with (- Z.pos p) in Hi |- *.
    rewrite <- (of_uint_to_uint p) in Hi |- *.
    apply stof_negative_any; auto; [apply Unsigned.to_uint_nonnil |].
    rewrite of_uint_to_uint. discriminate.
Qed.

(** X12. [operator double] never fails on a spin or a check option that a
    constructor made, whatever was assigned to it since.  A spin option
    built from an [int] reads as the float of that [int] (the text
    [to_string] made is read back by [stof] without an exception); a check
    reads as 1 or 0; and after any run of assignments, taken or not, the
    conversion still returns a number: no [std::invalid_argument], no
    [std::out_of_range], and its [assert] holds. *)
Theorem numbers_always_read (vs : list string) :
  (forall v lo hi f,
     is_int v ->
     to_double (Option_spin v lo hi f) = Value (Float32.of_int v)
     /\ exists x, to_double (assigned (Option_spin v lo hi f) vs) = Value x)
  /\ (forall b f,
        to_double (Option_check b f) = Value (Float32.Fin (if b then 1 else 0))
        /\ exists x, to_double (assigned (Option_check b f) vs) = Value x).
Proof.
  assert (G : forall o x, to_double o = Value x ->
              exists x', to_double (assigned o vs) = Value x').
  { unfold assigned. induction vs as [|v vs IH]; intros o x Hx; [eauto |].
    cbn [fold_left]. destruct (to_double_after_assign o v x Hx) as [x' Hx'].
    apply (IH _ x' Hx'). }
  split.
  - intros v lo hi f Hi.
    assert (E : to_double (Option_spin v lo hi f) = Value (Float32.of_int v)).
    { unfold to_double, Option_spin. cbn. rewrite (stof_to_string_any v Hi).
      reflexivity. }
    split; [exact E | apply (G _ _ E)].
  - intros b f.
    assert (E : to_double (Option_check b f)
                = Value (Float32.Fin (if b then 1 else 0)))
      by (destruct b; reflexivity).
    split; [exact E | apply (G _ _ E)].
Qed.

Lemma numbers_always_read_witness :
  to_double (Option_spin 16777217 0 33554434 None) = Value (Float32.Fin 16777216)
  /\ exists x,
       to_double (assigned (Option_spin 16777217 0 33554434 None) ["abc"; "nan"; ""])
       = Value x.
Proof.
  apply (proj1 (numbers_always_read ["abc"; "nan"; ""]) 16777217 0 33554434 None).
  unfold is_int. lia.
Defined.

(** *** Infinities *)

Lemma of_int_finite (z : Z) : is_int z -> exists y, Float32.of_int z = Float32.Fin y.
Proof.
  intros Hi. destruct (Z.eq_dec z 0) as [-> | Hz].
  - exists 0%Q. reflexivity.
  - destruct (of_int_normal z Hi Hz) as [y [Hy _]]. eauto.
Qed.

(** X13. A spin option never takes an infinity.  Whatever its bounds (they
    are [int]s, so their floats are finite), a text that [std::stof] reads
    as plus or minus infinity - "inf", "-Infinity", ... - is above [max] or
    below [min]: nothing is written, no action is called and no exception
    is thrown.  NaN is the only value that is no number and passes the
    test. *)
Theorem spin_rejects_infinity (o : Option) (v : string) (negative : bool) :
  type o = spin -> is_int (min o) -> is_int (max o) ->
  stof v = Parsed (Float32.Inf negative) ->
  assign o v = mkAssignment o [] Normal.
Proof.
  intros Ht Hlo Hhi Hf.
  assert (Hv : v <> "") by (intros ->; discriminate Hf).
  rewrite (assign_spin o v Ht Hv), (out_of_bounds_parsed o v _ Hf).
  destruct (of_int_finite _ Hlo) as [lo ->].
  destruct (of_int_finite _ Hhi) as [hi ->].
  destruct negative; reflexivity.
Qed.

Lemma spin_rejects_infinity_witness :
  assign Threads "inf" = mkAssignment Threads [] Normal
  /\ assign Threads "-Infinity" = mkAssignment Threads [] Normal.
Proof.
  split.
  - apply (spin_rejects_infinity Threads "inf" false eq_refl); [| | reflexivity];
      unfold is_int; cbn; lia.
  - apply (spin_rejects_infinity Threads "-Infinity" true eq_refl); [| | reflexivity];
      unfold is_int; cbn; lia.
Defined.

(** *** The printer and the current values *)

Lemma print_option_same_listing (name : string) (o o' : Option) (os : string) :
  same_listing o o' -> print_option name o os = print_option name o' os.
Proof.
  intros [H1 [H2 [H3 [H4 _]]]]. unfold print_option.
  rewrite H1, H2, H3, H4. reflexivity.
Qed.

Lemma with_idx_same_line (om om' : OptionsMap) (i : N) :
  Forall2 same_line om om' ->
  match with_idx om i, with_idx om' i with
  | Some e, Some e' => same_line e e'
  | None, None => True
  | _, _ => False
  end.
Proof.
  unfold with_idx. induction 1 as [|e e' om om' He _ IH]; cbn [List.find]; [exact I |].
  pose proof He as [_ [_ [_ [_ [_ H5]]]]]. rewrite <- H5.
  destruct (idx (snd e)) as [j|]; [| exact IH].
  destruct (N.eqb j i); [exact He | exact IH].
Qed.

Lemma for_each_ext {St A} (l : list A) (F G : A -> M St unit) :
  (forall x s, F x s = G x s) -> forall s, for_each l F s = for_each l G s.
Proof.
  intros H. induction l as [|x l IH]; intros s; cbn; [reflexivity |].
  unfold bind. rewrite H. destruct (G x s); auto.
Qed.

Lemma reads_unassigned_same_line (om om' : OptionsMap) (i : N) :
  Forall2 same_line om om' -> reads_unassigned om i = reads_unassigned om' i.
Proof.
  induction 1 as [|e e' om om' He _ IH]; cbn [reads_unassigned]; [reflexivity |].
  pose proof He as [_ [_ [_ [_ [_ H5]]]]]. rewrite <- H5.
  destruct (idx (snd e)) as [j|]; [| reflexivity].
  destruct (N.eqb j i); [reflexivity | exact IH].
Qed.

Lemma print_same_lines (om om' : OptionsMap) (os : string) :
  Forall2 same_line om om' -> print om os = print om' os.
Proof.
  intros H. unfold print. rewrite (Forall2_length H).
  apply for_each_ext. intros i s.
  rewrite (reads_unassigned_same_line om om' i H).
  destruct (reads_unassigned om' i); [reflexivity |].
  pose proof (with_idx_same_line om om' i H) as W.
  destruct (with_idx om i) as [[k o]|], (with_idx om' i) as [[k' o']|];
    try contradiction; [| reflexivity].
  destruct W as [Hk Hl]. cbn in Hk, Hl. subst k'.
  apply print_option_same_listing, Hl.
Qed.

Lemma same_line_refl (om : OptionsMap) : Forall2 same_line om om.
Proof.
  induction om as [|e om IH]; constructor; [| exact IH].
  unfold same_line, same_listing. auto 10.
Qed.

Lemma update_same_lines (om : OptionsMap) (n : string) (g : Option -> Option) :
  (forall o, same_listing o (g o)) -> Forall2 same_line om (update om n g).
Proof.
  intros Hg. induction om as [|[k o] om IH]; cbn; [constructor |].
  destruct (CaseInsensitiveLess k n).
  - constructor; [| exact IH]. unfold same_line, same_listing. auto 10.
  - destruct (CaseInsensitiveLess n k).
    + apply same_line_refl.
    + constructor; [| apply same_line_refl]. split; [reflexivity | apply Hg].
Qed.

Lemma assigned_same_listing (o : Option) (vs : list string) :
  same_listing o (assigned o vs).
Proof.
  unfold assigned. revert o. induction vs as [|v vs IH]; intros o.
  - unfold same_listing. auto 10.
  - cbn [fold_left].
    assert (S : same_listing o (after (assign o v))).
    { destruct (after_assign_cases o v) as [E | [_ E]]; rewrite E;
        unfold same_listing; destruct o; cbn; auto 10. }
    destruct S as [A1 [A2 [A3 [A4 A5]]]].
    destruct (IH (after (assign o v))) as [B1 [B2 [B3 [B4 B5]]]].
    unfold same_listing. repeat split; congruence.
Qed.

(** X14. The printer takes no notice of the current values.  Whatever
    texts are assigned to the option under a name of the registry, taken or
    not, the registry is printed as before: same lines, same order, same
    default values.  (The printer writes [defaultValue], which [operator=]
    never writes, and finds its way by [idx].) *)
Theorem print_ignores_current_values (om : OptionsMap) (n : string)
    (vs : list string) (os : string) :
  print (update om n (fun o => assigned o vs)) os = print om os.
Proof.
  symmetry. apply print_same_lines, update_same_lines.
  intros o. apply assigned_same_listing.
Qed.

(** *** [init] *)

Lemma to_double_Option_spin (v lo hi : Z) (f : option OnChange) (i : N) :
  - 2 ^ 24 <= v <= 2 ^ 24 ->
  to_double (set_idx (Option_spin v lo hi f) i) = Value (Float32.Fin (inject_Z v)).
Proof.
  intros H. unfold to_double, Option_spin, set_idx. cbn.
  rewrite (stof_to_string _ (exact_small _ H)). reflexivity.
Qed.

Lemma Value_Fin_inj (x y : Z) :
  Value (Float32.Fin (inject_Z x)) = Value (Float32.Fin (inject_Z y)) -> x = y.
Proof. intros H. injection H. auto. Qed.

(** X15. [init] on the registry of a program that starts, whatever
    [Is64Bit] and the number [n] of hardware threads (up to 2^24): the
    registry holds 25 options, in the order of the comparator, and the
    counter of insertions is at 25; [Threads] has the default [n], or 1 when
    [n] is 0; and the default of every spin option lies within its [min] and
    [max] if and only if [n] is at most 512 - with more hardware threads
    the default of [Threads] is above its [max]. *)
Theorem init_registers_options (Is64Bit : bool) (n : Z) :
  0 <= n <= 2 ^ 24 ->
  List.length (fst (init Is64Bit n ([], 0%N))) = 25%nat
  /\ snd (init Is64Bit n ([], 0%N)) = 25%N
  /\ sorted (fst (init Is64Bit n ([], 0%N)))
  /\ find (fst (init Is64Bit n ([], 0%N))) "threads"
     = Some ("Threads",
             set_idx (Option_spin (if n =? 0 then 1 else n) 1 512 (Some on_threads)) 3)
  /\ (Forall (fun e => type (snd e) = spin ->
                exists x, to_double (snd e) = Value (Float32.Fin (inject_Z x))
                          /\ min (snd e) <= x <= max (snd e))
             (fst (init Is64Bit n ([], 0%N)))
      <-> n <= 512).
Proof.
  intros Hn. unfold init. cbv zeta.
  set (t := if n =? 0 then 1 else n).
  assert (Ht : 1 <= t <= 2 ^ 24 /\ (t <= 512 <-> n <= 512)).
  { unfold t. destruct (Z.eqb_spec n 0); lia. }
  clearbody t. destruct Ht as [Ht Hle].
  set (h := if Is64Bit then 131072 else 2048).
  assert (Hh : 16 <= h) by (unfold h; destruct Is64Bit; lia).
  clearbody h.
  match goal with
  | |- context [insert_all ?L _] =>
      destruct (insert_all_numbered L [] [] (SSorted_nil _) (Permutation_refl _))
        as [S [P C]]
  end.
  { cbn [map fst List.app]. cbn [distinct_keys].
    repeat split; repeat constructor. }
  cbn [List.app List.length N.of_nat] in S, P, C.
  split; [| split; [| split; [| split]]].
  - pose proof (Permutation_length P) as PL. rewrite length_numbered in PL.
    exact PL.
  - exact C.
  - exact S.
  - rewrite (find_same_key _ "threads" "Threads" eq_refl).
    apply find_sorted_In; [exact S |].
    apply (Permutation_in _ (Permutation_sym P)).
    cbn [numbered]. do 3 right. left. reflexivity.
  - split.
    + intros H. apply (Permutation_Forall P) in H.
      cbn [numbered N.add Pos.add Pos.succ] in H.
      rewrite !Forall_cons_iff in H. cbn [snd] in H. apply Hle.
      destruct H as [_ [_ [_ [H _]]]]. destruct H as [x [Hx Hb]]; [reflexivity |].
      rewrite (to_double_Option_spin t 1 512 _ _) in Hx by lia.
      apply Value_Fin_inj in Hx. subst x. cbn in Hb. lia.
    + intros H. apply Hle in H. apply (Permutation_Forall (Permutation_sym P)).
      cbn [numbered N.add Pos.add Pos.succ].
      rewrite !Forall_cons_iff. cbn [snd].
      repeat match goal with
             | |- _ /\ _ => split
             | |- Forall _ [] => constructor
             | |- type (set_idx (Option_string _ _) _) = spin -> _ =>
                 intros C0; discriminate C0
             | |- type (set_idx (Option_check _ _) _) = spin -> _ =>
                 intros C0; discriminate C0
             | |- type (set_idx (Option_combo _ _ _) _) = spin -> _ =>
                 intros C0; discriminate C0
             | |- type (set_idx (Option_button _) _) = spin -> _ =>
                 intros C0; discriminate C0
             | |- type (set_idx (Option_spin ?v ?lo ?hi ?f) ?i) = spin -> _ =>
                 intros _; exists v;
                 split; [apply to_double_Option_spin; lia | cbn; lia]
             end.
Qed.

Lemma init_registers_options_witness :
  List.length (fst (init true 8 ([], 0%N))) = 25%nat
  /\ find (fst (init true 8 ([], 0%N))) "threads"
     = Some ("Threads", set_idx (Option_spin 8 1 512 (Some on_threads)) 3).
Proof.
  destruct (init_registers_options true 8) as [L [_ [_ [F _]]]]; [lia |].
  split; [exact L | exact F].
Defined.

(** *** Making an option and reading it again *)

Lemma small_is_int (z : Z) : - 2 ^ 24 <= z <= 2 ^ 24 -> is_int z.
Proof. unfold is_int. lia. Qed.

(** Reading the option [make_option] made gives the value it was made
    with, when that value is a float. *)
Lemma option_as_int_tuned (w w1 : Tune.World) (n k : string) (v : Z)
    (r : Tune.SetRange) (c : N) :
  find (Tune.Options w1) n = Some (k, set_idx (tuned w n v r) c) ->
  - 2 ^ 24 <= overridden w n v <= 2 ^ 24 ->
  Tune.option_as_int n w1 = Ok (overridden w n v) w1.
Proof.
  intros Hf Hx. unfold Tune.option_as_int, bind, get. rewrite Hf.
  rewrite (to_double_tuned w n v r c (exact_small _ Hx)). unfold lift.
  rewrite (to_int_inject_Z _ (small_is_int _ Hx)). reflexivity.
Qed.

(** The guarded read [if (Options.count(n)) value = ... Options[n] ...]. *)
Lemma guarded_read {A} (w w1 : Tune.World) (n : string) (v : Z)
    (r : Tune.SetRange) (c : N) (F : Z -> A) (d : A) :
  option_map snd (find (Tune.Options w1) n)
  = option_map snd (half_entry w n v r c) ->
  (degenerate r v = false -> - 2 ^ 24 <= overridden w n v <= 2 ^ 24) ->
  (if (0 <? count (Tune.Options w1) n)%nat
   then z <- Tune.option_as_int n;; ret (F z)
   else ret d) w1
  = Ok (if degenerate r v then d else F (overridden w n v)) w1.
Proof.
  intros Hf Hx. unfold count, half_entry in *.
  destruct (degenerate r v).
  - destruct (find (Tune.Options w1) n); [discriminate | reflexivity].
  - destruct (find (Tune.Options w1) n) as [[k o]|] eqn:E; [| discriminate].
    cbn in Hf. injection Hf as ->. cbn [Nat.ltb Nat.leb].
    unfold bind. rewrite (option_as_int_tuned w w1 n k v r c E (Hx eq_refl)).
    reflexivity.
Qed.

(** X16. Making the option of a parameter bound to an [int] (or a
    [Value]) and reading it again.  When the range of the value is not
    degenerate, [init_option] and then [read_option] give the parameter the
    value the option was made with - the recorded tuning result for the
    name, else the value the parameter had - provided that value is a float
    (every integer up to 2^24 in magnitude is); the registry is not touched
    by the read.  When the range is degenerate and the name is no key,
    nothing is made and [read_option] leaves the parameter as it is. *)
Theorem init_then_read_int (e : Tune.Entry) (v : Z) (w : Tune.World)
    (mk : Z -> Tune.Bound) :
  mk = Tune.of_int \/ mk = Tune.of_Value ->
  Tune.value e = mk v ->
  (fst (Tune.range e v) <> snd (Tune.range e v) ->
   - 2 ^ 24 <= overridden w (Tune.name e) v <= 2 ^ 24 ->
   exists w1 w2,
     Tune.init_option e w = Ok tt w1
     /\ Tune.read_option e w1 = Ok (mk (overridden w (Tune.name e) v)) w2
     /\ Tune.Options w2 = Tune.Options w1)
  /\ (fst (Tune.range e v) = snd (Tune.range e v) ->
      find (Tune.Options w) (Tune.name e) = None ->
      exists w2,
        Tune.init_option e w = Ok tt w
        /\ Tune.read_option e w = Ok (mk v) w2
        /\ Tune.Options w2 = Tune.Options w).
Proof.
  intros Hmk Hv.
  assert (I : Tune.init_option e w = Tune.make_option (Tune.name e) v (Tune.range e) w).
  { unfold Tune.init_option. rewrite Hv. destruct Hmk; subst mk; reflexivity. }
  assert (R : forall w1 c,
            option_map snd (find (Tune.Options w1) (Tune.name e))
            = option_map snd (half_entry w (Tune.name e) v (Tune.range e) c) ->
            (degenerate (Tune.range e) v = false ->
             - 2 ^ 24 <= overridden w (Tune.name e) v <= 2 ^ 24) ->
            Tune.read_option e w1
            = Ok (if degenerate (Tune.range e) v then mk v
                  else mk (overridden w (Tune.name e) v))
                 (Tune.emit (Tune.Read (Tune.name e)) w1)).
  { intros w1 c Hf Hx. unfold Tune.read_option. unfold bind at 1. unfold modify at 1.
    set (w0 := Tune.emit (Tune.Read (Tune.name e)) w1).
    change (Tune.Options w1) with (Tune.Options w0) in Hf.
    rewrite Hv. destruct Hmk; subst mk; unfold bind at 1; unfold get at 1;
      apply (guarded_read w w0 (Tune.name e) v (Tune.range e) c); assumption. }
  split.
  - intros Hd Hx. apply Z.eqb_neq in Hd. fold (degenerate (Tune.range e) v) in Hd.
    rewrite I, (make_option_run _ _ _ _ Hd).
    eexists. eexists. split; [reflexivity |].
    rewrite (R _ (Tune.insert_order w)).
    + rewrite Hd. split; reflexivity.
    + cbn [Tune.Options]. rewrite find_insert. unfold half_entry. rewrite Hd.
      reflexivity.
    + intros _. exact Hx.
  - intros Hd Hn. apply Z.eqb_eq in Hd. fold (degenerate (Tune.range e) v) in Hd.
    rewrite I, (make_option_skip _ _ _ _ Hd).
    eexists. split; [reflexivity |].
    rewrite (R w 0%N).
    + rewrite Hd. split; reflexivity.
    + unfold half_entry. rewrite Hd, Hn. reflexivity.
    + intros C. congruence.
Qed.

Lemma init_then_read_int_witness :
  exists w1 w2,
    Tune.init_option (Tune.mkEntry "A" (Tune.of_int 5) twice) (Tune.start []) = Ok tt w1
    /\ Tune.read_option (Tune.mkEntry "A" (Tune.of_int 5) twice) w1
       = Ok (Tune.of_int 5) w2
    /\ Tune.Options w2 = Tune.Options w1.
Proof.
  apply (proj1 (init_then_read_int (Tune.mkEntry "A" (Tune.of_int 5) twice) 5
                  (Tune.start []) Tune.of_int (or_introl eq_refl) eq_refl)).
  - cbn. discriminate.
  - cbn. lia.
Defined.

(** A value that is no float does not come back: 16777217 is read as
    16777216. *)
Example large_value_read_back :
  exists w1 w2,
    Tune.init_option (Tune.mkEntry "A" (Tune.of_int 16777217) twice) (Tune.start [])
    = Ok tt w1
    /\ Tune.read_option (Tune.mkEntry "A" (Tune.of_int 16777217) twice) w1
       = Ok (Tune.of_int 16777216) w2.
Proof.
  eexists. eexists. split; [vm_compute; reflexivity | vm_compute; reflexivity].
Qed.

(** X17. The same for a score: in a registry where [mFoo] and [eFoo] are
    no keys, [init_option] and then [read_option] leave each half whose
    range is degenerate as it is, and give each other half the value its
    option was made with (the recorded result for [mFoo] or [eFoo], else
    the half itself), provided that value is a float. *)
Theorem init_then_read_score (e : Tune.Entry) (s : Tune.Score) (w : Tune.World) :
  Tune.value e = Tune.of_Score s ->
  sorted (Tune.Options w) ->
  find (Tune.Options w) ("m" ++ Tune.name e) = None ->
  find (Tune.Options w) ("e" ++ Tune.name e) = None ->
  (degenerate (Tune.range e) (Tune.mg_value s) = false ->
   - 2 ^ 24 <= overridden w ("m" ++ Tune.name e) (Tune.mg_value s) <= 2 ^ 24) ->
  (degenerate (Tune.range e) (Tune.eg_value s) = false ->
   - 2 ^ 24 <= overridden w ("e" ++ Tune.name e) (Tune.eg_value s) <= 2 ^ 24) ->
  exists w1 w2,
    Tune.init_option e w = Ok tt w1
    /\ Tune.read_option e w1
       = Ok (Tune.of_Score
               (Tune.make_score
                  (half_value w ("m" ++ Tune.name e) (Tune.mg_value s) (Tune.range e))
                  (half_value w ("e" ++ Tune.name e) (Tune.eg_value s) (Tune.range e))))
            w2
    /\ Tune.Options w2 = Tune.Options w1.
Proof.
  intros Hv Hs Hm He Xm Xe.
  destruct (halves_not_same_key (Tune.name e)) as [Hme Hem].
  destruct (make_option_fresh ("m" ++ Tune.name e) (Tune.mg_value s) (Tune.range e) w Hs Hm)
    as [w1 [R1 [S1 [F1 [O1 [_ [C1 T1]]]]]]].
  assert (He1 : find (Tune.Options w1) ("e" ++ Tune.name e) = None)
    by (rewrite O1; assumption).
  destruct (make_option_fresh ("e" ++ Tune.name e) (Tune.eg_value s) (Tune.range e) w1 S1 He1)
    as [w2 [R2 [S2 [F2 [O2 [_ [C2 T2]]]]]]].
  rewrite (half_entry_TuneResults w w1 _ _ _ _ T1) in F2.
  rewrite <- (O2 _ Hem) in F1.
  exists w2, (Tune.emit (Tune.Read (Tune.name e)) w2).
  split; [| split; [| reflexivity]].
  - unfold Tune.init_option. rewrite Hv. unfold bind. rewrite R1. exact R2.
  - unfold Tune.read_option. unfold bind at 1. unfold modify at 1.
    set (w0 := Tune.emit (Tune.Read (Tune.name e)) w2).
    change (Tune.Options w2) with (Tune.Options w0) in F1, F2.
    rewrite Hv. unfold bind at 1. unfold get at 1. unfold bind at 1.
    rewrite (guarded_read w w0 ("m" ++ Tune.name e) (Tune.mg_value s) (Tune.range e) _
               (fun z => Tune.make_score z (Tune.eg_value s)) s
               (f_equal (option_map snd) F1) Xm).
    unfold bind at 1.
    rewrite (guarded_read w w0 ("e" ++ Tune.name e) (Tune.eg_value s) (Tune.range e) _
               (fun z => Tune.make_score
                           (Tune.mg_value
                              (if degenerate (Tune.range e) (Tune.mg_value s) then s
                               else Tune.make_score
                                      (overridden w ("m" ++ Tune.name e) (Tune.mg_value s))
                                      (Tune.eg_value s))) z)
               (if degenerate (Tune.range e) (Tune.mg_value s) then s
                else Tune.make_score
                       (overridden w ("m" ++ Tune.name e) (Tune.mg_value s))
                       (Tune.eg_value s))
               (f_equal (option_map snd) F2) Xe).
    unfold ret, half_value.
    destruct (degenerate (Tune.range e) (Tune.mg_value s)),
             (degenerate (Tune.range e) (Tune.eg_value s)), s; reflexivity.
Qed.

Lemma init_then_read_score_witness :
  exists w1 w2,
    Tune.init_option (Foo 0 10 twice) (Tune.start []) = Ok tt w1
    /\ Tune.read_option (Foo 0 10 twice) w1
       = Ok (Tune.of_Score (Tune.make_score 0 10)) w2
    /\ Tune.Options w2 = Tune.Options w1.
Proof.
  apply (init_then_read_score (Foo 0 10 twice) (Tune.make_score 0 10) (Tune.start [])).
  - reflexivity.
  - constructor.
  - reflexivity.
  - reflexivity.
  - cbn. discriminate.
  - cbn. intros _. lia.
Defined.

(** *** [LastOption] and the output of a run of [init_option] *)











(** *** [Tune::next] *)

Lemma length_append (a b : string) :
  String.length (a ++ b) = (String.length a + String.length b)%nat.
Proof. induction a as [|c a IH]; cbn; [reflexivity | rewrite IH; reflexivity]. Qed.

Lemma every_app (p : ascii -> bool) (a b : string) :
  every p (a ++ b) = every p a && every p b.
Proof.
  induction a as [|c a IH]; cbn; [reflexivity |].
  rewrite IH, andb_assoc. reflexivity.
Qed.

Lemma every_impl (p q : ascii -> bool) (s : string) :
  (forall c, p c = true -> q c = true) -> every p s = true -> every q s = true.
Proof.
  intros H. induction s as [|c s IH]; cbn; [reflexivity |].
  rewrite !andb_true_iff. intros [H1 H2]. auto.
Qed.

Lemma solid_no_comma (c : ascii) : solid_char c = true -> Ascii.eqb c "," = false.
Proof.
  unfold solid_char. rewrite andb_true_iff, !negb_true_iff. tauto.
Qed.

Lemma solid_no_space (c : ascii) : solid_char c = true -> Strtof.isspace c = false.
Proof.
  unfold solid_char. rewrite andb_true_iff, !negb_true_iff. tauto.
Qed.

Lemma space_no_comma (c : ascii) : Strtof.isspace c = true -> Ascii.eqb c "," = false.
Proof.
  intros H. destruct (Ascii.eqb_spec c ","); [subst; discriminate | reflexivity].
Qed.

Lemma plain_solid (c : ascii) : plain_char c = true -> solid_char c = true.
Proof. unfold plain_char. rewrite !andb_true_iff. tauto. Qed.

(** There is no comma in [p]. *)
Lemma find_char_none (p : string) :
  every (fun c => negb (Ascii.eqb c ",")) p = true ->
  Tune.find_char "," p = None.
Proof.
  induction p as [|c p IH]; cbn; [reflexivity |].
  rewrite andb_true_iff, negb_true_iff. intros [-> H]. rewrite IH; auto.
Qed.

Lemma find_char_comma (p r : string) :
  every (fun c => negb (Ascii.eqb c ",")) p = true ->
  Tune.find_char "," (p ++ String "," r) = Some (String.length p).
Proof.
  induction p as [|c p IH]; cbn; [reflexivity |].
  rewrite andb_true_iff, negb_true_iff. intros [-> H]. rewrite IH; auto.
Qed.

Lemma take_append (p r : string) : Tune.take (String.length p) (p ++ r) = p.
Proof.
  induction p as [|c p IH]; cbn; [destruct r; reflexivity | rewrite IH; reflexivity].
Qed.

Lemma erase_comma (p r : string) (c : ascii) :
  Tune.erase (String.length p + 1) (p ++ String c r) = r.
Proof. induction p as [|a p IH]; cbn; [destruct r; reflexivity | exact IH]. Qed.

Lemma erase_all (p : string) : Tune.erase (String.length p + 1) p = "".
Proof. induction p as [|a p IH]; cbn; [reflexivity | exact IH]. Qed.

Lemma padded_no_comma (pad t : string) :
  blank pad -> every solid_char t = true ->
  every (fun c => negb (Ascii.eqb c ",")) (pad ++ t) = true.
Proof.
  intros Hp Ht. rewrite every_app, andb_true_iff. split.
  - apply (every_impl Strtof.isspace); [| exact Hp].
    intros c H. rewrite (space_no_comma c H). reflexivity.
  - apply (every_impl solid_char); [| exact Ht].
    intros c H. rewrite (solid_no_comma c H). reflexivity.
Qed.

(** A field that ends [names], and one with a comma after it. *)
Lemma field_last (pad t : string) :
  blank pad -> every solid_char t = true ->
  first_field (pad ++ t) = (pad ++ t)%string.
Proof.
  intros Hp Ht. unfold first_field.
  rewrite (find_char_none _ (padded_no_comma pad t Hp Ht)). reflexivity.
Qed.

Lemma field_before_comma (pad t r : string) :
  blank pad -> every solid_char t = true ->
  first_field ((pad ++ t) ++ String "," r) = (pad ++ t)%string.
Proof.
  intros Hp Ht. unfold first_field.
  rewrite (find_char_comma _ r (padded_no_comma pad t Hp Ht)).
  cbn [Tune.substr]. apply take_append.
Qed.

Lemma word_solid (t : string) : every solid_char t = true -> Tune.word t = t.
Proof.
  induction t as [|c t IH]; cbn; [reflexivity |].
  rewrite andb_true_iff. intros [Hc Ht].
  rewrite (solid_no_space c Hc), IH; auto.
Qed.

(** The extraction takes a field without the blanks before it. *)
Lemma extract_padded (pad t : string) :
  blank pad -> t <> "" -> every solid_char t = true ->
  Tune.extract (pad ++ t) = t.
Proof.
  intros Hp Hn Ht. unfold Tune.extract.
  assert (S : Strtof.skip_space (pad ++ t) = t).
  { induction pad as [|c pad IH]; cbn.
    - destruct t as [|a t]; [congruence |]. cbn in Ht |- *.
      apply andb_true_iff in Ht. rewrite (solid_no_space a (proj1 Ht)). reflexivity.
    - unfold blank in Hp. cbn in Hp. apply andb_true_iff in Hp.
      destruct Hp as [Hc Hp]. rewrite Hc. apply IH, Hp. }
  rewrite S. destruct t as [|a t]; [congruence |]. apply word_solid, Ht.
Qed.

Lemma count_char_app (c : ascii) (a b : string) :
  Tune.count_char c (a ++ b) = Tune.count_char c a + Tune.count_char c b.
Proof. induction a as [|x a IH]; cbn; [reflexivity | rewrite IH; lia]. Qed.

Lemma balance_app (a b : string) : balance (a ++ b) = balance a + balance b.
Proof. unfold balance. rewrite !count_char_app. lia. Qed.

Lemma balance_plain (s : string) : every plain_char s = true -> balance s = 0.
Proof.
  unfold balance. induction s as [|c s IH]; cbn; [reflexivity |].
  rewrite andb_true_iff. unfold plain_char at 1.
  rewrite !andb_true_iff, !negb_true_iff. intros [[[_ H1] H2] H3].
  rewrite H1, H2. specialize (IH H3). lia.
Qed.

Lemma plain_name_solid (n : string) :
  plain_name n -> n <> "" /\ every solid_char n = true /\ balance n = 0.
Proof.
  intros [H1 H2]. split; [exact H1 |]. split; [| apply balance_plain, H2].
  apply (every_impl plain_char); [apply plain_solid | exact H2].
Qed.

(** One round of the loop. *)
Lemma next_loop_round (rounds : nat) (name names : string) (pop : bool) :
  Tune.next_loop (S rounds) name names pop
  = if balance (name ++ Tune.extract (first_field names)) =? 0
    then Some ((name ++ Tune.extract (first_field names))%string,
               if pop
               then Tune.erase (String.length (first_field names) + 1) names
               else names)
    else Tune.next_loop rounds (name ++ Tune.extract (first_field names))
           (if pop
            then Tune.erase (String.length (first_field names) + 1) names
            else names) pop.
Proof. reflexivity. Qed.

Lemma pop_all_step (rounds k : nat) (names : string) :
  pop_all rounds (S k) names
  = match Tune.next rounds names true with
    | Some (n, rest) =>
        match pop_all rounds k rest with
        | Some (ns, rest') => Some (n :: ns, rest')
        | None => None
        end
    | None => None
    end.
Proof. reflexivity. Qed.

(** The names of a list, popped one after the other. *)
Lemma pop_all_joined (l : list string) (n pad : string) :
  blank pad -> Forall plain_name (n :: l) ->
  pop_all 1 (S (List.length l)) (pad ++ joined (n :: l)) = Some (n :: l, "").
Proof.
  revert n pad. induction l as [|n' l IH]; intros n pad Hp Hl.
  - apply Forall_cons_iff in Hl. destruct Hl as [Hn _].
    destruct (plain_name_solid n Hn) as [N1 [N2 N3]].
    cbn [joined List.length]. rewrite pop_all_step.
    unfold Tune.next. rewrite next_loop_round.
    rewrite (field_last pad n Hp N2), (extract_padded pad n Hp N1 N2).
    cbn [String.append]. rewrite N3. cbn [Z.eqb].
    rewrite erase_all. reflexivity.
  - apply Forall_cons_iff in Hl. destruct Hl as [Hn Hl].
    destruct (plain_name_solid n Hn) as [N1 [N2 N3]].
    change (joined (n :: n' :: l)) with (n ++ String "," (" " ++ joined (n' :: l)))%string.
    rewrite <- string_app_assoc.
    cbn [List.length]. rewrite pop_all_step.
    unfold Tune.next at 1. rewrite next_loop_round.
    rewrite (field_before_comma pad n _ Hp N2), (extract_padded pad n Hp N1 N2).
    cbn [String.append]. rewrite N3. cbn [Z.eqb].
    rewrite erase_comma.
    pose proof (IH n' " " eq_refl Hl) as E. cbn [String.append] in E.
    rewrite E. reflexivity.
Qed.

(** X19. A list of plain names - not empty, without blank, comma or
    parenthesis - written with a comma and a blank between two is taken
    apart again by as many calls [next(names)]: they return the names in
    order, every one in one round of the loop, and leave [names] empty. *)
Theorem next_splits_names (l : list string) :
  Forall plain_name l ->
  pop_all 1 (List.length l) (joined l) = Some (l, "").
Proof.
  intros H. destruct l as [|n l]; [reflexivity |].
  apply (pop_all_joined l n "" eq_refl H).
Qed.

Lemma next_splits_names_witness :
  pop_all 1 3 "mobility, kingSafety, x" = Some (["mobility"; "kingSafety"; "x"], "").
Proof.
  apply (next_splits_names ["mobility"; "kingSafety"; "x"]).
  repeat constructor; discriminate.
Defined.

Lemma erase_suffix (n : nat) (s : string) :
  exists pre, s = (pre ++ Tune.erase n s)%string.
Proof.
  revert s. induction n as [|n IH]; intros s.
  - exists "". destruct s; reflexivity.
  - destruct s as [|c s]; [exists ""; reflexivity |].
    destruct (IH s) as [pre E]. exists (String c pre). cbn. rewrite <- E.
    reflexivity.
Qed.

Lemma erase_shorter (n : nat) (s : string) :
  s <> "" -> (String.length (Tune.erase (n + 1) s) < String.length s)%nat.
Proof.
  intros H. destruct s as [|c s]; [congruence |].
  rewrite Nat.add_1_r. cbn [Tune.erase String.length].
  destruct (erase_suffix n s) as [pre E]. rewrite E at 2.
  rewrite length_append. lia.
Qed.

(** What the loop returns, from any round on. *)
Lemma next_loop_returns (rounds : nat) (acc names : string) (pop : bool)
    (name rest : string) :
  Tune.next_loop rounds acc names pop = Some (name, rest) ->
  balance name = 0
  /\ (pop = false -> rest = names)
  /\ (pop = true ->
      (exists pre, names = (pre ++ rest)%string)
      /\ (names <> "" -> (String.length rest < String.length names)%nat)).
Proof.
  revert acc names. induction rounds as [|rounds IH]; intros acc names;
    [discriminate |].
  rewrite next_loop_round.
  destruct (Z.eqb_spec (balance (acc ++ Tune.extract (first_field names))) 0)
    as [Hb | Hb].
  - intros H. injection H as <- <-. split; [exact Hb |].
    split; [intros ->; reflexivity |]. intros ->. split.
    + apply erase_suffix.
    + apply erase_shorter.
  - intros H. destruct (IH _ _ H) as [B [F P]]. split; [exact B |]. split.
    + intros ->. apply (F eq_refl).
    + intros ->. destruct (P eq_refl) as [[pre E] L].
      destruct (erase_suffix (String.length (first_field names) + 1) names)
        as [pre' E'].
      split.
      * exists (pre' ++ pre)%string. rewrite string_app_assoc, <- E. exact E'.
      * intros Hn. pose proof (erase_shorter (String.length (first_field names)) names Hn) as S.
        rewrite E in S at 1. rewrite length_append in S. lia.
Qed.

(** X20. What [next] returns when it returns: a name that has as many
    ['('] as [')'].  With [pop] clear [names] is as it was; with [pop] set
    what is left of [names] is an end piece of it, and a shorter one unless
    [names] was empty - so a caller that goes on until [names] is empty
    makes progress with every call. *)
Theorem next_returns_balanced (rounds : nat) (names : string) (pop : bool)
    (name rest : string) :
  Tune.next rounds names pop = Some (name, rest) ->
  balance name = 0
  /\ (pop = false -> rest = names)
  /\ (pop = true ->
      (exists pre, names = (pre ++ rest)%string)
      /\ (names <> "" -> (String.length rest < String.length names)%nat)).
Proof. intros H. unfold Tune.next in H. exact (next_loop_returns _ _ _ _ _ _ H). Qed.

Lemma next_returns_balanced_witness :
  balance "f(abc)" = 0
  /\ (exists pre, "f(a, b, c), x" = (pre ++ " x")%string)
  /\ (String.length " x" < String.length "f(a, b, c), x")%nat.
Proof.
  destruct (next_returns_balanced 3 "f(a, b, c), x" true "f(abc)" " x" eq_refl)
    as [B [_ P]].
  destruct (P eq_refl) as [S L].
  split; [exact B | split; [exact S | apply L; discriminate]].
Defined.

Lemma next_loop_stuck_empty (rounds : nat) (acc : string) :
  balance acc <> 0 -> Tune.next_loop rounds acc "" true = None.
Proof.
  intros H. induction rounds as [|rounds IH]; [reflexivity |].
  rewrite next_loop_round.
  change (Tune.extract (first_field "")) with "".
  change (Tune.erase (String.length (first_field "") + 1) "") with "".
  rewrite append_empty. apply Z.eqb_neq in H. rewrite H. exact IH.
Qed.

Lemma next_loop_stuck_peek (rounds : nat) (names acc : string) (k : Z) :
  balance (Tune.extract (first_field names)) <> 0 ->
  0 <= k ->
  balance acc = k * balance (Tune.extract (first_field names)) ->
  Tune.next_loop rounds acc names false = None.
Proof.
  intros Hd. revert acc k. induction rounds as [|rounds IH]; intros acc k Hk Hb;
    [reflexivity |].
  rewrite next_loop_round.
  assert (E : balance (acc ++ Tune.extract (first_field names))
              = (k + 1) * balance (Tune.extract (first_field names)))
    by (rewrite balance_app, Hb; lia).
  destruct (Z.eqb_spec (balance (acc ++ Tune.extract (first_field names))) 0)
    as [Z0 | _].
  - rewrite E in Z0. apply Z.mul_eq_0 in Z0. lia.
  - apply (IH _ (k + 1)); [lia | exact E].
Qed.

(** X21. [next] need not return.  When the first word of the first field
    of [names] has more ['('] than [')'], or fewer, [next(names, false)]
    never leaves its loop: it takes the same field again and again.  And
    [next(names, true)] never leaves it when, besides, [names] has no
    comma: once [names] is empty nothing is added to the name. *)
Theorem next_unbalanced_never_returns (names : string) :
  balance (Tune.extract (first_field names)) <> 0 ->
  (forall rounds, Tune.next rounds names false = None)
  /\ (Tune.find_char "," names = None ->
      forall rounds, Tune.next rounds names true = None).
Proof.
  intros Hd. split.
  - intros rounds. apply (next_loop_stuck_peek rounds names "" 0 Hd); [lia | reflexivity].
  - intros Hc [|rounds]; [reflexivity |].
    unfold Tune.next. rewrite next_loop_round.
    assert (F : first_field names = names) by (unfold first_field; rewrite Hc; reflexivity).
    rewrite F in *. cbn [String.append].
    apply Z.eqb_neq in Hd. rewrite Hd. rewrite erase_all.
    apply next_loop_stuck_empty. apply Z.eqb_neq, Hd.
Qed.

Lemma next_unbalanced_never_returns_witness :
  (forall rounds, Tune.next rounds "SetRange(0" false = None)
  /\ (forall rounds, Tune.next rounds "SetRange(0" true = None).
Proof.
  destruct (next_unbalanced_never_returns "SetRange(0") as [A B].
  - vm_compute. discriminate.
  - split; [exact A | exact (B eq_refl)].
Defined.

Lemma solid_append (a b : string) :
  every solid_char a = true -> every solid_char b = true ->
  every solid_char (a ++ b) = true.
Proof. intros Ha Hb. rewrite every_app, Ha, Hb. reflexivity. Qed.

Lemma append_not_empty_r (a b : string) : b <> "" -> (a ++ b)%string <> "".
Proof. destruct a; cbn; [auto | discriminate]. Qed.

Ltac string_norm :=
  repeat (rewrite ?string_app_assoc, ?append_empty; cbn [String.append]).

(** One round on a field [t] that [tail] follows, [tail] being empty or
    beginning with a comma. *)
Lemma next_loop_field (rounds : nat) (acc pad t tail : string) :
  blank pad -> t <> "" -> every solid_char t = true ->
  tail = "" \/ (exists r, tail = String "," r) ->
  Tune.next_loop (S rounds) acc (pad ++ t ++ tail) true
  = if balance (acc ++ t) =? 0
    then Some ((acc ++ t)%string,
               match tail with String _ r => r | EmptyString => "" end)
    else Tune.next_loop rounds (acc ++ t)
           (match tail with String _ r => r | EmptyString => "" end) true.
Proof.
  intros Hp Hn Ht [-> | [r ->]]; rewrite next_loop_round.
  - rewrite append_empty, (field_last pad t Hp Ht), (extract_padded pad t Hp Hn Ht).
    rewrite erase_all. reflexivity.
  - rewrite <- string_app_assoc.
    rewrite (field_before_comma pad t r Hp Ht), (extract_padded pad t Hp Hn Ht).
    rewrite erase_comma. reflexivity.
Qed.

(** The arguments between the parentheses of a group, once the text up to
    the first of them is gathered. *)
Lemma next_loop_group (args : list string) (a acc pad tail : string) :
  blank pad -> Forall plain_name (a :: args) -> balance acc = 1 ->
  tail = "" \/ (exists r, tail = String "," r) ->
  Tune.next_loop (S (List.length args)) acc
    (pad ++ joined (a :: args) ++ ")" ++ tail) true
  = Some ((acc ++ glued (a :: args) ++ ")")%string,
          match tail with String _ r => r | EmptyString => "" end).
Proof.
  revert a acc pad. induction args as [|a' args IH]; intros a acc pad Hp Hl Hb Ht.
  - apply Forall_cons_iff in Hl. destruct Hl as [Ha _].
    destruct (plain_name_solid a Ha) as [A1 [A2 A3]].
    cbn [joined glued List.length]. rewrite append_empty.
    rewrite <- (string_app_assoc a ")" tail).
    rewrite (next_loop_field 0 acc pad (a ++ ")") tail Hp); auto.
    + rewrite !balance_app, Hb, A3.
      change (balance ")") with (-1). cbn [Z.add Z.eqb Z.pos_sub]. reflexivity.
    + apply append_not_empty_r. discriminate.
    + apply solid_append; [exact A2 | reflexivity].
  - apply Forall_cons_iff in Hl. destruct Hl as [Ha Hl].
    destruct (plain_name_solid a Ha) as [A1 [A2 A3]].
    change (joined (a :: a' :: args))
      with (a ++ String "," (" " ++ joined (a' :: args)))%string.
    cbn [List.length].
    replace (pad ++ (a ++ String "," (" " ++ joined (a' :: args))) ++ ")" ++ tail)%string
      with (pad ++ a ++ String "," (" " ++ joined (a' :: args) ++ ")" ++ tail))%string
      by (rewrite (string_app_assoc a); reflexivity).
    rewrite (next_loop_field _ acc pad a _ Hp A1 A2) by eauto.
    rewrite balance_app, Hb, A3. cbn [Z.add Z.eqb].
    rewrite (IH a' (acc ++ a)%string " " eq_refl Hl); [| rewrite balance_app; lia | exact Ht].
    cbn [glued]. rewrite !string_app_assoc. reflexivity.
Qed.

(** X22. A field with parentheses stays one name, and loses its commas
    and blanks.  For a text [f(a1, ..., ak)] of plain names, at the end of
    [names] or before a comma, [next] returns [f(a1...ak)] - the arguments
    one after the other with nothing between them - after [k] rounds of its
    loop, and leaves of [names] what comes after that comma. *)
Theorem next_keeps_group (f a : string) (args : list string) :
  every plain_char f = true -> Forall plain_name (a :: args) ->
  Tune.next (S (List.length args)) (f ++ "(" ++ joined (a :: args) ++ ")") true
  = Some ((f ++ "(" ++ glued (a :: args) ++ ")")%string, "")
  /\ forall r,
       Tune.next (S (List.length args))
         (f ++ "(" ++ joined (a :: args) ++ ")" ++ String "," r) true
       = Some ((f ++ "(" ++ glued (a :: args) ++ ")")%string, r).
Proof.
  intros Hf Hl.
  assert (G : forall tail, tail = "" \/ (exists r, tail = String "," r) ->
              Tune.next (S (List.length args))
                (f ++ "(" ++ joined (a :: args) ++ ")" ++ tail) true
              = Some ((f ++ "(" ++ glued (a :: args) ++ ")")%string,
                      match tail with String _ r => r | EmptyString => "" end)).
  { intros tail Ht.
    assert (F1 : every solid_char f = true)
      by (apply (every_impl plain_char); [apply plain_solid | exact Hf]).
    assert (F2 : balance f = 0) by (apply balance_plain, Hf).
    pose proof Hl as Hl'. apply Forall_cons_iff in Hl'. destruct Hl' as [Ha Hrest].
    destruct (plain_name_solid a Ha) as [A1 [A2 A3]].
    unfold Tune.next. destruct args as [|a' args].
    - cbn [joined glued List.length]. rewrite append_empty.
      replace (f ++ "(" ++ a ++ ")" ++ tail)%string
        with ("" ++ (f ++ "(" ++ a ++ ")") ++ tail)%string
        by (string_norm; reflexivity).
      rewrite (next_loop_field 0 "" "" (f ++ "(" ++ a ++ ")") tail eq_refl); auto.
      + rewrite !balance_app, F2, A3.
        change (balance "") with 0. change (balance "(") with 1.
        change (balance ")") with (-1).
        cbn [Z.add Z.eqb Z.pos_sub]. string_norm. reflexivity.
      + apply append_not_empty_r. discriminate.
      + repeat apply solid_append; auto.
    - change (joined (a :: a' :: args))
        with (a ++ String "," (" " ++ joined (a' :: args)))%string.
      replace (f ++ "(" ++ (a ++ String "," (" " ++ joined (a' :: args))) ++ ")" ++ tail)%string
        with ("" ++ (f ++ "(" ++ a)
              ++ String "," (" " ++ joined (a' :: args) ++ ")" ++ tail))%string
        by (string_norm; reflexivity).
      cbn [List.length].
      rewrite (next_loop_field _ "" "" (f ++ "(" ++ a) _ eq_refl).
      + rewrite !balance_app, F2, A3.
        change (balance "") with 0. change (balance "(") with 1.
        cbn [Z.add Z.eqb].
        rewrite (next_loop_group args a' ("" ++ f ++ "(" ++ a)%string " " tail eq_refl Hrest);
          [| rewrite !balance_app, F2, A3; reflexivity | exact Ht].
        cbn [glued]. string_norm. reflexivity.
      + apply append_not_empty_r. discriminate.
      + repeat apply solid_append; auto.
      + eauto. }
  split.
  - rewrite <- (append_empty (f ++ "(" ++ joined (a :: args) ++ ")")).
    rewrite !string_app_assoc. apply (G ""). auto.
  - intros r. apply (G (String "," r)). eauto.
Qed.

Lemma next_keeps_group_witness :
  Tune.next 2 "SetRange(-10, 10), a" true = Some ("SetRange(-1010)", " a").
Proof.
  apply (proj2 (next_keeps_group "SetRange" "-10" ["10"]
                  eq_refl ltac:(repeat constructor; discriminate)) " a").
Defined.

(** *** The first word of a field *)

Lemma word_first (t junk : string) (sp : ascii) :
  every solid_char t = true -> Strtof.isspace sp = true ->
  Tune.word (t ++ String sp junk) = t.
Proof.
  intros Ht Hs. induction t as [|c t IH]; cbn.
  - rewrite Hs. reflexivity.
  - cbn in Ht. apply andb_true_iff in Ht. destruct Ht as [Hc Ht].
    rewrite (solid_no_space c Hc), IH; auto.
Qed.

Lemma extract_first_word (pad t junk : string) (sp : ascii) :
  blank pad -> t <> "" -> every solid_char t = true ->
  Strtof.isspace sp = true ->
  Tune.extract (pad ++ t ++ String sp junk) = t.
Proof.
  intros Hp Hn Ht Hs. unfold Tune.extract.
  assert (S : Strtof.skip_space (pad ++ t ++ String sp junk)
              = (t ++ String sp junk)%string).
  { induction pad as [|c pad IH]; cbn.
    - destruct t as [|a t]; [congruence |]. cbn in Ht |- *.
      apply andb_true_iff in Ht. rewrite (solid_no_space a (proj1 Ht)). reflexivity.
    - unfold blank in Hp. cbn in Hp. apply andb_true_iff in Hp.
      destruct Hp as [Hc Hp]. rewrite Hc. apply IH, Hp. }
  rewrite S. destruct t as [|a t]; [congruence |].
  apply (word_first (String a t) junk sp Ht Hs).
Qed.

(** X23. Of a field [next] keeps the first word only.  When the field
    before the first comma is made of blanks, a word [t] without blanks and
    with as many ['('] as [')'], a blank and any text [junk] without a
    comma, [next] returns [t] in one round: the blanks before the word and
    everything from the blank after it on - not the blanks at the end alone
    - are dropped, and [names] goes on after the comma. *)
Theorem next_keeps_first_word (pad t junk r : string) (sp : ascii) :
  blank pad -> t <> "" -> every solid_char t = true -> balance t = 0 ->
  Strtof.isspace sp = true ->
  every (fun c => negb (Ascii.eqb c ",")) junk = true ->
  Tune.next 1 (pad ++ t ++ String sp junk ++ String "," r) true = Some (t, r)
  /\ Tune.next 1 (pad ++ t ++ String sp junk ++ String "," r) false
     = Some (t, (pad ++ t ++ String sp junk ++ String "," r)%string).
Proof.
  intros Hp Hn Ht Hb Hs Hj.
  assert (C : every (fun c => negb (Ascii.eqb c ",")) (pad ++ t ++ String sp junk) = true).
  { rewrite <- string_app_assoc, every_app, (padded_no_comma pad t Hp Ht).
    cbn. rewrite (space_no_comma sp Hs), Hj. reflexivity. }
  assert (F : first_field (pad ++ t ++ String sp junk ++ String "," r)
              = (pad ++ t ++ String sp junk)%string).
  { unfold first_field.
    replace (pad ++ t ++ String sp junk ++ String "," r)%string
      with ((pad ++ t ++ String sp junk) ++ String "," r)%string
      by (string_norm; reflexivity).
    rewrite (find_char_comma _ r C). cbn [Tune.substr]. apply take_append. }
  assert (E : Tune.erase (String.length (pad ++ t ++ String sp junk) + 1)
                (pad ++ t ++ String sp junk ++ String "," r) = r).
  { replace (pad ++ t ++ String sp junk ++ String "," r)%string
      with ((pad ++ t ++ String sp junk) ++ String "," r)%string
      by (string_norm; reflexivity).
    apply erase_comma. }
  unfold Tune.next. rewrite !next_loop_round, F, E.
  rewrite (extract_first_word pad t junk sp Hp Hn Ht Hs).
  cbn [String.append]. rewrite Hb. split; reflexivity.
Qed.

Lemma next_keeps_first_word_witness :
  Tune.next 1 "  unsigned x , y" true = Some ("unsigned", " y").
Proof.
  apply (proj1 (next_keeps_first_word "  " "unsigned" "x " " y" " "
                  eq_refl ltac:(discriminate) eq_refl eq_refl eq_refl eq_refl)).
Defined.

(** *** Looking at the next name without taking it *)

(** X24. [next(names, false)] looks at the name the next
    [next(names, true)] takes: when it returns, it returns the first word
    of the first field of [names], it did so in the first round of its
    loop, and [next(names, true)] returns the same name in one round,
    leaving [names] without that field and the comma after it. *)
Theorem next_peek_agrees_with_pop (rounds : nat) (names name rest : string) :
  Tune.next rounds names false = Some (name, rest) ->
  name = Tune.extract (first_field names)
  /\ Tune.next 1 names false = Some (name, names)
  /\ Tune.next 1 names true
     = Some (name, Tune.erase (String.length (first_field names) + 1) names).
Proof.
  destruct rounds as [|rounds]; [discriminate |].
  unfold Tune.next. rewrite !next_loop_round. cbn [String.append].
  destruct (Z.eqb_spec (balance (Tune.extract (first_field names))) 0) as [E | E].
  - intros H. injection H as <- <-. auto.
  - intros H. exfalso.
    rewrite (next_loop_stuck_peek rounds names (Tune.extract (first_field names)) 1 E)
      in H; [discriminate | lia | lia].
Qed.

Lemma next_peek_agrees_with_pop_witness :
  Tune.next 1 "a, b" true = Some ("a", " b").
Proof.
  apply (proj2 (proj2 (next_peek_agrees_with_pop 4 "a, b" "a" "a, b" eq_refl))).
Defined.

(** *** [BoolConditions::set] with any variance *)

Section Flags.

Variable PRNG : Type.
Variable rand64 : PRNG -> Z * PRNG.

(** One draw: the number added to the value is at least 0 and below the
    variance, whatever the generator gives. *)
Lemma draw_within (i : nat) (c : BoolConditions PRNG) (x : Z) :
  nth_error (values c) i = Some x ->
  0 < variance c < 2 ^ 31 ->
  - 2 ^ 31 <= x -> x + variance c - 1 < 2 ^ 31 ->
  exists b,
    draw rand64 i c = Ok b (set_rng (snd (rand_unsigned rand64 (rng c))) c)
    /\ (threshold c < x -> b = true)
    /\ (x + variance c - 1 <= threshold c -> b = false).
Proof.
  intros Hn Hv Hlo Hhi. unfold draw, bind at 1, get at 1. rewrite Hn.
  destruct (rand_unsigned rand64 (rng c)) as [r g] eqn:Hr.
  unfold bind, modify. cbn [variance set_rng snd threshold].
  rewrite (Z.mod_small (variance c)) by lia.
  destruct (Z.eqb_spec (variance c) 0) as [E | _]; [lia |].
  pose proof (Z.mod_pos_bound r (variance c) (proj1 Hv)) as B.
  unfold int_of_unsigned.
  destruct (Z.ltb_spec (r mod variance c) (2 ^ 31)); [| lia].
  destruct (Z.leb_spec (- 2 ^ 31) (x + r mod variance c)); [| lia].
  destruct (Z.ltb_spec (x + r mod variance c) (2 ^ 31)); [| lia].
  cbn [andb]. unfold ret. eexists. split; [reflexivity |].
  split; intros H2.
  - apply Z.ltb_lt. lia.
  - apply Z.ltb_ge. lia.
Qed.

(** The first loop after the first call. *)
Lemma first_loop_within (post pre : list bool) (vs : list Z)
    (c : BoolConditions PRNG) :
  binary c = pre ++ post ->
  skipn (List.length pre) (values c) = vs ->
  List.length vs = List.length post ->
  Forall (fun x => - 2 ^ 31 <= x /\ x + variance c - 1 < 2 ^ 31) vs ->
  startup c = false -> 0 < variance c < 2 ^ 31 ->
  exists c' flags,
    for_each (seq (List.length pre) (List.length post))
      (fun i =>
         c <- get;;
         b <- (if negb (startup c) then draw rand64 i else ret false);;
         modify (set_binary i b)) c = Ok tt c'
    /\ binary c' = pre ++ flags
    /\ Forall2 (fun x b => (threshold c < x -> b = true)
                           /\ (x + variance c - 1 <= threshold c -> b = false))
               vs flags
    /\ values c' = values c /\ variance c' = variance c
    /\ threshold c' = threshold c
    /\ rng c' = Nat.iter (List.length post)
                  (fun g => snd (rand_unsigned rand64 g)) (rng c)
    /\ startup c' = startup c /\ printed c' = printed c.
Proof.
  revert pre vs c.
  induction post as [|b0 post IH]; intros pre vs c Hb Hk Hl Hi Hs Hv.
  - destruct vs; [| discriminate]. exists c, []. cbn. rewrite Hb.
    repeat split; auto.
  - destruct vs as [|x vs]; [discriminate |].
    destruct (skipn_head _ _ _ _ Hk) as [Hn Hk'].
    apply Forall_cons_iff in Hi. destruct Hi as [[Hx1 Hx2] Hi'].
    destruct (draw_within (List.length pre) c x Hn Hv Hx1 Hx2) as [b [D [B1 B2]]].
    set (c1 := set_rng (snd (rand_unsigned rand64 (rng c))) c) in *.
    destruct (IH (pre ++ [b]) vs (set_binary (List.length pre) b c1))
      as [c' [flags [R [B [F [V [Va [T [G [S P]]]]]]]]]].
    + cbn. rewrite Hb, set_nth_app, <- app_assoc. reflexivity.
    + rewrite length_snoc. exact Hk'.
    + cbn in Hl. lia.
    + exact Hi'.
    + exact Hs.
    + exact Hv.
    + exists c', (b :: flags). cbn [List.length seq for_each].
      unfold bind at 1. unfold bind at 1. unfold get at 1. rewrite Hs.
      cbn [negb]. unfold bind at 1. rewrite D. unfold modify at 1.
      rewrite length_snoc in R. split; [exact R |].
      rewrite B, <- app_assoc.
      cbn [binary values variance threshold rng startup printed set_binary
           set_rng List.app] in *.
      split; [reflexivity |]. split; [constructor; auto |].
      rewrite G, Nat.iter_succ_r. unfold c1 in *.
      cbn [binary values variance threshold rng startup printed set_rng] in *.
      repeat split; congruence.
Qed.

(** X25. A call of [set()] after the first, with a variance above 0, a
    value for every flag, and no sum that overflows: whatever the generator
    gives, every flag whose value is above the threshold is set, and every
    flag whose value is at most [threshold - variance + 1] is cleared (the
    number added is at least 0 and below the variance); the flags are
    printed as they were set; the generator was asked once for every flag;
    and values, variance and threshold are as they were. *)
Theorem set_flags_within_variance (c : BoolConditions PRNG) :
  startup c = false ->
  0 < variance c < 2 ^ 31 ->
  List.length (values c) = List.length (binary c) ->
  Forall (fun x => - 2 ^ 31 <= x /\ x + variance c - 1 < 2 ^ 31) (values c) ->
  exists c',
    set rand64 c = Ok tt c'
    /\ Forall2 (fun x b => (threshold c < x -> b = true)
                           /\ (x + variance c - 1 <= threshold c -> b = false))
               (values c) (binary c')
    /\ printed c' = printed c ++ binary c'
    /\ rng c' = Nat.iter (List.length (binary c))
                  (fun g => snd (rand_unsigned rand64 g)) (rng c)
    /\ startup c' = false
    /\ values c' = values c /\ variance c' = variance c
    /\ threshold c' = threshold c.
Proof.
  intros Hs Hv Hl Hi.
  destruct (first_loop_within (binary c) [] (values c) c eq_refl eq_refl Hl Hi Hs Hv)
    as [a [flags [Ra [Ba [Fa [Va [Vra [Ta [Ga [Sa Pa]]]]]]]]]].
  cbn [List.length List.app] in Ra, Ba.
  destruct (print_loop PRNG (binary a) [] (set_startup false a) eq_refl)
    as [c' [R [B [V [Vr [T [G [S P]]]]]]]].
  cbn [List.length List.app binary values variance threshold rng startup
       printed set_startup] in R, B, V, Vr, T, G, S, P.
  exists c'. split; [| split; [| split; [| split; [| split; [| split; [| split]]]]]].
  - unfold set. unfold bind at 1. unfold get at 1. unfold bind at 1.
    rewrite Ra. unfold bind at 1. unfold modify at 1.
    unfold bind at 1. unfold get at 1. exact R.
  - rewrite B, Ba. exact Fa.
  - rewrite P, B, Pa. reflexivity.
  - rewrite G, Ga. reflexivity.
  - exact S.
  - congruence.
  - congruence.
  - congruence.
Qed.

(** X26. With a variance of 0 every call of [set()] after the first is
    undefined as soon as there is a flag: the remainder of the random number
    by 0 is taken for the first of them. *)
Theorem set_zero_variance_undefined (c : BoolConditions PRNG) :
  startup c = false -> variance c = 0 -> binary c <> [] ->
  set rand64 c = Undef.
Proof.
  intros Hs Hv Hb. destruct (binary c) as [|b0 rest] eqn:E; [congruence |].
  unfold set. unfold bind at 1. unfold get at 1. rewrite E.
  cbn [List.length seq for_each]. unfold bind at 1. unfold bind at 1.
  unfold bind at 1. unfold get at 1. rewrite Hs. cbn [negb].
  unfold bind at 1. unfold draw, bind at 1, get at 1.
  destruct (nth_error (values c) 0) as [x|]; [| reflexivity].
  destruct (rand_unsigned rand64 (rng c)) as [r g].
  unfold bind, modify. cbn [variance set_rng]. rewrite Hv. reflexivity.
Qed.

End Flags.

Lemma set_flags_within_variance_witness :
  exists c',
    set lcg (mkBoolConditions [false; false; false] [465; 600; 300] 40 500 2024 false [])
    = Ok tt c'
    /\ nth_error (binary c') 1 = Some true
    /\ nth_error (binary c') 2 = Some false.
Proof.
  destruct (set_flags_within_variance Z lcg
              (mkBoolConditions [false; false; false] [465; 600; 300] 40 500 2024 false []))
    as [c' [R [F _]]].
  - reflexivity.
  - cbn. lia.
  - reflexivity.
  - cbn. repeat constructor; lia.
  - exists c'. split; [exact R |]. cbn in F.
    inversion F as [|x1 b1 l1 l1' _ F1 E1 E2]; subst.
    inversion F1 as [|x2 b2 l2 l2' [H2 _] F2 E1' E2']; subst.
    inversion F2 as [|x3 b3 l3 l3' [_ H3] F3 E1'' E2'']; subst.
    cbn. split; f_equal; [apply H2 | apply H3]; lia.
Defined.

Lemma set_zero_variance_undefined_witness :
  set lcg (mkBoolConditions [false] [465] 0 500 2024 false []) = Undef.
Proof.
  apply (set_zero_variance_undefined Z lcg
           (mkBoolConditions [false] [465] 0 500 2024 false [])).
  - reflexivity.
  - reflexivity.
  - discriminate.
Defined.
